(** * TikTok-style captions: the corner detection algorithm

    A shallow embedding of the caption builder of [script.js] (the text
    change handler and [applyCornerDetection]) and of the same algorithm as
    it is inlined by [createHTML] in [playwright-example.js].

    The box.  The children of [#box] are the [.line] elements and nothing
    else, as both scripts build them, so the box is the list of its lines
    and a pass is a function from that list to the list it leaves.

    Numbers.  A line's [offsetWidth] is an integer number of pixels ([Z]).
    A border radius is the rational its Number denotes ([Q]); it is a number
    (never [NaN]).  The pass comes twice.  [applyCornerDetection] compares
    the exact sums and differences of its two width tests;
    [Binary64.applyCornerDetection] rounds each sum, difference and product
    to the nearest binary64, as the engine does.  The two are the same loop
    and take different branches only on a pair at the very edge of a case.
    The scale suffix of a line goes through [parseFloat], which is embedded
    in full, rounding to the nearest binary64 included.

    Layout.  The browser's layout is not part of the scripts.  A fresh line
    carries the width and radius the layout gives it ([fitWidth],
    [borderRadius]); how wide a line is once it has an inline width depends
    on the style sheet and is a parameter ([boxWidth]). *)

From Stdlib Require Import ZArith QArith Ascii String List Lia Lqa.
From stdpp Require Import base decidable list strings.

Import ListNotations.

(** ** JavaScript strings and numbers *)

Module JS.

(** A string is a sequence of UTF-16 code units.  [lit] is for the ASCII
    literals of the scripts. *)
Definition jsstring : Type := list N.

Fixpoint lit (s : string) : jsstring :=
  match s with
  | EmptyString => []
  | String a s' => N_of_ascii a :: lit s'
  end.

(** The Number values [parseFloat] can produce.  A finite value is the
    rational it denotes, in lowest terms; [-0] is not told apart from [+0]
    (both are falsy, which is all the callers look at). *)
Inductive JSNum : Type :=
| NaN
| Infinity
| NegInfinity
| Num (q : Q).

Definition negate (x : JSNum) : JSNum :=
  match x with
  | NaN => NaN
  | Infinity => NegInfinity
  | NegInfinity => Infinity
  | Num q => Num (Qred (- q))
  end.

(** [ToBoolean]: [NaN], [+0] and [-0] are falsy. *)
Definition ToBoolean (x : JSNum) : bool :=
  match x with
  | NaN => false
  | Infinity | NegInfinity => true
  | Num q => negb (Qeq_bool q 0)
  end.

(** [x || y] on numbers. *)
Definition orElse (x y : JSNum) : JSNum := if ToBoolean x then x else y.

(** [a === b] and [a !== b] on strings. *)
Definition strictEq (a b : jsstring) : bool := bool_decide (a = b).
Definition strictNe (a b : jsstring) : bool := negb (strictEq a b).

(** [ToString] of the second element of a destructured array: a string, or
    [undefined] when the array is too short. *)
Definition ToString (v : option jsstring) : jsstring :=
  match v with
  | Some s => s
  | None => lit "undefined"
  end.

(** The two separators the scripts split on: ["|"] and ["\n"]. *)
Definition pipe : N := 124.
Definition newline : N := 10.

(** [s.split(sep)] for a separator of one code unit. *)
Fixpoint split (sep : N) (s : jsstring) : list jsstring :=
  match s with
  | [] => [[]]
  | c :: s' =>
      if N.eqb c sep then [] :: split sep s'
      else match split sep s' with
           | piece :: rest => (c :: piece) :: rest
           | [] => [[c]]
           end
  end.

(** White space and line terminators, as [parseFloat] strips them. *)
Definition isStrWhiteSpaceChar (c : N) : bool :=
  match c with
  | 9 | 10 | 11 | 12 | 13 | 32 | 160 | 5760
  | 8232 | 8233 | 8239 | 8287 | 12288 | 65279 => true
  | _ => N.leb 8192 c && N.leb c 8202
  end%N.

Fixpoint trimStart (s : jsstring) : jsstring :=
  match s with
  | c :: s' => if isStrWhiteSpaceChar c then trimStart s' else s
  | [] => []
  end.

(** [s.trim()]. *)
Definition trim (s : jsstring) : jsstring :=
  rev (trimStart (rev (trimStart s))).

Definition isDecimalDigit (c : N) : bool := (N.leb 48 c && N.leb c 57)%N.

(** The longest run of decimal digits at the head of [s], and what follows. *)
Fixpoint takeDigits (s : jsstring) : list Z * jsstring :=
  match s with
  | c :: s' =>
      if isDecimalDigit c
      then let (ds, r) := takeDigits s' in ((Z.of_N c - 48)%Z :: ds, r)
      else ([], s)
  | [] => ([], [])
  end.

Definition digitsValue (ds : list Z) : Z :=
  fold_left (fun acc d => acc * 10 + d)%Z ds 0%Z.

(** [ExponentPart], when one starts [s]: an exponent indicator, an optional
    sign and at least one digit.  Otherwise the literal has ended, and the
    exponent is 0. *)
Definition exponentPart (s : jsstring) : Z :=
  match s with
  | c :: r =>
      if N.eqb c 101 || N.eqb c 69 then
        match r with
        | 43%N :: r' => digitsValue (fst (takeDigits r'))
        | 45%N :: r' => (- digitsValue (fst (takeDigits r')))%Z
        | _ => digitsValue (fst (takeDigits r))
        end
      else 0%Z
  | [] => 0%Z
  end.

Fixpoint startsWith (p s : jsstring) : bool :=
  match p, s with
  | [], _ => true
  | a :: p', b :: s' => N.eqb a b && startsWith p' s'
  | _ :: _, [] => false
  end.

(** The Number value of the non-negative rational [n / d]: the nearest
    binary64, ties to even, [Infinity] from [2^1024 - 2^970] on. *)
Definition nearestDouble (n d : Z) : JSNum :=
  if (n =? 0)%Z then Num 0 else
  let num e := if (e <? 0)%Z then (n * 2 ^ (- e))%Z else n in
  let den e := if (e <? 0)%Z then d else (d * 2 ^ e)%Z in
  let e1 := (Z.log2 n - Z.log2 d - 52)%Z in
  let e2 := if (2 ^ 52 * den e1 <=? num e1)%Z then e1 else (e1 - 1)%Z in
  let e := Z.max e2 (-1074) in
  let m := (num e / den e)%Z in
  let m' := match (2 * (num e mod den e) ?= den e)%Z with
            | Lt => m
            | Gt => (m + 1)%Z
            | Eq => if Z.even m then m else (m + 1)%Z
            end in
  if (971 <? e)%Z || ((e =? 971)%Z && (2 ^ 53 <=? m')%Z) then Infinity
  else if (e <? 0)%Z then Num (Qred (m' # Z.to_pos (2 ^ (- e))))
       else Num (inject_Z (m' * 2 ^ e)).

(** The value of the decimal literal with integer digits [ip], fraction
    digits [fp] and exponent [e]. *)
Definition decimalValue (ip fp : list Z) (e : Z) : JSNum :=
  let mant := digitsValue (ip ++ fp) in
  let e10 := (e - Z.of_nat (length fp))%Z in
  if (e10 <? 0)%Z then nearestDouble mant (10 ^ (- e10))
  else nearestDouble (mant * 10 ^ e10) 1.

(** The longest prefix of [s] that is a [StrUnsignedDecimalLiteral], as a
    number; [NaN] when no prefix is one. *)
Definition unsignedLiteral (s : jsstring) : JSNum :=
  if startsWith (lit "Infinity") s then Infinity
  else
    let (ip, r) := takeDigits s in
    match ip, r with
    | [], 46%N :: r' =>
        let (fp, r'') := takeDigits r' in
        match fp with
        | [] => NaN
        | _ :: _ => decimalValue [] fp (exponentPart r'')
        end
    | [], _ => NaN
    | _ :: _, 46%N :: r' =>
        let (fp, r'') := takeDigits r' in
        decimalValue ip fp (exponentPart r'')
    | _ :: _, _ => decimalValue ip [] (exponentPart r)
    end.

(** [parseFloat(v)]. *)
Definition parseFloat (v : option jsstring) : JSNum :=
  match trimStart (ToString v) with
  | 43%N :: s => unsignedLiteral s
  | 45%N :: s => negate (unsignedLiteral s)
  | s => unsignedLiteral s
  end.

End JS.

Import JS.

(** ** The caption box *)

(** A [.line] element of the box: what the scripts write ([textContent],
    [--font-scale], [classList], [style.width]) and what they read back from
    the browser's layout.  [fitWidth] is the [offsetWidth] of the line while
    it has no inline width; [borderRadius] is
    [parseFloat(--border-radius) * parseFloat(fontSize)], in pixels. *)
Record LineEl : Type := mkLineEl {
  textContent : jsstring;
  fontScale : JSNum;
  classList : list string;
  styleWidth : option Z;
  fitWidth : Z;
  borderRadius : Q
}.

(** [el.classList.add(token)]. *)
Definition classList_add (token : string) (el : LineEl) : LineEl :=
  {| textContent := textContent el;
     fontScale := fontScale el;
     classList := if bool_decide (token ∈ classList el) then classList el
                  else classList el ++ [token];
     styleWidth := styleWidth el;
     fitWidth := fitWidth el;
     borderRadius := borderRadius el |}.

(** [el.style.width = `${width}px`]. *)
Definition set_styleWidth (width : Z) (el : LineEl) : LineEl :=
  {| textContent := textContent el;
     fontScale := fontScale el;
     classList := classList el;
     styleWidth := Some width;
     fitWidth := fitWidth el;
     borderRadius := borderRadius el |}.

(** [lines[i].previousElementSibling], the lines being all the children of
    the box, in order. *)
Definition previousElementSibling (lines : list LineEl) (i : nat)
  : option LineEl :=
  match i with
  | O => None
  | S j => lines !! j
  end.

(** What the renderer takes from a line after the pass. *)
Record DecorationResult : Type := mkDecoration {
  roundTopLeft : bool;
  roundTopRight : bool;
  roundBottomLeft : bool;
  roundBottomRight : bool;
  forcedWidth : option Z
}.

Definition hasClass (token : string) (el : LineEl) : bool :=
  bool_decide (token ∈ classList el).

Definition decoration (el : LineEl) : DecorationResult :=
  {| roundTopLeft := hasClass "corner-tl" el;
     roundTopRight := hasClass "corner-tr" el;
     roundBottomLeft := hasClass "corner-bl" el;
     roundBottomRight := hasClass "corner-br" el;
     forcedWidth := styleWidth el |}.

Definition noDecoration : DecorationResult :=
  {| roundTopLeft := false; roundTopRight := false;
     roundBottomLeft := false; roundBottomRight := false;
     forcedWidth := None |}.

Definition Qge_bool (a b : Q) : bool := Qle_bool b a.

(** The three branches of the width test. *)
Inductive Scenario : Type := Narrower | Wider | Similar.

(** ** Corner detection *)

Section CornerDetection.

(** [boxWidth w] is the [offsetWidth] the browser reports for a line whose
    inline width is [w] pixels.  The style sheet that decides it is not among
    the sources: under border-box sizing it is [w] itself ([borderBox]
    below), under content-box sizing [w] plus padding and border, taken to
    be the same for every line. *)
Variable boxWidth : Z -> Z.

Definition offsetWidth (el : LineEl) : Z :=
  match styleWidth el with
  | Some w => boxWidth w
  | None => fitWidth el
  end.

(** [align === "center" ? thisBorderRadius * 2 : thisBorderRadius]. *)
Definition tolerance (align : jsstring) (thisBorderRadius : Q) : Q :=
  if strictEq align (lit "center") then thisBorderRadius * 2
  else thisBorderRadius.

(** The two width tests of the loop body, on the widths as the browser
    reports them when the pair is reached, and on the exact sums and
    differences: what rounding adds is in [Binary64] below. *)
Definition narrowerTest (align : jsstring) (lastLine thisLine : LineEl)
  : bool :=
  Qge_bool
    (inject_Z (offsetWidth lastLine) - tolerance align (borderRadius lastLine))
    (inject_Z (offsetWidth thisLine) + tolerance align (borderRadius thisLine)).

Definition widerTest (align : jsstring) (lastLine thisLine : LineEl) : bool :=
  Qle_bool
    (inject_Z (offsetWidth lastLine) + tolerance align (borderRadius lastLine))
    (inject_Z (offsetWidth thisLine) - tolerance align (borderRadius thisLine)).

(** The body of the loop for a line that has a previous sibling: the pair as
    the iteration leaves it. *)
Definition detectPair (align : jsstring) (lastLine thisLine : LineEl)
  : LineEl * LineEl :=
  if narrowerTest align lastLine thisLine then
    let thisLine :=
      if strictNe align (lit "left") then classList_add "corner-tl" thisLine
      else thisLine in
    let thisLine :=
      if strictNe align (lit "right") then classList_add "corner-tr" thisLine
      else thisLine in
    (lastLine, thisLine)
  else if widerTest align lastLine thisLine then
    let lastLine :=
      if strictNe align (lit "left") then classList_add "corner-bl" lastLine
      else lastLine in
    let lastLine :=
      if strictNe align (lit "right") then classList_add "corner-br" lastLine
      else lastLine in
    (lastLine, thisLine)
  else
    let width := Z.max (offsetWidth lastLine) (offsetWidth thisLine) in
    let lastLine := set_styleWidth width (classList_add "connect-b" lastLine) in
    let thisLine := set_styleWidth width (classList_add "connect-t" thisLine) in
    (lastLine, thisLine).

(** Which branch [detectPair] takes. *)
Definition scenario (align : jsstring) (lastLine thisLine : LineEl)
  : Scenario :=
  if narrowerTest align lastLine thisLine then Narrower
  else if widerTest align lastLine thisLine then Wider
  else Similar.

(** One turn of [for (let i = 0; i < lines.length; i++)]. *)
Definition iteration (align : jsstring) (lines : list LineEl) (i : nat)
  : list LineEl :=
  match lines !! i with
  | None => lines
  | Some thisLine =>
      match previousElementSibling lines i with
      | None => lines
      | Some lastLine =>
          let '(lastLine', thisLine') := detectPair align lastLine thisLine in
          <[i := thisLine']> (<[Nat.pred i := lastLine']> lines)
      end
  end.

(** The lines after the turns [0 .. n-1]. *)
Definition turns (align : jsstring) (n : nat) (lines : list LineEl)
  : list LineEl :=
  fold_left (iteration align) (seq 0 n) lines.

Definition applyCornerDetection (align : jsstring) (lines : list LineEl)
  : list LineEl :=
  turns align (length lines) lines.

End CornerDetection.

(** ** Building the lines *)

(** [[lineText, lineScale] = line.split("|")], then
    [parseFloat(lineScale) || 1]. *)
Definition lineText (line : jsstring) : option jsstring :=
  split pipe line !! 0%nat.

Definition lineScale (line : jsstring) : JSNum :=
  orElse (parseFloat (split pipe line !! 1%nat)) (Num 1).

Section TextChange.

(** The layout of a fresh line, from its text and font scale: its
    [offsetWidth] and its border radius in pixels. *)
Variable measure : jsstring -> JSNum -> Z * Q.

(** The element the text change handler creates for a line of the text
    area.  (Assigning [undefined] to [textContent] would give the empty
    text; [split] never returns an empty array.) *)
Definition createLine (line : jsstring) : LineEl :=
  let text := default [] (lineText line) in
  let scale := lineScale line in
  {| textContent := text;
     fontScale := scale;
     classList := ["line"%string];
     styleWidth := None;
     fitWidth := fst (measure text scale);
     borderRadius := snd (measure text scale) |}.

Fixpoint removeAllChildNodes (box : list LineEl) : list LineEl :=
  match box with
  | [] => []
  | _ :: rest => removeAllChildNodes rest
  end.

Definition appendChild (box : list LineEl) (el : LineEl) : list LineEl :=
  box ++ [el].

(** [textEl.onchange], on the children of the box. *)
Definition onchange (boxWidth : Z -> Z) (align value : jsstring)
    (box : list LineEl) : list LineEl :=
  let box := removeAllChildNodes box in
  let box :=
    fold_left (fun box line => appendChild box (createLine line))
              (split newline value) box in
  applyCornerDetection boxWidth align box.

(** The lines [createHTML] makes of the text, one per record it keeps:
    trimmed, the empty ones dropped.  This is the text and the scale the
    script computes for each line, before it escapes the text into the
    markup; what the browser's parser makes of the markup is not part of
    it. *)
Definition createHTML_lines (text : jsstring) : list LineEl :=
  map createLine
      (filter (fun line => line ≠ []) (map trim (split newline text))).

End TextChange.

(** ** Fixtures and the vocabulary of the specification *)

(** Border-box sizing: a line is as wide as its inline width says. *)
Definition borderBox (w : Z) : Z := w.

(** A line as the text change handler leaves it before the pass: only the
    class [line], no inline width. *)
Definition fresh (el : LineEl) : Prop :=
  classList el = ["line"%string] /\ styleWidth el = None.

(** A fresh line with a given width and border radius. *)
Definition measuredLine (width : Z) (radius : Q) : LineEl :=
  {| textContent := lit "Text"; fontScale := Num 1;
     classList := ["line"%string]; styleWidth := None;
     fitWidth := width; borderRadius := radius |}.

(** What the layout supplied for a line. *)
Definition measurement (el : LineEl) : Z * Q := (fitWidth el, borderRadius el).

(** The tolerance and the three cases in the words of the specification,
    for the pair [(prev, curr)] with the widths the browser reports. *)
Definition specTolerance (align : jsstring) (cornerRadius : Q) : Q :=
  cornerRadius * (if bool_decide (align = lit "center") then 2 else 1).

Definition caseA (boxWidth : Z -> Z) (align : jsstring) (prev curr : LineEl)
  : Prop :=
  (inject_Z (offsetWidth boxWidth prev) - specTolerance align (borderRadius prev)
   >= inject_Z (offsetWidth boxWidth curr) + specTolerance align (borderRadius curr))%Q.

Definition caseB (boxWidth : Z -> Z) (align : jsstring) (prev curr : LineEl)
  : Prop :=
  (inject_Z (offsetWidth boxWidth prev) + specTolerance align (borderRadius prev)
   <= inject_Z (offsetWidth boxWidth curr) - specTolerance align (borderRadius curr))%Q.

Definition caseC (boxWidth : Z -> Z) (align : jsstring) (prev curr : LineEl)
  : Prop :=
  ~ caseA boxWidth align prev curr /\ ~ caseB boxWidth align prev curr.

(** A suffix with no number at its head: after the white space and one
    optional sign comes the end of the string or a character that is neither
    a digit, nor a dot, nor the I of Infinity. *)
Definition headNotNumeric (s : jsstring) : Prop :=
  match s with
  | [] => True
  | c :: _ => isDecimalDigit c = false /\ c <> 46%N /\ c <> 73%N
  end.

Definition nonNumeric (suffix : jsstring) : Prop :=
  match trimStart suffix with
  | 43%N :: s => headNotNumeric s
  | 45%N :: s => headNotNumeric s
  | s => headNotNumeric s
  end.

(** The loop is about to run turn [i + 1], on the pair [(i, i + 1)], and
    finds [lastLine] and [thisLine] there. *)
Definition reaches (boxWidth : Z -> Z) (align : jsstring)
    (lines : list LineEl) (i : nat) (lastLine thisLine : LineEl) : Prop :=
  turns boxWidth align (S i) lines !! i = Some lastLine /\
  turns boxWidth align (S i) lines !! S i = Some thisLine.

(** What each branch of the loop body leaves of a line. *)
Definition roundTop (align : jsstring) (thisLine : LineEl) : LineEl :=
  let thisLine :=
    if strictNe align (lit "left") then classList_add "corner-tl" thisLine
    else thisLine in
  if strictNe align (lit "right") then classList_add "corner-tr" thisLine
  else thisLine.

Definition roundBottom (align : jsstring) (lastLine : LineEl) : LineEl :=
  let lastLine :=
    if strictNe align (lit "left") then classList_add "corner-bl" lastLine
    else lastLine in
  if strictNe align (lit "right") then classList_add "corner-br" lastLine
  else lastLine.

Definition connect (token : string) (width : Z) (el : LineEl) : LineEl :=
  set_styleWidth width (classList_add token el).

(** A line without its text and scale: what is left is all the pass reads. *)
Definition withoutText (el : LineEl) : LineEl :=
  {| textContent := []; fontScale := NaN;
     classList := classList el; styleWidth := styleWidth el;
     fitWidth := fitWidth el; borderRadius := borderRadius el |}.

(** A line before and after some turns: text, scale and layout are the
    same, and no class is lost. *)
Definition keeps (before after : LineEl) : Prop :=
  textContent after = textContent before /\
  fontScale after = fontScale before /\
  fitWidth after = fitWidth before /\
  borderRadius after = borderRadius before /\
  (forall token, token ∈ classList before -> token ∈ classList after).

(** ** Lemmas on elements *)

Lemma hasClass_add (token token' : string) (el : LineEl) :
  hasClass token (classList_add token' el)
  = bool_decide (token = token') || hasClass token el.
Proof.
  unfold hasClass, classList_add; simpl.
  destruct (decide (token = token')) as [->|Hne].
  - rewrite (bool_decide_eq_true_2 (token' = token')) by done. simpl.
    destruct (bool_decide (token' ∈ classList el)) eqn:Him; [done|].
    apply bool_decide_eq_true_2.
    rewrite elem_of_app, list_elem_of_singleton. by right.
  - rewrite (bool_decide_eq_false_2 (token = token')) by done. simpl.
    destruct (bool_decide (token' ∈ classList el)) eqn:Him; [done|].
    apply bool_decide_ext.
    rewrite elem_of_app, list_elem_of_singleton. tauto.
Qed.

Lemma hasClass_set_styleWidth (token : string) (w : Z) (el : LineEl) :
  hasClass token (set_styleWidth w el) = hasClass token el.
Proof. reflexivity. Qed.

Lemma narrowerTest_caseA boxWidth align lastLine thisLine :
  narrowerTest boxWidth align lastLine thisLine = true
  <-> caseA boxWidth align lastLine thisLine.
Proof.
  unfold narrowerTest, caseA, Qge_bool, tolerance, specTolerance, strictEq.
  rewrite Qle_bool_iff.
  destruct (bool_decide (align = lit "center")); split; intros H; lra.
Qed.

Lemma widerTest_caseB boxWidth align lastLine thisLine :
  widerTest boxWidth align lastLine thisLine = true
  <-> caseB boxWidth align lastLine thisLine.
Proof.
  unfold widerTest, caseB, tolerance, specTolerance, strictEq.
  rewrite Qle_bool_iff.
  destruct (bool_decide (align = lit "center")); split; intros H; lra.
Qed.

Lemma narrowerTest_false boxWidth align lastLine thisLine :
  narrowerTest boxWidth align lastLine thisLine = false
  <-> ~ caseA boxWidth align lastLine thisLine.
Proof.
  rewrite <- narrowerTest_caseA.
  destruct (narrowerTest boxWidth align lastLine thisLine); split; congruence.
Qed.

Lemma widerTest_false boxWidth align lastLine thisLine :
  widerTest boxWidth align lastLine thisLine = false
  <-> ~ caseB boxWidth align lastLine thisLine.
Proof.
  rewrite <- widerTest_caseB.
  destruct (widerTest boxWidth align lastLine thisLine); split; congruence.
Qed.

(** ** Lemmas on the loop *)

Section Loop.

Variable boxWidth : Z -> Z.
Variable align : jsstring.

Lemma iteration_length (lines : list LineEl) (i : nat) :
  length (iteration boxWidth align lines i) = length lines.
Proof.
  unfold iteration.
  destruct (lines !! i) as [thisLine|]; [|done].
  destruct (previousElementSibling lines i) as [lastLine|]; [|done].
  destruct (detectPair boxWidth align lastLine thisLine).
  by rewrite !length_insert.
Qed.

Lemma turns_S (n : nat) (lines : list LineEl) :
  turns boxWidth align (S n) lines
  = iteration boxWidth align (turns boxWidth align n lines) n.
Proof. unfold turns. by rewrite seq_S, fold_left_app. Qed.

Lemma turns_length (n : nat) (lines : list LineEl) :
  length (turns boxWidth align n lines) = length lines.
Proof.
  induction n as [|n IH]; [done|].
  by rewrite turns_S, iteration_length.
Qed.

(** Turn [i] writes to the lines [i - 1] and [i] only. *)
Lemma iteration_lookup_other (lines : list LineEl) (i k : nat) :
  k <> i -> S k <> i ->
  iteration boxWidth align lines i !! k = lines !! k.
Proof.
  intros Hk HSk. unfold iteration.
  destruct (lines !! i) as [thisLine|]; [|done].
  destruct i as [|j]; simpl; [done|].
  destruct (lines !! j) as [lastLine|]; [|done].
  destruct (detectPair boxWidth align lastLine thisLine).
  rewrite !list_lookup_insert_ne by lia. done.
Qed.

(** Turn [i + 1] on the pair it finds. *)
Lemma iteration_pair (lines : list LineEl) (i : nat) (lastLine thisLine : LineEl) :
  lines !! i = Some lastLine -> lines !! S i = Some thisLine ->
  iteration boxWidth align lines (S i) !! i
    = Some (fst (detectPair boxWidth align lastLine thisLine)) /\
  iteration boxWidth align lines (S i) !! S i
    = Some (snd (detectPair boxWidth align lastLine thisLine)).
Proof.
  intros Hl Ht. unfold iteration. rewrite Ht. simpl. rewrite Hl.
  destruct (detectPair boxWidth align lastLine thisLine) as [l' t']. simpl.
  apply lookup_lt_Some in Hl as Hli. apply lookup_lt_Some in Ht as Hti.
  split.
  - rewrite list_lookup_insert_ne by lia.
    by rewrite list_lookup_insert_eq by lia.
  - by rewrite list_lookup_insert_eq by (rewrite length_insert; lia).
Qed.

(** The first turn finds no previous sibling. *)
Lemma iteration_0 (lines : list LineEl) :
  iteration boxWidth align lines 0 = lines.
Proof. unfold iteration. by destruct (lines !! 0). Qed.

(** A turn past the last line does not happen. *)
Lemma iteration_beyond (lines : list LineEl) (i : nat) :
  length lines <= i -> iteration boxWidth align lines i = lines.
Proof.
  intros H. unfold iteration. by rewrite (lookup_ge_None_2 lines i) by lia.
Qed.

(** The lines the loop has not reached yet are as they were. *)
Lemma turns_lookup_ge (n k : nat) (lines : list LineEl) :
  n <= k -> turns boxWidth align n lines !! k = lines !! k.
Proof.
  induction n as [|n IH]; intros Hk; [done|].
  rewrite turns_S, iteration_lookup_other by lia. apply IH. lia.
Qed.

(** Line [k] is final once the turns [k] and [k + 1] are over. *)
Lemma turns_lookup_stable (n k : nat) (lines : list LineEl) :
  S (S k) <= n ->
  turns boxWidth align n lines !! k = turns boxWidth align (S (S k)) lines !! k.
Proof.
  induction n as [|n IH]; intros Hk; [lia|].
  destruct (decide (n = S k)) as [->|Hne]; [done|].
  rewrite turns_S, iteration_lookup_other by lia. apply IH. lia.
Qed.

Lemma turns_beyond (n : nat) (lines : list LineEl) :
  length lines <= n ->
  turns boxWidth align n lines = turns boxWidth align (length lines) lines.
Proof.
  induction n as [|n IH]; intros Hn.
  - by replace (length lines) with 0 by lia.
  - destruct (decide (length lines = S n)) as [->|Hne]; [done|].
    rewrite turns_S, iteration_beyond by (rewrite turns_length; lia).
    apply IH. lia.
Qed.

Lemma applyCornerDetection_lookup (lines : list LineEl) (k : nat) :
  applyCornerDetection boxWidth align lines !! k
  = turns boxWidth align (S (S k)) lines !! k.
Proof.
  unfold applyCornerDetection.
  destruct (decide (S (S k) <= length lines)) as [Hle|Hgt].
  - by apply turns_lookup_stable.
  - by rewrite (turns_beyond (S (S k))) by lia.
Qed.

Lemma applyCornerDetection_length (lines : list LineEl) :
  length (applyCornerDetection boxWidth align lines) = length lines.
Proof. apply turns_length. Qed.

(** The pair the loop reaches: the second line is still as it came in. *)
Lemma reaches_thisLine (lines : list LineEl) (i : nat) (lastLine thisLine : LineEl) :
  reaches boxWidth align lines i lastLine thisLine ->
  lines !! S i = Some thisLine.
Proof. intros [_ H]. by rewrite turns_lookup_ge in H by lia. Qed.

(** The pair after its turn. *)
Lemma reaches_turn (lines : list LineEl) (i : nat) (lastLine thisLine : LineEl) :
  reaches boxWidth align lines i lastLine thisLine ->
  turns boxWidth align (S (S i)) lines !! i
    = Some (fst (detectPair boxWidth align lastLine thisLine)) /\
  turns boxWidth align (S (S i)) lines !! S i
    = Some (snd (detectPair boxWidth align lastLine thisLine)).
Proof. intros [Hl Ht]. rewrite (turns_S (S i)). by apply iteration_pair. Qed.

(** Every adjacent pair of the input is reached. *)
Lemma reaches_exists (lines : list LineEl) (i : nat) (thisLine : LineEl) :
  lines !! S i = Some thisLine ->
  exists lastLine, reaches boxWidth align lines i lastLine thisLine.
Proof.
  intros Ht. apply lookup_lt_Some in Ht as Hlt.
  destruct (lookup_lt_is_Some_2 (turns boxWidth align (S i) lines) i)
    as [lastLine Hl]; [rewrite turns_length; lia|].
  exists lastLine. split; [done|]. by rewrite turns_lookup_ge by lia.
Qed.

End Loop.

(** ** Lemmas on the loop body *)

Section Pair.

Variable boxWidth : Z -> Z.
Variable align : jsstring.

Lemma detectPair_scenario (lastLine thisLine : LineEl) :
  detectPair boxWidth align lastLine thisLine
  = match scenario boxWidth align lastLine thisLine with
    | Narrower => (lastLine, roundTop align thisLine)
    | Wider => (roundBottom align lastLine, thisLine)
    | Similar =>
        let width :=
          Z.max (offsetWidth boxWidth lastLine) (offsetWidth boxWidth thisLine) in
        (connect "connect-b" width lastLine, connect "connect-t" width thisLine)
    end.
Proof.
  unfold detectPair, scenario.
  destruct (narrowerTest boxWidth align lastLine thisLine); [done|].
  by destruct (widerTest boxWidth align lastLine thisLine).
Qed.


Lemma scenario_caseB (lastLine thisLine : LineEl) :
  ~ caseA boxWidth align lastLine thisLine ->
  caseB boxWidth align lastLine thisLine ->
  scenario boxWidth align lastLine thisLine = Wider.
Proof.
  intros HA HB. apply narrowerTest_false in HA. apply widerTest_caseB in HB.
  unfold scenario. by rewrite HA, HB.
Qed.


(** The flags of a line after each branch. *)
Lemma decoration_roundTop (el : LineEl) :
  decoration (roundTop align el)
  = {| roundTopLeft := strictNe align (lit "left") || roundTopLeft (decoration el);
       roundTopRight := strictNe align (lit "right") || roundTopRight (decoration el);
       roundBottomLeft := roundBottomLeft (decoration el);
       roundBottomRight := roundBottomRight (decoration el);
       forcedWidth := forcedWidth (decoration el) |}.
Proof.
  unfold roundTop, decoration.
  destruct (strictNe align (lit "left")), (strictNe align (lit "right"));
    rewrite ?hasClass_add; reflexivity.
Qed.

Lemma decoration_roundBottom (el : LineEl) :
  decoration (roundBottom align el)
  = {| roundTopLeft := roundTopLeft (decoration el);
       roundTopRight := roundTopRight (decoration el);
       roundBottomLeft := strictNe align (lit "left") || roundBottomLeft (decoration el);
       roundBottomRight := strictNe align (lit "right") || roundBottomRight (decoration el);
       forcedWidth := forcedWidth (decoration el) |}.
Proof.
  unfold roundBottom, decoration.
  destruct (strictNe align (lit "left")), (strictNe align (lit "right"));
    rewrite ?hasClass_add; reflexivity.
Qed.

Lemma decoration_connect (token : string) (width : Z) (el : LineEl) :
  token = "connect-b"%string \/ token = "connect-t"%string ->
  decoration (connect token width el)
  = {| roundTopLeft := roundTopLeft (decoration el);
       roundTopRight := roundTopRight (decoration el);
       roundBottomLeft := roundBottomLeft (decoration el);
       roundBottomRight := roundBottomRight (decoration el);
       forcedWidth := Some width |}.
Proof.
  intros [-> | ->]; unfold connect, decoration;
    rewrite !hasClass_set_styleWidth, !hasClass_add; reflexivity.
Qed.

Lemma decoration_fresh (el : LineEl) : fresh el -> decoration el = noDecoration.
Proof.
  intros [Hc Hw]. unfold decoration, hasClass. rewrite Hc, Hw. reflexivity.
Qed.

(** The loop body leaves the top flags of the upper line and the bottom
    flags of the lower line as they are. *)
Lemma detectPair_fst_top (lastLine thisLine : LineEl) :
  roundTopLeft (decoration (fst (detectPair boxWidth align lastLine thisLine)))
    = roundTopLeft (decoration lastLine) /\
  roundTopRight (decoration (fst (detectPair boxWidth align lastLine thisLine)))
    = roundTopRight (decoration lastLine).
Proof.
  rewrite detectPair_scenario.
  destruct (scenario boxWidth align lastLine thisLine); cbn [fst snd].
  - done.
  - by rewrite decoration_roundBottom.
  - by rewrite decoration_connect by auto.
Qed.

Lemma detectPair_snd_bottom (lastLine thisLine : LineEl) :
  roundBottomLeft (decoration (snd (detectPair boxWidth align lastLine thisLine)))
    = roundBottomLeft (decoration thisLine) /\
  roundBottomRight (decoration (snd (detectPair boxWidth align lastLine thisLine)))
    = roundBottomRight (decoration thisLine).
Proof.
  rewrite detectPair_scenario.
  destruct (scenario boxWidth align lastLine thisLine); cbn [fst snd].
  - by rewrite decoration_roundTop.
  - done.
  - by rewrite decoration_connect by auto.
Qed.

(** The turn after a line's own leaves its top flags alone. *)
Lemma iteration_next_top (lines : list LineEl) (k : nat) (el : LineEl) :
  lines !! k = Some el ->
  exists el', iteration boxWidth align lines (S k) !! k = Some el' /\
    roundTopLeft (decoration el') = roundTopLeft (decoration el) /\
    roundTopRight (decoration el') = roundTopRight (decoration el).
Proof.
  intros Hk. destruct (lines !! S k) as [next|] eqn:Hn.
  - destruct (iteration_pair boxWidth align lines k el next Hk Hn) as [H _].
    eexists. split; [exact H|]. apply detectPair_fst_top.
  - exists el. split; [|done].
    unfold iteration. by rewrite Hn.
Qed.

(** When the loop reaches a pair of a fresh sequence, the upper line has no
    bottom flag yet, and the lower line is fresh. *)
Lemma reaches_fresh (lines : list LineEl) (i : nat) (lastLine thisLine : LineEl) :
  Forall fresh lines ->
  reaches boxWidth align lines i lastLine thisLine ->
  fresh thisLine /\
  roundBottomLeft (decoration lastLine) = false /\
  roundBottomRight (decoration lastLine) = false.
Proof.
  intros Hfresh Hr.
  pose proof (reaches_thisLine _ _ _ _ _ _ Hr) as Ht.
  split; [by eapply Forall_lookup_1|].
  destruct Hr as [Hl _].
  destruct i as [|j].
  - rewrite turns_S in Hl. simpl in Hl. rewrite iteration_0 in Hl.
    unfold turns in Hl. simpl in Hl.
    assert (fresh lastLine) as Hf by by eapply Forall_lookup_1.
    by rewrite (decoration_fresh _ Hf).
  - apply lookup_lt_Some in Ht as Hlen.
    destruct (lookup_lt_is_Some_2 lines (S j)) as [orig Ho]; [lia|].
    destruct (reaches_exists boxWidth align lines j orig Ho) as [lastj Hrj].
    destruct (reaches_turn _ _ _ _ _ _ Hrj) as [_ Hs].
    rewrite Hs in Hl. injection Hl as <-.
    destruct (detectPair_snd_bottom lastj orig) as [-> ->].
    assert (fresh orig) as Hf by by eapply Forall_lookup_1.
    by rewrite (decoration_fresh _ Hf).
Qed.

End Pair.

(** ** The loop, for a given body *)

Section LoopBody.

(** What the body of the loop makes of the pair it finds. *)
Variable body : LineEl -> LineEl -> LineEl * LineEl.

(** One turn of [for (let i = 0; i < lines.length; i++)]. *)
Definition iterationWith (lines : list LineEl) (i : nat) : list LineEl :=
  match lines !! i with
  | None => lines
  | Some thisLine =>
      match previousElementSibling lines i with
      | None => lines
      | Some lastLine =>
          let '(lastLine', thisLine') := body lastLine thisLine in
          <[i := thisLine']> (<[Nat.pred i := lastLine']> lines)
      end
  end.

Definition turnsWith (n : nat) (lines : list LineEl) : list LineEl :=
  fold_left iterationWith (seq 0 n) lines.

Definition passWith (lines : list LineEl) : list LineEl :=
  turnsWith (length lines) lines.

Lemma iterationWith_length (lines : list LineEl) (i : nat) :
  length (iterationWith lines i) = length lines.
Proof.
  unfold iterationWith.
  destruct (lines !! i) as [thisLine|]; [|done].
  destruct (previousElementSibling lines i) as [lastLine|]; [|done].
  destruct (body lastLine thisLine).
  by rewrite !length_insert.
Qed.

Lemma turnsWith_S (n : nat) (lines : list LineEl) :
  turnsWith (S n) lines = iterationWith (turnsWith n lines) n.
Proof. unfold turnsWith. by rewrite seq_S, fold_left_app. Qed.

Lemma turnsWith_length (n : nat) (lines : list LineEl) :
  length (turnsWith n lines) = length lines.
Proof.
  induction n as [|n IH]; [done|].
  by rewrite turnsWith_S, iterationWith_length.
Qed.

Lemma iterationWith_lookup_other (lines : list LineEl) (i k : nat) :
  k <> i -> S k <> i -> iterationWith lines i !! k = lines !! k.
Proof.
  intros Hk HSk. unfold iterationWith.
  destruct (lines !! i) as [thisLine|]; [|done].
  destruct i as [|j]; simpl; [done|].
  destruct (lines !! j) as [lastLine|]; [|done].
  destruct (body lastLine thisLine).
  rewrite !list_lookup_insert_ne by lia. done.
Qed.

Lemma iterationWith_pair (lines : list LineEl) (i : nat)
    (lastLine thisLine : LineEl) :
  lines !! i = Some lastLine -> lines !! S i = Some thisLine ->
  iterationWith lines (S i) !! i = Some (fst (body lastLine thisLine)) /\
  iterationWith lines (S i) !! S i = Some (snd (body lastLine thisLine)).
Proof.
  intros Hl Ht. unfold iterationWith. rewrite Ht. simpl. rewrite Hl.
  destruct (body lastLine thisLine) as [l' t']. simpl.
  apply lookup_lt_Some in Hl as Hli. apply lookup_lt_Some in Ht as Hti.
  split.
  - rewrite list_lookup_insert_ne by lia.
    by rewrite list_lookup_insert_eq by lia.
  - by rewrite list_lookup_insert_eq by (rewrite length_insert; lia).
Qed.

Lemma iterationWith_0 (lines : list LineEl) : iterationWith lines 0 = lines.
Proof. unfold iterationWith. by destruct (lines !! 0). Qed.

Lemma iterationWith_beyond (lines : list LineEl) (i : nat) :
  length lines <= i -> iterationWith lines i = lines.
Proof.
  intros H. unfold iterationWith. by rewrite (lookup_ge_None_2 lines i) by lia.
Qed.

Lemma turnsWith_lookup_ge (n k : nat) (lines : list LineEl) :
  n <= k -> turnsWith n lines !! k = lines !! k.
Proof.
  induction n as [|n IH]; intros Hk; [done|].
  rewrite turnsWith_S, iterationWith_lookup_other by lia. apply IH. lia.
Qed.

Lemma turnsWith_lookup_stable (n k : nat) (lines : list LineEl) :
  S (S k) <= n -> turnsWith n lines !! k = turnsWith (S (S k)) lines !! k.
Proof.
  induction n as [|n IH]; intros Hk; [lia|].
  destruct (decide (n = S k)) as [->|Hne]; [done|].
  rewrite turnsWith_S, iterationWith_lookup_other by lia. apply IH. lia.
Qed.

Lemma turnsWith_beyond (n : nat) (lines : list LineEl) :
  length lines <= n -> turnsWith n lines = turnsWith (length lines) lines.
Proof.
  induction n as [|n IH]; intros Hn.
  - by replace (length lines) with 0 by lia.
  - destruct (decide (length lines = S n)) as [->|Hne]; [done|].
    rewrite turnsWith_S, iterationWith_beyond by (rewrite turnsWith_length; lia).
    apply IH. lia.
Qed.

(** Line [k] is final once the turns [k] and [k + 1] are over. *)
Lemma passWith_lookup (lines : list LineEl) (k : nat) :
  passWith lines !! k = turnsWith (S (S k)) lines !! k.
Proof.
  unfold passWith.
  destruct (decide (S (S k) <= length lines)) as [Hle|Hgt].
  - by apply turnsWith_lookup_stable.
  - by rewrite (turnsWith_beyond (S (S k))) by lia.
Qed.

(** When the body does not look at the text and the scale of the lines,
    neither does the pass. *)
Lemma passWith_withoutText (lines : list LineEl) :
  (forall lastLine thisLine,
     body (withoutText lastLine) (withoutText thisLine)
     = (withoutText (fst (body lastLine thisLine)),
        withoutText (snd (body lastLine thisLine)))) ->
  passWith (withoutText <$> lines) = withoutText <$> passWith lines.
Proof.
  intros Hbody.
  assert (forall lines i,
            iterationWith (withoutText <$> lines) i
            = withoutText <$> iterationWith lines i) as Hturn.
  { clear lines. intros lines i. unfold iterationWith.
    rewrite list_lookup_fmap.
    destruct (lines !! i) as [thisLine|]; simpl; [|done].
    destruct i as [|j]; simpl; [done|].
    rewrite list_lookup_fmap.
    destruct (lines !! j) as [lastLine|]; simpl; [|done].
    rewrite Hbody.
    destruct (body lastLine thisLine) as [l' t']. simpl.
    by rewrite !list_fmap_insert. }
  unfold passWith. rewrite length_fmap.
  induction (length lines) as [|n IH]; [done|].
  by rewrite !turnsWith_S, IH, Hturn.
Qed.

(** The pass over two lines is the body on that pair. *)
Lemma passWith_pair (lastLine thisLine : LineEl) :
  passWith [lastLine; thisLine]
  = [fst (body lastLine thisLine); snd (body lastLine thisLine)].
Proof.
  unfold passWith, turnsWith, iterationWith. simpl.
  by destruct (body lastLine thisLine).
Qed.

End LoopBody.

(** The pass of the section on corner detection is this loop, with its
    body. *)
Lemma applyCornerDetection_passWith (boxWidth : Z -> Z) (align : jsstring)
    (lines : list LineEl) :
  applyCornerDetection boxWidth align lines
  = passWith (detectPair boxWidth align) lines.
Proof. reflexivity. Qed.

(** ** The width tests as the engine evaluates them *)

(** The loop body computes [lastLine.offsetWidth - lastTolerance] and the
    three other sides of its two tests in binary64: each sum, difference and
    product is the exact one rounded to the nearest Number.  [narrowerTest]
    and [widerTest] above compare the exact sums; here are the tests, the
    body and the pass with the rounding.  The two passes are the same loop
    and differ on the pairs that sit at the edge of a case, where rounding
    decides. *)
Module Binary64.

(** The Number nearest to a rational, ties to even. *)
Definition roundNumber (q : Q) : JSNum :=
  let q := Qred q in
  if (Qnum q <? 0)%Z then negate (nearestDouble (- Qnum q) (Zpos (Qden q)))
  else nearestDouble (Qnum q) (Zpos (Qden q)).

(** [x + y], [x - y], [x * y] and [x >= y], [x <= y] on Numbers. *)
Definition add (x y : JSNum) : JSNum :=
  match x, y with
  | NaN, _ | _, NaN => NaN
  | Infinity, NegInfinity | NegInfinity, Infinity => NaN
  | Infinity, _ | _, Infinity => Infinity
  | NegInfinity, _ | _, NegInfinity => NegInfinity
  | Num a, Num b => roundNumber (a + b)
  end.

Definition sub (x y : JSNum) : JSNum := add x (negate y).

Definition mul (x y : JSNum) : JSNum :=
  match x, y with
  | NaN, _ | _, NaN => NaN
  | Num a, Num b => roundNumber (a * b)
  | Num a, Infinity | Infinity, Num a =>
      if Qeq_bool a 0 then NaN
      else if Qle_bool 0 a then Infinity else NegInfinity
  | Num a, NegInfinity | NegInfinity, Num a =>
      if Qeq_bool a 0 then NaN
      else if Qle_bool 0 a then NegInfinity else Infinity
  | Infinity, Infinity | NegInfinity, NegInfinity => Infinity
  | Infinity, NegInfinity | NegInfinity, Infinity => NegInfinity
  end.

Definition geq (x y : JSNum) : bool :=
  match x, y with
  | NaN, _ | _, NaN => false
  | Infinity, _ | _, NegInfinity => true
  | NegInfinity, _ | _, Infinity => false
  | Num a, Num b => Qle_bool b a
  end.

Definition leq (x y : JSNum) : bool := geq y x.

(** [parseFloat(style.getPropertyValue("--border-radius")) *
    parseFloat(style.fontSize)], from the two computed values. *)
Definition thisBorderRadius (borderRadiusProperty fontSize : jsstring)
  : JSNum :=
  mul (parseFloat (Some borderRadiusProperty)) (parseFloat (Some fontSize)).

(** [align === "center" ? thisBorderRadius * 2 : thisBorderRadius]. *)
Definition tolerance (align : jsstring) (thisBorderRadius : JSNum) : JSNum :=
  if strictEq align (lit "center") then mul thisBorderRadius (Num 2)
  else thisBorderRadius.

Section CornerDetection.

Variable boxWidth : Z -> Z.

(** An [offsetWidth] is an integer the Number type holds as it is. *)
Definition narrowerTest (align : jsstring) (lastLine thisLine : LineEl)
  : bool :=
  geq (sub (Num (inject_Z (offsetWidth boxWidth lastLine)))
           (tolerance align (Num (borderRadius lastLine))))
      (add (Num (inject_Z (offsetWidth boxWidth thisLine)))
           (tolerance align (Num (borderRadius thisLine)))).

Definition widerTest (align : jsstring) (lastLine thisLine : LineEl) : bool :=
  leq (add (Num (inject_Z (offsetWidth boxWidth lastLine)))
           (tolerance align (Num (borderRadius lastLine))))
      (sub (Num (inject_Z (offsetWidth boxWidth thisLine)))
           (tolerance align (Num (borderRadius thisLine)))).

Definition detectPair (align : jsstring) (lastLine thisLine : LineEl)
  : LineEl * LineEl :=
  if narrowerTest align lastLine thisLine then
    let thisLine :=
      if strictNe align (lit "left") then classList_add "corner-tl" thisLine
      else thisLine in
    let thisLine :=
      if strictNe align (lit "right") then classList_add "corner-tr" thisLine
      else thisLine in
    (lastLine, thisLine)
  else if widerTest align lastLine thisLine then
    let lastLine :=
      if strictNe align (lit "left") then classList_add "corner-bl" lastLine
      else lastLine in
    let lastLine :=
      if strictNe align (lit "right") then classList_add "corner-br" lastLine
      else lastLine in
    (lastLine, thisLine)
  else
    let width :=
      Z.max (offsetWidth boxWidth lastLine) (offsetWidth boxWidth thisLine) in
    let lastLine := set_styleWidth width (classList_add "connect-b" lastLine) in
    let thisLine := set_styleWidth width (classList_add "connect-t" thisLine) in
    (lastLine, thisLine).

(** Which branch [detectPair] takes. *)
Definition scenario (align : jsstring) (lastLine thisLine : LineEl)
  : Scenario :=
  if narrowerTest align lastLine thisLine then Narrower
  else if widerTest align lastLine thisLine then Wider
  else Similar.

Definition iteration (align : jsstring) (lines : list LineEl) (i : nat)
  : list LineEl :=
  iterationWith (detectPair align) lines i.

Definition turns (align : jsstring) (n : nat) (lines : list LineEl)
  : list LineEl :=
  turnsWith (detectPair align) n lines.

Definition applyCornerDetection (align : jsstring) (lines : list LineEl)
  : list LineEl :=
  passWith (detectPair align) lines.

(** The loop is about to run turn [i + 1], on the pair [(i, i + 1)], and
    finds [lastLine] and [thisLine] there. *)
Definition reaches (align : jsstring) (lines : list LineEl) (i : nat)
    (lastLine thisLine : LineEl) : Prop :=
  turns align (S i) lines !! i = Some lastLine /\
  turns align (S i) lines !! S i = Some thisLine.

End CornerDetection.

(** A fresh line with a given width, whose radius comes from its computed
    style: the radius is a number for the styles of the examples. *)
Definition styledLine (width : Z) (borderRadiusProperty fontSize : string)
  : LineEl :=
  measuredLine width
    match thisBorderRadius (lit borderRadiusProperty) (lit fontSize) with
    | Num radius => radius
    | _ => 0
    end.

End Binary64.

(** *** Lemmas on the Numbers *)

Lemma roundNumber_Qeq (p q : Q) :
  p == q -> Binary64.roundNumber p = Binary64.roundNumber q.
Proof.
  intros H. unfold Binary64.roundNumber. by rewrite (Qred_complete _ _ H).
Qed.

Lemma nearestDouble_not_NaN (n d : Z) : nearestDouble n d <> NaN.
Proof.
  unfold nearestDouble.
  destruct (n =? 0)%Z; [discriminate|]. cbv zeta.
  repeat match goal with
         | |- (if ?b then _ else _) <> _ => destruct b
         end; discriminate.
Qed.

Lemma roundNumber_not_NaN (q : Q) : Binary64.roundNumber q <> NaN.
Proof.
  unfold Binary64.roundNumber. cbv zeta.
  destruct (Qnum (Qred q) <? 0)%Z; [|apply nearestDouble_not_NaN].
  pose proof (nearestDouble_not_NaN (- Qnum (Qred q)) (Z.pos (Qden (Qred q)))).
  by destruct (nearestDouble (- Qnum (Qred q)) (Z.pos (Qden (Qred q)))).
Qed.

Lemma geq_refl (x : JSNum) : x <> NaN -> Binary64.geq x x = true.
Proof.
  destruct x; try done. intros _. simpl. apply Qle_bool_iff. apply Qle_refl.
Qed.

(** A radius of zero gives a tolerance of zero, centered or not. *)
Lemma binary64_tolerance_zero (align : jsstring) (r : Q) :
  r == 0 ->
  exists t, Binary64.tolerance align (Num r) = Num t /\ t == 0.
Proof.
  intros Hr. unfold Binary64.tolerance.
  destruct (strictEq align (lit "center")).
  - exists 0%Q. split; [|reflexivity]. simpl.
    rewrite (roundNumber_Qeq (r * 2) 0) by (rewrite Hr; reflexivity).
    reflexivity.
  - by exists r.
Qed.

(** On two lines of the same width with radii of zero both tests hold. *)
Lemma binary64_tests_equal_widths (boxWidth : Z -> Z) (align : jsstring)
    (lastLine thisLine : LineEl) :
  offsetWidth boxWidth lastLine = offsetWidth boxWidth thisLine ->
  borderRadius lastLine == 0 -> borderRadius thisLine == 0 ->
  Binary64.narrowerTest boxWidth align lastLine thisLine = true /\
  Binary64.widerTest boxWidth align lastLine thisLine = true.
Proof.
  intros Hw Hl Ht.
  destruct (binary64_tolerance_zero align _ Hl) as (tl & El & Hl0).
  destruct (binary64_tolerance_zero align _ Ht) as (tt & Et & Ht0).
  unfold Binary64.narrowerTest, Binary64.widerTest, Binary64.leq.
  rewrite El, Et, Hw.
  set (w := inject_Z (offsetWidth boxWidth thisLine)).
  assert (forall t, t == 0 ->
            Binary64.sub (Num w) (Num t) = Binary64.roundNumber w) as Hsub.
  { intros t Ht'. simpl. apply roundNumber_Qeq.
    rewrite (Qred_correct (- t)), Ht'. ring. }
  assert (forall t, t == 0 ->
            Binary64.add (Num w) (Num t) = Binary64.roundNumber w) as Hadd.
  { intros t Ht'. simpl. apply roundNumber_Qeq. rewrite Ht'. ring. }
  rewrite !Hsub, !Hadd by done.
  split; apply geq_refl, roundNumber_not_NaN.
Qed.

(** *** Rounding keeps the order

    [nearestDouble n d] in steps: the binary exponent of [n / d], the
    quotient scaled by it and rounded to an integer of at most 53 bits, and
    the overflow test.  Scaling by [2^e] multiplies the denominator when [e]
    is positive and the numerator when it is negative. *)

Section Rounding.

Local Open Scope Z_scope.

Definition upScale (e : Z) : Z := 2 ^ Z.max 0 e.
Definition downScale (e : Z) : Z := 2 ^ Z.max 0 (- e).

Lemma upScale_pos e : 0 < upScale e.
Proof. unfold upScale. apply Z.pow_pos_nonneg; lia. Qed.
Lemma downScale_pos e : 0 < downScale e.
Proof. unfold downScale. apply Z.pow_pos_nonneg; lia. Qed.

Lemma num_scaled (e n : Z) :
  (if e <? 0 then n * 2 ^ (- e) else n) = n * downScale e.
Proof.
  unfold downScale. destruct (Z.ltb_spec e 0).
  - by rewrite Z.max_r by lia.
  - rewrite Z.max_l by lia. simpl. lia.
Qed.

Lemma den_scaled (e d : Z) :
  (if e <? 0 then d else d * 2 ^ e) = d * upScale e.
Proof.
  unfold upScale. destruct (Z.ltb_spec e 0).
  - rewrite Z.max_l by lia. simpl. lia.
  - by rewrite Z.max_r by lia.
Qed.

Lemma scale_shift (e e' : Z) :
  e <= e' -> downScale e * upScale e' = 2 ^ (e' - e) * (upScale e * downScale e').
Proof.
  intros H. unfold upScale, downScale.
  rewrite <- !Z.pow_add_r by lia. f_equal. lia.
Qed.

(** [a / b] rounded to the nearest integer, ties to the even one. *)
Definition roundHalfEven (a b : Z) : Z :=
  match 2 * (a mod b) ?= b with
  | Lt => a / b
  | Gt => a / b + 1
  | Eq => if Z.even (a / b) then a / b else a / b + 1
  end.

Definition exponentOf (n d : Z) : Z :=
  let e1 := Z.log2 n - Z.log2 d - 52 in
  if 2 ^ 52 * (d * upScale e1) <=? n * downScale e1 then e1 else e1 - 1.

Lemma nearestDouble_eq (n d : Z) :
  nearestDouble n d
  = if n =? 0 then Num 0 else
    let e := Z.max (exponentOf n d) (-1074) in
    let m' := roundHalfEven (n * downScale e) (d * upScale e) in
    if (971 <? e) || ((e =? 971) && (2 ^ 53 <=? m')) then Infinity
    else if e <? 0 then Num (Qred (m' # Z.to_pos (2 ^ (- e))))
         else Num (inject_Z (m' * 2 ^ e)).
Proof.
  unfold nearestDouble, exponentOf, roundHalfEven. cbv zeta beta.
  rewrite !num_scaled, !den_scaled. reflexivity.
Qed.

Lemma exponentOf_spec (n d : Z) :
  0 < n -> 0 < d ->
  2 ^ 52 * (d * upScale (exponentOf n d)) <= n * downScale (exponentOf n d)
  /\ n * downScale (exponentOf n d) < 2 ^ 53 * (d * upScale (exponentOf n d)).
Proof.
  intros Hn Hd.
  destruct (Z.log2_spec n Hn) as [Hn1 Hn2].
  destruct (Z.log2_spec d Hd) as [Hd1 Hd2].
  pose proof (Z.log2_nonneg n) as Ha. pose proof (Z.log2_nonneg d) as Hb.
  unfold exponentOf. cbv zeta.
  set (a := Z.log2 n) in *. set (b := Z.log2 d) in *.
  set (e1 := a - b - 52).
  pose proof (upScale_pos e1) as HU1. pose proof (downScale_pos e1) as HD1.
  pose proof (upScale_pos (e1 - 1)) as HU0.
  pose proof (downScale_pos (e1 - 1)) as HD0.
  assert (2 ^ Z.succ a * downScale e1 = 2 ^ 53 * (2 ^ b * upScale e1)) as E1.
  { unfold upScale, downScale. rewrite <- !Z.pow_add_r by lia. f_equal. lia. }
  assert (2 ^ 52 * (2 ^ Z.succ b * upScale (e1 - 1)) = 2 ^ a * downScale (e1 - 1))
    as E0.
  { unfold upScale, downScale. rewrite <- !Z.pow_add_r by lia. f_equal. lia. }
  assert (downScale (e1 - 1) * upScale e1 = 2 * (upScale (e1 - 1) * downScale e1))
    as Eshift.
  { rewrite (scale_shift (e1 - 1) e1) by lia.
    replace (e1 - (e1 - 1)) with 1 by lia. reflexivity. }
  destruct (Z.leb_spec (2 ^ 52 * (d * upScale e1)) (n * downScale e1)) as [Ht|Ht].
  - split; [exact Ht|].
    apply Z.lt_le_trans with (2 ^ Z.succ a * downScale e1); [nia|].
    rewrite E1. nia.
  - split.
    + apply Z.le_trans with (2 ^ a * downScale (e1 - 1)); [|nia].
      rewrite <- E0. nia.
    + apply Z.mul_lt_mono_pos_r with (upScale e1); [done|].
      replace (n * downScale (e1 - 1) * upScale e1)
        with (2 * upScale (e1 - 1) * (n * downScale e1)) by nia.
      nia.
Qed.

(** The exponent grows with the quotient. *)
Lemma exponentOf_mono (n1 d1 n2 d2 : Z) :
  0 < n1 -> 0 < d1 -> 0 < n2 -> 0 < d2 ->
  n1 * d2 <= n2 * d1 ->
  exponentOf n1 d1 <= exponentOf n2 d2.
Proof.
  intros Hn1 Hd1 Hn2 Hd2 Hle.
  destruct (exponentOf_spec n1 d1 Hn1 Hd1) as [L1 _].
  destruct (exponentOf_spec n2 d2 Hn2 Hd2) as [_ U2].
  set (x := exponentOf n1 d1) in *. set (y := exponentOf n2 d2) in *.
  destruct (Z.le_gt_cases x y) as [|Hgt]; [done|exfalso].
  pose proof (scale_shift y x ltac:(lia)) as Hs.
  assert (2 <= 2 ^ (x - y)) as Hp.
  { change 2 with (2 ^ 1) at 1. apply Z.pow_le_mono_r; lia. }
  pose proof (upScale_pos x). pose proof (downScale_pos x).
  pose proof (upScale_pos y). pose proof (downScale_pos y).
  (* 2^52 d1 Ux <= n1 Dx ; n2 Dy < 2^53 d2 Uy ; Dy Ux = 2^(x-y) Uy Dx >= 2 Uy Dx *)
  assert (2 ^ 52 * (d1 * upScale x) * (d2 * downScale y)
          <= n1 * downScale x * (d2 * downScale y)) as A1 by nia.
  assert (n1 * downScale x * (d2 * downScale y)
          <= n2 * downScale y * (d1 * downScale x)) as A2 by nia.
  assert (n2 * downScale y * (d1 * downScale x)
          < 2 ^ 53 * (d2 * upScale y) * (d1 * downScale x)) as A3.
  { apply Z.mul_lt_mono_pos_r; nia. }
  assert (2 ^ 52 * (d1 * d2) * (downScale y * upScale x)
          < 2 ^ 52 * (d1 * d2) * (2 * (upScale y * downScale x))) as A4.
  { change (2 ^ 53) with (2 ^ 52 * 2) in A3. nia. }
  apply Z.mul_lt_mono_pos_l in A4; [|nia].
  rewrite Hs in A4. nia.
Qed.

Lemma roundHalfEven_bounds (a b : Z) :
  a / b <= roundHalfEven a b <= a / b + 1.
Proof.
  unfold roundHalfEven.
  destruct (2 * (a mod b) ?= b); [destruct (Z.even (a / b))|..]; lia.
Qed.

Lemma roundHalfEven_mono (a1 b1 a2 b2 : Z) :
  0 < b1 -> 0 < b2 -> a1 * b2 <= a2 * b1 ->
  roundHalfEven a1 b1 <= roundHalfEven a2 b2.
Proof.
  intros Hb1 Hb2 Hle.
  pose proof (Z.div_mod a1 b1 ltac:(lia)) as E1.
  pose proof (Z.div_mod a2 b2 ltac:(lia)) as E2.
  pose proof (Z.mod_pos_bound a1 b1 Hb1) as R1.
  pose proof (Z.mod_pos_bound a2 b2 Hb2) as R2.
  assert (a1 / b1 <= a2 / b2) as Hfloor.
  { apply Z.div_le_lower_bound; [done|]. nia. }
  pose proof (roundHalfEven_bounds a1 b1) as B1.
  pose proof (roundHalfEven_bounds a2 b2) as B2.
  destruct (Z.eq_dec (a1 / b1) (a2 / b2)) as [Heq|Hne]; [|lia].
  unfold roundHalfEven in *. rewrite <- Heq in *.
  set (m := a1 / b1) in *. set (r1 := a1 mod b1) in *. set (r2 := a2 mod b2) in *.
  assert (r1 * b2 <= r2 * b1) as Hr by nia.
  destruct (Z.compare_spec (2 * r1) b1) as [C1|C1|C1];
    destruct (Z.compare_spec (2 * r2) b2) as [C2|C2|C2];
    try (destruct (Z.even m)); try lia; exfalso; nia.
Qed.

Definition binaryExponent (n d : Z) : Z := Z.max (exponentOf n d) (-1074).
Definition significand (n d : Z) : Z :=
  roundHalfEven (n * downScale (binaryExponent n d))
                (d * upScale (binaryExponent n d)).
Definition overflows (n d : Z) : bool :=
  (971 <? binaryExponent n d)
  || ((binaryExponent n d =? 971) && (2 ^ 53 <=? significand n d)).
Definition finiteValue (m e : Z) : Q :=
  (m * upScale e) # Z.to_pos (downScale e).

Lemma nearestDouble_cases (n d : Z) :
  n <> 0 ->
  nearestDouble n d
  = if overflows n d then Infinity
    else Num (if binaryExponent n d <? 0
              then Qred (significand n d # Z.to_pos (2 ^ (- binaryExponent n d)))
              else inject_Z (significand n d * 2 ^ binaryExponent n d)) .
Proof.
  intros Hn. rewrite nearestDouble_eq.
  apply Z.eqb_neq in Hn. rewrite Hn. cbv zeta.
  fold (binaryExponent n d). fold (significand n d). fold (overflows n d).
  destruct (overflows n d); [done|].
  by destruct (binaryExponent n d <? 0).
Qed.

Lemma finiteValue_eq (m e : Z) :
  (if e <? 0 then Qred (m # Z.to_pos (2 ^ (- e))) else inject_Z (m * 2 ^ e))
  == finiteValue m e.
Proof.
  unfold finiteValue, upScale, downScale.
  destruct (Z.ltb_spec e 0).
  - rewrite Qred_correct, Z.max_l, Z.max_r by lia. simpl (2 ^ 0). 
    by rewrite Z.mul_1_r.
  - rewrite Z.max_r, Z.max_l by lia. reflexivity.
Qed.

Lemma finiteValue_le (m1 e1 m2 e2 : Z) :
  (finiteValue m1 e1 <= finiteValue m2 e2)%Q
  <-> m1 * upScale e1 * downScale e2 <= m2 * upScale e2 * downScale e1.
Proof.
  unfold finiteValue, Qle. simpl.
  rewrite !Z2Pos.id by apply downScale_pos. reflexivity.
Qed.

Lemma scaled_below (n d : Z) :
  0 < n -> 0 < d ->
  n * downScale (binaryExponent n d) < 2 ^ 53 * (d * upScale (binaryExponent n d)).
Proof.
  intros Hn Hd.
  destruct (exponentOf_spec n d Hn Hd) as [_ U].
  unfold binaryExponent.
  set (x := exponentOf n d) in *. set (e := Z.max x (-1074)).
  pose proof (scale_shift x e ltac:(lia)) as Hs.
  assert (1 <= 2 ^ (e - x)) as Hp.
  { change 1 with (2 ^ 0) at 1. apply Z.pow_le_mono_r; lia. }
  pose proof (upScale_pos x). pose proof (downScale_pos x).
  pose proof (upScale_pos e). pose proof (downScale_pos e).
  apply Z.mul_lt_mono_pos_r with (upScale x); [done|].
  apply Z.le_lt_trans with (n * (downScale x * upScale e)); [rewrite Hs; nia|].
  nia.
Qed.

Lemma significand_le (n d : Z) :
  0 < n -> 0 < d -> 0 <= significand n d <= 2 ^ 53.
Proof.
  intros Hn Hd. pose proof (scaled_below n d Hn Hd) as Hb.
  unfold significand.
  set (e := binaryExponent n d) in *.
  pose proof (upScale_pos e). pose proof (downScale_pos e).
  pose proof (roundHalfEven_bounds (n * downScale e) (d * upScale e)) as B.
  assert (0 <= n * downScale e / (d * upScale e)) by (apply Z.div_pos; nia).
  assert (n * downScale e / (d * upScale e) < 2 ^ 53).
  { apply Z.div_lt_upper_bound; nia. }
  lia.
Qed.

Lemma significand_ge (n d : Z) :
  0 < n -> 0 < d -> -1074 <= exponentOf n d -> 2 ^ 52 <= significand n d.
Proof.
  intros Hn Hd Hnormal.
  destruct (exponentOf_spec n d Hn Hd) as [L _].
  unfold significand, binaryExponent. rewrite Z.max_l by lia.
  set (e := exponentOf n d) in *.
  pose proof (upScale_pos e). pose proof (downScale_pos e).
  pose proof (roundHalfEven_bounds (n * downScale e) (d * upScale e)) as B.
  assert (2 ^ 52 <= n * downScale e / (d * upScale e)).
  { apply Z.div_le_lower_bound; nia. }
  lia.
Qed.

Lemma binaryExponent_mono (n1 d1 n2 d2 : Z) :
  0 < n1 -> 0 < d1 -> 0 < n2 -> 0 < d2 -> n1 * d2 <= n2 * d1 ->
  binaryExponent n1 d1 <= binaryExponent n2 d2.
Proof.
  intros. unfold binaryExponent.
  pose proof (exponentOf_mono n1 d1 n2 d2). lia.
Qed.

(** Value and overflow grow with the rational. *)
Lemma significand_mono (n1 d1 n2 d2 : Z) :
  0 < n1 -> 0 < d1 -> 0 < n2 -> 0 < d2 -> n1 * d2 <= n2 * d1 ->
  significand n1 d1 * upScale (binaryExponent n1 d1) * downScale (binaryExponent n2 d2)
  <= significand n2 d2 * upScale (binaryExponent n2 d2) * downScale (binaryExponent n1 d1)
  /\ (binaryExponent n1 d1 = binaryExponent n2 d2 ->
      significand n1 d1 <= significand n2 d2).
Proof.
  intros Hn1 Hd1 Hn2 Hd2 Hle.
  pose proof (binaryExponent_mono _ _ _ _ Hn1 Hd1 Hn2 Hd2 Hle) as He.
  assert (binaryExponent n1 d1 = binaryExponent n2 d2 ->
          significand n1 d1 <= significand n2 d2) as Hsame.
  { intros Heq. unfold significand. rewrite Heq.
    set (e := binaryExponent n2 d2).
    pose proof (upScale_pos e). pose proof (downScale_pos e).
    apply roundHalfEven_mono; nia. }
  split; [|exact Hsame].
  destruct (Z.eq_dec (binaryExponent n1 d1) (binaryExponent n2 d2)) as [Heq|Hne].
  - specialize (Hsame Heq). rewrite Heq.
    pose proof (upScale_pos (binaryExponent n2 d2)).
    pose proof (downScale_pos (binaryExponent n2 d2)).
    apply Z.mul_le_mono_nonneg_r; [lia|].
    apply Z.mul_le_mono_nonneg_r; [lia|]. exact Hsame.
  - assert (-1074 <= exponentOf n2 d2) as Hnormal.
    { unfold binaryExponent in *. lia. }
    pose proof (significand_ge n2 d2 Hn2 Hd2 Hnormal) as G2.
    pose proof (significand_le n1 d1 Hn1 Hd1) as [_ L1].
    set (e1 := binaryExponent n1 d1) in *. set (e2 := binaryExponent n2 d2) in *.
    set (m1 := significand n1 d1) in *. set (m2 := significand n2 d2) in *.
    pose proof (scale_shift e1 e2 ltac:(lia)) as Hs.
    assert (2 <= 2 ^ (e2 - e1)) as Hp.
    { change 2 with (2 ^ 1) at 1. apply Z.pow_le_mono_r; lia. }
    pose proof (upScale_pos e1). pose proof (downScale_pos e1).
    pose proof (upScale_pos e2). pose proof (downScale_pos e2).
    apply Z.le_trans with (2 ^ 53 * (upScale e1 * downScale e2)); [nia|].
    apply Z.le_trans with (2 ^ 52 * (downScale e1 * upScale e2)); [|nia].
    rewrite Hs. change (2 ^ 53) with (2 ^ 52 * 2). nia.
Qed.

Lemma overflows_mono (n1 d1 n2 d2 : Z) :
  0 < n1 -> 0 < d1 -> 0 < n2 -> 0 < d2 -> n1 * d2 <= n2 * d1 ->
  overflows n1 d1 = true -> overflows n2 d2 = true.
Proof.
  intros Hn1 Hd1 Hn2 Hd2 Hle.
  pose proof (binaryExponent_mono _ _ _ _ Hn1 Hd1 Hn2 Hd2 Hle) as He.
  destruct (significand_mono _ _ _ _ Hn1 Hd1 Hn2 Hd2 Hle) as [_ Hsame].
  unfold overflows.
  rewrite !orb_true_iff, !andb_true_iff, !Z.ltb_lt, !Z.eqb_eq, !Z.leb_le.
  intros [H|[H1 H2]]; [left; lia|].
  destruct (Z.eq_dec (binaryExponent n2 d2) 971) as [E|E]; [|left; lia].
  right. split; [done|]. specialize (Hsame ltac:(lia)). lia.
Qed.

Lemma nearestDouble_mono (n1 d1 n2 d2 : Z) :
  0 <= n1 -> 0 < d1 -> 0 <= n2 -> 0 < d2 -> n1 * d2 <= n2 * d1 ->
  Binary64.geq (nearestDouble n2 d2) (nearestDouble n1 d1) = true.
Proof.
  intros Hn1 Hd1 Hn2 Hd2 Hle.
  destruct (Z.eq_dec n1 0) as [->|Hn1'].
  { (* the smaller one is zero *)
    destruct (Z.eq_dec n2 0) as [->|Hn2']; [reflexivity|].
    rewrite (nearestDouble_cases n2 d2 Hn2').
    change (nearestDouble 0 d1) with (Num 0).
    destruct (overflows n2 d2); [reflexivity|]. simpl.
    apply Qle_bool_iff. rewrite finiteValue_eq.
    change 0%Q with (finiteValue 0 0). apply finiteValue_le.
    pose proof (significand_le n2 d2 ltac:(lia) Hd2).
    pose proof (upScale_pos (binaryExponent n2 d2)).
    pose proof (downScale_pos 0). nia. }
  assert (n2 <> 0) as Hn2' by nia.
  rewrite (nearestDouble_cases n1 d1 Hn1'), (nearestDouble_cases n2 d2 Hn2').
  pose proof (overflows_mono n1 d1 n2 d2 ltac:(lia) Hd1 ltac:(lia) Hd2 Hle) as Ho.
  destruct (significand_mono n1 d1 n2 d2 ltac:(lia) Hd1 ltac:(lia) Hd2 Hle)
    as [Hv _].
  destruct (overflows n2 d2).
  - by destruct (overflows n1 d1).
  - destruct (overflows n1 d1); [by specialize (Ho eq_refl)|].
    simpl. apply Qle_bool_iff. rewrite !finiteValue_eq.
    by apply finiteValue_le.
Qed.

Lemma nearestDouble_nonneg (n d : Z) :
  0 <= n -> 0 < d -> Binary64.geq (nearestDouble n d) (Num 0) = true.
Proof.
  intros Hn Hd.
  change (Num 0) with (nearestDouble 0 1).
  apply nearestDouble_mono; lia.
Qed.

Lemma geq_negate (x y : JSNum) :
  Binary64.geq x y = true -> Binary64.geq (negate y) (negate x) = true.
Proof.
  destruct x as [| | |a], y as [| | |b]; simpl; try done.
  rewrite !Qle_bool_iff, !Qred_correct. lra.
Qed.

Lemma geq_negate_nonneg (x y : JSNum) :
  Binary64.geq x (Num 0) = true -> Binary64.geq y (Num 0) = true ->
  Binary64.geq x (negate y) = true.
Proof.
  destruct x as [| | |a], y as [| | |b]; simpl; try done.
  rewrite !Qle_bool_iff, !Qred_correct. lra.
Qed.

(** Rounding to the nearest Number keeps the order. *)
Lemma roundNumber_mono (p q : Q) :
  (p <= q)%Q ->
  Binary64.geq (Binary64.roundNumber q) (Binary64.roundNumber p) = true.
Proof.
  intros Hle.
  assert (Qnum (Qred p) * Z.pos (Qden (Qred q))
          <= Qnum (Qred q) * Z.pos (Qden (Qred p))) as Hz.
  { change (Qred p <= Qred q)%Q. by rewrite !Qred_correct. }
  unfold Binary64.roundNumber. cbv zeta.
  set (p' := Qred p) in *. set (q' := Qred q) in *.
  destruct (Z.ltb_spec (Qnum p') 0) as [Hp|Hp];
    destruct (Z.ltb_spec (Qnum q') 0) as [Hq|Hq].
  - apply geq_negate. apply nearestDouble_mono; lia.
  - apply geq_negate_nonneg; apply nearestDouble_nonneg; lia.
  - exfalso. nia.
  - apply nearestDouble_mono; lia.
Qed.

(** A rational [m * 2^k] with [m] below [2^53] and [k] from [-1074] to 970
    is a Number: rounding leaves it as it is. *)
Lemma nearestDouble_exact (n d m k : Z) :
  0 < n -> 0 < d -> 0 < m < 2 ^ 53 -> -1074 <= k <= 970 ->
  n * downScale k = m * upScale k * d ->
  exists q, nearestDouble n d = Num q /\ q == n # Z.to_pos d.
Proof.
  intros Hn Hd Hm Hk Hval.
  destruct (exponentOf_spec n d Hn Hd) as [L _].
  set (x := exponentOf n d) in *.
  pose proof (upScale_pos x). pose proof (downScale_pos x).
  pose proof (upScale_pos k). pose proof (downScale_pos k).
  assert (x <= k) as Hxk.
  { destruct (Z.le_gt_cases x k) as [|Hgt]; [done|exfalso].
    pose proof (scale_shift k x ltac:(lia)) as Hs.
    assert (2 <= 2 ^ (x - k)) as Hp.
    { change 2 with (2 ^ 1) at 1. apply Z.pow_le_mono_r; lia. }
    assert (2 ^ 52 * (d * upScale x) * downScale k
            <= n * downScale x * downScale k) as A1 by nia.
    assert (n * downScale x * downScale k = m * (upScale k * downScale x) * d)
      as A2 by nia.
    assert (2 ^ 52 * d * (downScale k * upScale x)
            = 2 ^ 52 * d * (2 ^ (x - k) * (upScale k * downScale x))) as A3
      by (by rewrite Hs).
    assert (0 < upScale k * downScale x) by nia.
    change (2 ^ 53) with (2 ^ 52 * 2) in Hm. nia. }
  set (e := binaryExponent n d).
  assert (e <= k /\ -1074 <= e) as [Hek He].
  { unfold e, binaryExponent. fold x. lia. }
  pose proof (upScale_pos e). pose proof (downScale_pos e).
  pose proof (scale_shift e k Hek) as Hs.
  assert (0 < 2 ^ (k - e)) as Hp by (apply Z.pow_pos_nonneg; lia).
  assert (n * downScale e = m * 2 ^ (k - e) * (d * upScale e)) as Hscaled.
  { apply Z.mul_cancel_r with (downScale k); [lia|].
    replace (n * downScale e * downScale k) with (n * downScale k * downScale e)
      by ring.
    rewrite Hval.
    replace (m * upScale k * d * downScale e)
      with (m * d * (downScale e * upScale k)) by ring.
    rewrite Hs. ring. }
  assert (significand n d = m * 2 ^ (k - e)) as Hsig.
  { unfold significand. fold e. rewrite Hscaled. unfold roundHalfEven.
    rewrite Z.mod_mul, Z.div_mul by nia.
    destruct (Z.compare_spec (2 * 0) (d * upScale e)); [nia|done|nia]. }
  assert (overflows n d = false) as Hover.
  { unfold overflows. fold e.
    destruct (Z.ltb_spec 971 e); [lia|].
    destruct (Z.eqb_spec e 971); [lia|]. reflexivity. }
  rewrite (nearestDouble_cases n d ltac:(lia)), Hover. fold e.
  eexists. split; [reflexivity|].
  rewrite finiteValue_eq, Hsig. unfold finiteValue, Qeq. simpl.
  rewrite !Z2Pos.id by lia. 
  replace (m * 2 ^ (k - e) * upScale e * d)
    with (m * 2 ^ (k - e) * (d * upScale e)) by ring.
  rewrite <- Hscaled. ring.
Qed.

Lemma roundNumber_exact (q : Q) (m k : Z) :
  0 <= m < 2 ^ 53 -> -1074 <= k <= 970 ->
  q == finiteValue m k \/ q == - finiteValue m k ->
  exists t, Binary64.roundNumber q = Num t /\ t == q.
Proof.
  intros Hm Hk Hq. unfold Binary64.roundNumber. cbv zeta.
  pose proof (Qred_correct q) as Hred.
  set (q' := Qred q) in *.
  pose proof (upScale_pos k). pose proof (downScale_pos k).
  assert (Qnum q' * downScale k = m * upScale k * Z.pos (Qden q') \/
          Qnum q' * downScale k = - (m * upScale k * Z.pos (Qden q'))) as Hnum.
  { destruct Hq as [Hq|Hq]; rewrite <- Hred in Hq;
      unfold Qeq, finiteValue in Hq; simpl in Hq;
      rewrite Z2Pos.id in Hq by done; [left|right]; lia. }
  destruct (Z.eq_dec m 0) as [->|Hm0].
  { assert (Qnum q' = 0) as E by nia. rewrite E. simpl.
    exists 0%Q. split; [reflexivity|]. rewrite <- Hred. unfold Qeq. simpl. lia. }
  destruct (Z.ltb_spec (Qnum q') 0) as [Hneg|Hpos].
  - destruct (nearestDouble_exact (- Qnum q') (Z.pos (Qden q')) m k)
      as (t & -> & Ht); [lia|lia|lia|lia|nia|].
    simpl. eexists. split; [reflexivity|].
    rewrite Qred_correct, Ht, <- Hred. unfold Qeq. simpl. lia.
  - destruct (nearestDouble_exact (Qnum q') (Z.pos (Qden q')) m k)
      as (t & -> & Ht); [nia|lia|lia|lia|nia|].
    exists t. split; [done|]. rewrite Ht, <- Hred. unfold Qeq. simpl. lia.
Qed.

Lemma Q_of_integer (w : Z) :
  inject_Z w == finiteValue (Z.abs w) 0 \/ inject_Z w == - finiteValue (Z.abs w) 0.
Proof.
  unfold finiteValue. change (upScale 0) with 1. change (downScale 0) with 1.
  unfold Qeq. simpl. lia.
Qed.

End Rounding.

(** *** The cases and the tests

    How Case A's and Case B's inequalities, which are about the exact sums,
    relate to the two tests the engine evaluates.  The tolerance the engine
    computes is the exact one unless the text is centered; centered, it is
    exact when the doubled radius is a Number, as it is for every radius the
    script can compute short of overflow. *)

Section Exact.

Local Open Scope Z_scope.

Definition exactTolerance (align : jsstring) (radius : Q) : Prop :=
  exists t, Binary64.tolerance align (Num radius) = Num t /\
            t == specTolerance align radius.

Lemma exactTolerance_not_centered (align : jsstring) (radius : Q) :
  align <> lit "center" -> exactTolerance align radius.
Proof.
  intros Hne. exists radius.
  unfold Binary64.tolerance, specTolerance, strictEq.
  rewrite !bool_decide_eq_false_2 by done. split; [done|]. ring.
Qed.

Lemma exactTolerance_centered (radius : Q) (m k : Z) :
  0 <= m < 2 ^ 53 -> -1074 <= k <= 969 ->
  radius == finiteValue m k \/ radius == - finiteValue m k ->
  exactTolerance (lit "center") radius.
Proof.
  intros Hm Hk Hr.
  destruct (roundNumber_exact (radius * 2) m (k + 1)) as (t & Et & Ht);
    [done|lia| |].
  { assert (finiteValue m (k + 1) == finiteValue m k * 2) as ->.
    { unfold finiteValue, Qeq, Qmult. cbn [Qnum Qden].
      pose proof (downScale_pos k). pose proof (downScale_pos (k + 1)).
      pose proof (upScale_pos k). pose proof (upScale_pos (k + 1)).
      rewrite Pos2Z.inj_mul, !Z2Pos.id by done.
      pose proof (scale_shift k (k + 1) ltac:(lia)) as Hs.
      replace (k + 1 - k)%Z with 1%Z in Hs by lia.
      change (2 ^ 1)%Z with 2%Z in Hs.
      replace (m * upScale (k + 1) * (downScale k * 1))%Z
        with (m * (downScale k * upScale (k + 1)))%Z by ring.
      rewrite Hs. ring. }
    destruct Hr as [->| ->]; [left|right]; ring. }
  exists t. split; [exact Et|]. rewrite Ht. reflexivity.
Qed.

(** The radius of a line set in 16 pixels with [--border-radius: 0.2] is
    such a Number. *)
Example exactTolerance_of_a_styled_line :
  exactTolerance (lit "center")
    (borderRadius (Binary64.styledLine 108 "0.2" "16px")).
Proof.
  apply (exactTolerance_centered _ 3602879701896397 (-50)); [lia|lia|].
  left. vm_compute. reflexivity.
Qed.

Section Bridge.
Variable boxWidth : Z -> Z.
Variable align : jsstring.
Variables lastLine thisLine : LineEl.
Hypothesis lastExact : exactTolerance align (borderRadius lastLine).
Hypothesis thisExact : exactTolerance align (borderRadius thisLine).

Lemma binary64_caseA :
  caseA boxWidth align lastLine thisLine ->
  Binary64.narrowerTest boxWidth align lastLine thisLine = true.
Proof.
  destruct lastExact as (tl & El & Hl), thisExact as (tt & Et & Ht).
  unfold caseA, Binary64.narrowerTest. rewrite El, Et. intros HA. simpl.
  apply roundNumber_mono. rewrite Qred_correct, Hl, Ht. lra.
Qed.

Lemma binary64_caseB :
  caseB boxWidth align lastLine thisLine ->
  Binary64.widerTest boxWidth align lastLine thisLine = true.
Proof.
  destruct lastExact as (tl & El & Hl), thisExact as (tt & Et & Ht).
  unfold caseB, Binary64.widerTest, Binary64.leq. rewrite El, Et. intros HB.
  simpl. apply roundNumber_mono. rewrite Qred_correct, Hl, Ht. lra.
Qed.

Lemma binary64_Similar_caseC :
  Binary64.scenario boxWidth align lastLine thisLine = Similar ->
  caseC boxWidth align lastLine thisLine.
Proof.
  unfold Binary64.scenario. intros Hs. split; intros H.
  - apply binary64_caseA in H. by rewrite H in Hs.
  - apply binary64_caseB in H. rewrite H in Hs.
    by destruct (Binary64.narrowerTest boxWidth align lastLine thisLine).
Qed.

Lemma geq_separated (x y : JSNum) (a b : Q) :
  Binary64.geq (Num a) x = true -> Binary64.geq y (Num b) = true ->
  (a < b)%Q -> Binary64.geq x y = false.
Proof.
  destruct x as [| | |p], y as [| | |q]; simpl; try done.
  rewrite !Qle_bool_iff. intros Hp Hq Hab.
  destruct (Qle_bool q p) eqn:E; [|done].
  apply Qle_bool_iff in E. lra.
Qed.

Lemma binary64_caseB_not_caseA :
  (0 <= borderRadius lastLine)%Q -> (0 <= borderRadius thisLine)%Q ->
  (Z.abs (offsetWidth boxWidth lastLine) < 2 ^ 53)%Z ->
  (Z.abs (offsetWidth boxWidth thisLine) < 2 ^ 53)%Z ->
  ~ caseA boxWidth align lastLine thisLine ->
  caseB boxWidth align lastLine thisLine ->
  Binary64.narrowerTest boxWidth align lastLine thisLine = false.
Proof.
  intros Hrl Hrt Hwl Hwt HA HB.
  destruct lastExact as (tl & El & Hl), thisExact as (tt & Et & Ht).
  assert (0 <= specTolerance align (borderRadius lastLine) /\
          0 <= specTolerance align (borderRadius thisLine))%Q as [Hsl Hst].
  { unfold specTolerance. destruct (bool_decide (align = lit "center")); lra. }
  assert (offsetWidth boxWidth lastLine < offsetWidth boxWidth thisLine)%Z as Hlt.
  { destruct (Z.lt_ge_cases (offsetWidth boxWidth lastLine)
                (offsetWidth boxWidth thisLine)) as [|Hge]; [done|exfalso].
    apply HA. unfold caseA, caseB in *. rewrite Zle_Qle in Hge. lra. }
  destruct (roundNumber_exact (inject_Z (offsetWidth boxWidth lastLine))
              (Z.abs (offsetWidth boxWidth lastLine)) 0)
    as (cl & Ecl & Hcl); [lia|lia|apply Q_of_integer|].
  destruct (roundNumber_exact (inject_Z (offsetWidth boxWidth thisLine))
              (Z.abs (offsetWidth boxWidth thisLine)) 0)
    as (ct & Ect & Hct); [lia|lia|apply Q_of_integer|].
  unfold Binary64.narrowerTest. rewrite El, Et. simpl.
  apply (geq_separated _ _ cl ct).
  - rewrite <- Ecl. apply roundNumber_mono. rewrite Qred_correct, Hl. lra.
  - rewrite <- Ect. apply roundNumber_mono. rewrite Ht. lra.
  - rewrite Hcl, Hct. by rewrite <- Zlt_Qlt.
Qed.

End Bridge.

End Exact.

(** *** Lemmas on the loop and its body *)

Section Binary64Loop.

Variable boxWidth : Z -> Z.
Variable align : jsstring.

Lemma binary64_detectPair_scenario (lastLine thisLine : LineEl) :
  Binary64.detectPair boxWidth align lastLine thisLine
  = match Binary64.scenario boxWidth align lastLine thisLine with
    | Narrower => (lastLine, roundTop align thisLine)
    | Wider => (roundBottom align lastLine, thisLine)
    | Similar =>
        let width :=
          Z.max (offsetWidth boxWidth lastLine) (offsetWidth boxWidth thisLine) in
        (connect "connect-b" width lastLine, connect "connect-t" width thisLine)
    end.
Proof.
  unfold Binary64.detectPair, Binary64.scenario.
  destruct (Binary64.narrowerTest boxWidth align lastLine thisLine); [done|].
  by destruct (Binary64.widerTest boxWidth align lastLine thisLine).
Qed.

Lemma binary64_scenario_Similar (lastLine thisLine : LineEl) :
  Binary64.narrowerTest boxWidth align lastLine thisLine = false ->
  Binary64.widerTest boxWidth align lastLine thisLine = false ->
  Binary64.scenario boxWidth align lastLine thisLine = Similar.
Proof. intros Hn Hw. unfold Binary64.scenario. by rewrite Hn, Hw. Qed.

Lemma binary64_pass_lookup (lines : list LineEl) (k : nat) :
  Binary64.applyCornerDetection boxWidth align lines !! k
  = Binary64.turns boxWidth align (S (S k)) lines !! k.
Proof. apply passWith_lookup. Qed.

(** The pair the loop reaches: the second line is still as it came in. *)
Lemma binary64_reaches_thisLine (lines : list LineEl) (i : nat)
    (lastLine thisLine : LineEl) :
  Binary64.reaches boxWidth align lines i lastLine thisLine ->
  lines !! S i = Some thisLine.
Proof.
  intros [_ H]. unfold Binary64.turns in H.
  by rewrite turnsWith_lookup_ge in H by lia.
Qed.

(** The pair after its turn. *)
Lemma binary64_reaches_turn (lines : list LineEl) (i : nat)
    (lastLine thisLine : LineEl) :
  Binary64.reaches boxWidth align lines i lastLine thisLine ->
  Binary64.turns boxWidth align (S (S i)) lines !! i
    = Some (fst (Binary64.detectPair boxWidth align lastLine thisLine)) /\
  Binary64.turns boxWidth align (S (S i)) lines !! S i
    = Some (snd (Binary64.detectPair boxWidth align lastLine thisLine)).
Proof.
  intros [Hl Ht]. unfold Binary64.turns. rewrite (turnsWith_S _ (S i)).
  by apply iterationWith_pair.
Qed.

(** The next pair: the lower line of this one as its turn left it, and the
    line after it as it came in. *)
Lemma binary64_reaches_next (lines : list LineEl) (i : nat)
    (lastLine thisLine nextLine : LineEl) :
  Binary64.reaches boxWidth align lines i lastLine thisLine ->
  lines !! S (S i) = Some nextLine ->
  Binary64.reaches boxWidth align lines (S i)
    (snd (Binary64.detectPair boxWidth align lastLine thisLine)) nextLine.
Proof.
  intros Hr Hn. split; [by apply binary64_reaches_turn|].
  unfold Binary64.turns. by rewrite turnsWith_lookup_ge by lia.
Qed.

(** Every adjacent pair of the input is reached. *)
Lemma binary64_reaches_exists (lines : list LineEl) (i : nat)
    (thisLine : LineEl) :
  lines !! S i = Some thisLine ->
  exists lastLine, Binary64.reaches boxWidth align lines i lastLine thisLine.
Proof.
  intros Ht. apply lookup_lt_Some in Ht as Hlt.
  destruct (lookup_lt_is_Some_2 (Binary64.turns boxWidth align (S i) lines) i)
    as [lastLine Hl].
  { unfold Binary64.turns. rewrite turnsWith_length. lia. }
  exists lastLine. split; [done|].
  unfold Binary64.turns. by rewrite turnsWith_lookup_ge by lia.
Qed.

Lemma styleWidth_roundTop (el : LineEl) :
  styleWidth (roundTop align el) = styleWidth el.
Proof.
  unfold roundTop.
  by destruct (strictNe align (lit "left")), (strictNe align (lit "right")).
Qed.

(** In a pass over fresh lines the lower line of the pair the loop reaches
    is fresh, and the upper line has an inline width only if the turn before
    welded it. *)
Lemma binary64_reaches_fresh (lines : list LineEl) (i : nat)
    (lastLine thisLine : LineEl) :
  Forall fresh lines ->
  Binary64.reaches boxWidth align lines i lastLine thisLine ->
  fresh thisLine /\
  (hasClass "connect-t" lastLine = false -> styleWidth lastLine = None) /\
  roundBottomLeft (decoration lastLine) = false /\
  roundBottomRight (decoration lastLine) = false.
Proof.
  intros Hfresh Hr.
  pose proof (binary64_reaches_thisLine _ _ _ _ Hr) as Ht.
  split; [by eapply Forall_lookup_1|].
  destruct Hr as [Hl _].
  destruct i as [|j].
  - unfold Binary64.turns in Hl.
    rewrite turnsWith_S, iterationWith_0 in Hl.
    assert (fresh lastLine) as Hf by by eapply Forall_lookup_1.
    rewrite (decoration_fresh _ Hf). by destruct Hf.
  - apply lookup_lt_Some in Ht as Hlen.
    destruct (lookup_lt_is_Some_2 lines (S j)) as [orig Ho]; [lia|].
    destruct (binary64_reaches_exists lines j orig Ho) as [lastj Hrj].
    destruct (binary64_reaches_turn _ _ _ _ Hrj) as [_ Hs].
    rewrite Hs in Hl. injection Hl as <-.
    assert (fresh orig) as Hf by by eapply Forall_lookup_1.
    pose proof (decoration_fresh _ Hf) as Hdec. destruct Hf as [_ Hw].
    rewrite binary64_detectPair_scenario.
    destruct (Binary64.scenario boxWidth align lastj orig); cbn [snd].
    + rewrite styleWidth_roundTop, decoration_roundTop, Hdec. done.
    + by rewrite Hdec.
    + rewrite decoration_connect, Hdec by auto. split; [|done].
      unfold connect. rewrite hasClass_set_styleWidth, hasClass_add.
      by rewrite bool_decide_eq_true_2.
Qed.


(** The loop body reads the widths and the radii, not the text or the
    scale. *)
Lemma binary64_detectPair_withoutText (lastLine thisLine : LineEl) :
  Binary64.detectPair boxWidth align (withoutText lastLine) (withoutText thisLine)
  = (withoutText (fst (Binary64.detectPair boxWidth align lastLine thisLine)),
     withoutText (snd (Binary64.detectPair boxWidth align lastLine thisLine))).
Proof.
  unfold Binary64.detectPair.
  change (Binary64.narrowerTest boxWidth align
            (withoutText lastLine) (withoutText thisLine))
    with (Binary64.narrowerTest boxWidth align lastLine thisLine).
  change (Binary64.widerTest boxWidth align
            (withoutText lastLine) (withoutText thisLine))
    with (Binary64.widerTest boxWidth align lastLine thisLine).
  destruct (Binary64.narrowerTest boxWidth align lastLine thisLine).
  { by destruct (strictNe align (lit "left")), (strictNe align (lit "right")). }
  destruct (Binary64.widerTest boxWidth align lastLine thisLine).
  { by destruct (strictNe align (lit "left")), (strictNe align (lit "right")). }
  reflexivity.
Qed.

Lemma binary64_pass_withoutText (lines : list LineEl) :
  Binary64.applyCornerDetection boxWidth align (withoutText <$> lines)
  = withoutText <$> Binary64.applyCornerDetection boxWidth align lines.
Proof.
  apply passWith_withoutText. apply binary64_detectPair_withoutText.
Qed.

End Binary64Loop.

(** ** The three cases *)

(** C1, as the code has it.  The loop body takes exactly one of its three
    branches, decided in order by its two tests as the engine evaluates
    them, on the widths the browser reports when the loop reaches the pair:
    the first branch when the first test holds, the second when it does not
    and the second test holds, the third when neither holds.  A pass over
    the two lines alone, and the turn of any pass that reaches them, leaves
    them as that branch does.  On two lines of equal width whose tolerances
    are both zero, Case A's and Case B's inequalities hold together, both
    tests succeed and the first branch runs: the lower line gets its top
    corners, nothing is welded; with radii that are not negative this is the
    only way for the two inequalities to hold together.  The tests follow
    the inequalities as far as rounding allows: where Case A's inequality
    holds the first branch runs; where Case B's holds and Case A's does not
    the second runs, for radii that are not negative and widths the Number
    type holds; and the third branch runs only on a pair in Case C. *)
Theorem scenario_exactly_one (boxWidth : Z -> Z) (align : jsstring)
    (lastLine thisLine : LineEl) :
  (Binary64.scenario boxWidth align lastLine thisLine = Narrower
   <-> Binary64.narrowerTest boxWidth align lastLine thisLine = true) /\
  (Binary64.scenario boxWidth align lastLine thisLine = Wider
   <-> Binary64.narrowerTest boxWidth align lastLine thisLine = false
       /\ Binary64.widerTest boxWidth align lastLine thisLine = true) /\
  (Binary64.scenario boxWidth align lastLine thisLine = Similar
   <-> Binary64.narrowerTest boxWidth align lastLine thisLine = false
       /\ Binary64.widerTest boxWidth align lastLine thisLine = false) /\
  Binary64.applyCornerDetection boxWidth align [lastLine; thisLine]
  = match Binary64.scenario boxWidth align lastLine thisLine with
    | Narrower => [lastLine; roundTop align thisLine]
    | Wider => [roundBottom align lastLine; thisLine]
    | Similar =>
        [connect "connect-b"
           (Z.max (offsetWidth boxWidth lastLine) (offsetWidth boxWidth thisLine))
           lastLine;
         connect "connect-t"
           (Z.max (offsetWidth boxWidth lastLine) (offsetWidth boxWidth thisLine))
           thisLine]
    end /\
  (forall lines i,
     Binary64.reaches boxWidth align lines i lastLine thisLine ->
     exists lastLine' thisLine',
       Binary64.applyCornerDetection boxWidth align lines !! i = Some lastLine' /\
       Binary64.turns boxWidth align (S (S i)) lines !! S i = Some thisLine' /\
       (lastLine', thisLine')
       = match Binary64.scenario boxWidth align lastLine thisLine with
         | Narrower => (lastLine, roundTop align thisLine)
         | Wider => (roundBottom align lastLine, thisLine)
         | Similar =>
             (connect "connect-b"
                (Z.max (offsetWidth boxWidth lastLine)
                       (offsetWidth boxWidth thisLine))
                lastLine,
              connect "connect-t"
                (Z.max (offsetWidth boxWidth lastLine)
                       (offsetWidth boxWidth thisLine))
                thisLine)
         end) /\
  (offsetWidth boxWidth lastLine = offsetWidth boxWidth thisLine ->
   specTolerance align (borderRadius lastLine) == 0 ->
   specTolerance align (borderRadius thisLine) == 0 ->
   caseA boxWidth align lastLine thisLine /\
   caseB boxWidth align lastLine thisLine /\
   Binary64.narrowerTest boxWidth align lastLine thisLine = true /\
   Binary64.widerTest boxWidth align lastLine thisLine = true /\
   Binary64.scenario boxWidth align lastLine thisLine = Narrower /\
   Binary64.applyCornerDetection boxWidth align [lastLine; thisLine]
   = [lastLine; roundTop align thisLine]) /\
  ((0 <= borderRadius lastLine)%Q -> (0 <= borderRadius thisLine)%Q ->
   caseA boxWidth align lastLine thisLine ->
   caseB boxWidth align lastLine thisLine ->
   offsetWidth boxWidth lastLine = offsetWidth boxWidth thisLine /\
   specTolerance align (borderRadius lastLine) == 0 /\
   specTolerance align (borderRadius thisLine) == 0) /\
  (exactTolerance align (borderRadius lastLine) ->
   exactTolerance align (borderRadius thisLine) ->
   (caseA boxWidth align lastLine thisLine ->
    Binary64.scenario boxWidth align lastLine thisLine = Narrower) /\
   (caseB boxWidth align lastLine thisLine ->
    Binary64.widerTest boxWidth align lastLine thisLine = true) /\
   ((0 <= borderRadius lastLine)%Q -> (0 <= borderRadius thisLine)%Q ->
    (Z.abs (offsetWidth boxWidth lastLine) < 2 ^ 53)%Z ->
    (Z.abs (offsetWidth boxWidth thisLine) < 2 ^ 53)%Z ->
    ~ caseA boxWidth align lastLine thisLine ->
    caseB boxWidth align lastLine thisLine ->
    Binary64.scenario boxWidth align lastLine thisLine = Wider) /\
   (Binary64.scenario boxWidth align lastLine thisLine = Similar ->
    caseC boxWidth align lastLine thisLine)).
Proof.
  assert (Binary64.applyCornerDetection boxWidth align [lastLine; thisLine]
          = match Binary64.scenario boxWidth align lastLine thisLine with
            | Narrower => [lastLine; roundTop align thisLine]
            | Wider => [roundBottom align lastLine; thisLine]
            | Similar =>
                [connect "connect-b"
                   (Z.max (offsetWidth boxWidth lastLine)
                          (offsetWidth boxWidth thisLine))
                   lastLine;
                 connect "connect-t"
                   (Z.max (offsetWidth boxWidth lastLine)
                          (offsetWidth boxWidth thisLine))
                   thisLine]
            end) as Hpass.
  { unfold Binary64.applyCornerDetection.
    rewrite passWith_pair, binary64_detectPair_scenario.
    by destruct (Binary64.scenario boxWidth align lastLine thisLine). }
  split; [|split; [|split; [|split; [exact Hpass|split; [|split; [|split]]]]]].
  - unfold Binary64.scenario.
    destruct (Binary64.narrowerTest boxWidth align lastLine thisLine); [done|].
    by destruct (Binary64.widerTest boxWidth align lastLine thisLine).
  - unfold Binary64.scenario.
    destruct (Binary64.narrowerTest boxWidth align lastLine thisLine);
      [split; [done|by intros [? _]]|].
    destruct (Binary64.widerTest boxWidth align lastLine thisLine);
      [done|split; [done|by intros [_ ?]]].
  - unfold Binary64.scenario.
    destruct (Binary64.narrowerTest boxWidth align lastLine thisLine);
      [split; [done|by intros [? _]]|].
    destruct (Binary64.widerTest boxWidth align lastLine thisLine);
      [split; [done|by intros [_ ?]]|done].
  - intros lines i Hr.
    destruct (binary64_reaches_turn _ _ _ _ _ _ Hr) as [Hl Ht].
    eexists _, _. rewrite binary64_pass_lookup.
    split; [exact Hl|]. split; [exact Ht|].
    rewrite binary64_detectPair_scenario.
    by destruct (Binary64.scenario boxWidth align lastLine thisLine).
  - intros Hwidth Hl Ht.
    assert (borderRadius lastLine == 0 /\ borderRadius thisLine == 0)
      as [Hl0 Ht0].
    { revert Hl Ht. unfold specTolerance.
      destruct (bool_decide (align = lit "center")); intros; split; lra. }
    destruct (binary64_tests_equal_widths boxWidth align lastLine thisLine
                Hwidth Hl0 Ht0) as [Hn Hw].
    assert (Binary64.scenario boxWidth align lastLine thisLine = Narrower)
      as Hs by (unfold Binary64.scenario; by rewrite Hn).
    split; [unfold caseA; rewrite Hwidth; lra|].
    split; [unfold caseB; rewrite Hwidth; lra|].
    split; [done|]. split; [done|]. split; [done|].
    by rewrite Hpass, Hs.
  - clear. unfold caseA, caseB, specTolerance. intros Hl Ht HA HB.
    destruct (bool_decide (align = lit "center")).
    + split; [|split; lra].
      apply Z.le_antisymm; rewrite Zle_Qle; lra.
    + split; [|split; lra].
      apply Z.le_antisymm; rewrite Zle_Qle; lra.
  - intros Hl Ht.
    split; [|split; [by apply binary64_caseB|split]].
    + intros HA. unfold Binary64.scenario.
      by rewrite (binary64_caseA _ _ _ _ Hl Ht HA).
    + intros Hrl Hrt Hwl Hwt HA HB. unfold Binary64.scenario.
      rewrite (binary64_caseB_not_caseA _ _ _ _ Hl Ht Hrl Hrt Hwl Hwt HA HB).
      by rewrite (binary64_caseB _ _ _ _ Hl Ht HB).
    + by apply binary64_Similar_caseC.
Qed.

(** C1, the pair the claim names: two lines of equal width with zero
    radii.  Case A's and Case B's inequalities both hold; the loop rounds
    the lower line's top right corner and welds nothing.  And the case is
    decided on the widths the loop reads, not on the measured ones: of lines
    100, 96 and 92 pixels wide with a radius of 4 the last two are in
    Case C by their measured widths, and yet the third line is rounded, not
    welded, because the second was welded to 100 pixels before.  And the
    tests are computed with rounding: lines 108 and 100 pixels wide with
    radii of 0.2 times 16 and 0.2 times 24 pixels are in Case C, and the
    first test succeeds on them. *)
Lemma equal_widths_zero_radii_not_welded :
  offsetWidth borderBox (measuredLine 100 0)
    = offsetWidth borderBox (measuredLine 100 0) /\
  specTolerance (lit "left") (borderRadius (measuredLine 100 0)) == 0 /\
  caseA borderBox (lit "left") (measuredLine 100 0) (measuredLine 100 0) /\
  caseB borderBox (lit "left") (measuredLine 100 0) (measuredLine 100 0) /\
  Binary64.scenario borderBox (lit "left")
    (measuredLine 100 0) (measuredLine 100 0) = Narrower /\
  Binary64.scenario borderBox (lit "left")
    (measuredLine 100 0) (measuredLine 100 0) <> Similar /\
  map decoration
      (Binary64.applyCornerDetection borderBox (lit "left")
         [measuredLine 100 0; measuredLine 100 0])
  = [noDecoration;
     {| roundTopLeft := false; roundTopRight := true;
        roundBottomLeft := false; roundBottomRight := false;
        forcedWidth := None |}] /\
  caseC borderBox (lit "left") (measuredLine 96 4) (measuredLine 92 4) /\
  map decoration
      (Binary64.applyCornerDetection borderBox (lit "left")
         [measuredLine 100 4; measuredLine 96 4; measuredLine 92 4])
  = [{| roundTopLeft := false; roundTopRight := false;
        roundBottomLeft := false; roundBottomRight := false;
        forcedWidth := Some 100%Z |};
     {| roundTopLeft := false; roundTopRight := false;
        roundBottomLeft := false; roundBottomRight := false;
        forcedWidth := Some 100%Z |};
     {| roundTopLeft := false; roundTopRight := true;
        roundBottomLeft := false; roundBottomRight := false;
        forcedWidth := None |}] /\
  caseC borderBox (lit "left")
    (Binary64.styledLine 108 "0.2" "16px") (Binary64.styledLine 100 "0.2" "24px") /\
  Binary64.scenario borderBox (lit "left")
    (Binary64.styledLine 108 "0.2" "16px") (Binary64.styledLine 100 "0.2" "24px")
  = Narrower.
Proof.
  assert (HA : caseA borderBox (lit "left")
                 (measuredLine 100 0) (measuredLine 100 0))
    by (apply narrowerTest_caseA; reflexivity).
  assert (HB : caseB borderBox (lit "left")
                 (measuredLine 100 0) (measuredLine 100 0))
    by (apply widerTest_caseB; reflexivity).
  assert (HC : caseC borderBox (lit "left")
                 (measuredLine 96 4) (measuredLine 92 4))
    by (split; [apply narrowerTest_false|apply widerTest_false]; reflexivity).
  assert (HC' : caseC borderBox (lit "left")
                  (Binary64.styledLine 108 "0.2" "16px")
                  (Binary64.styledLine 100 "0.2" "24px"))
    by (split; [apply narrowerTest_false|apply widerTest_false];
        vm_compute; reflexivity).
  split; [reflexivity|]. split; [reflexivity|].
  split; [exact HA|]. split; [exact HB|].
  split; [vm_compute; reflexivity|]. split; [discriminate|].
  split; [vm_compute; reflexivity|]. split; [exact HC|].
  split; [vm_compute; reflexivity|]. split; [exact HC'|].
  vm_compute; reflexivity.
Qed.

Lemma scenario_exactly_one_witness :
  caseA borderBox (lit "center") (measuredLine 80 0) (measuredLine 80 0) /\
  caseB borderBox (lit "center") (measuredLine 80 0) (measuredLine 80 0) /\
  Binary64.narrowerTest borderBox (lit "center")
    (measuredLine 80 0) (measuredLine 80 0) = true /\
  Binary64.widerTest borderBox (lit "center")
    (measuredLine 80 0) (measuredLine 80 0) = true /\
  Binary64.scenario borderBox (lit "center")
    (measuredLine 80 0) (measuredLine 80 0) = Narrower /\
  Binary64.applyCornerDetection borderBox (lit "center")
    [measuredLine 80 0; measuredLine 80 0]
  = [measuredLine 80 0; roundTop (lit "center") (measuredLine 80 0)].
Proof.
  apply (scenario_exactly_one borderBox (lit "center")
           (measuredLine 80 0) (measuredLine 80 0));
    reflexivity.
Defined.



(** C3, as the code has it.  In a pass over fresh lines, when the loop
    reaches a pair for which Case B's inequality holds and Case A's does
    not, on the widths the browser reports at that moment (an upper line
    that the turn before has welded counts with its welded width), its turn
    leaves the lower line untouched and gives the upper line [corner-bl]
    unless the alignment is left and [corner-br] unless it is right,
    changing nothing else of it; the upper line is then final.  This holds
    of the pass on the exact sums, and of the pass as the engine computes it
    for radii that are not negative and widths the Number type holds. *)
Theorem wider_line_rounds_bottom :
  (forall (boxWidth : Z -> Z) (align : jsstring) (lines : list LineEl)
          (i : nat) (lastLine thisLine : LineEl),
     Forall fresh lines ->
     reaches boxWidth align lines i lastLine thisLine ->
     ~ caseA boxWidth align lastLine thisLine ->
     caseB boxWidth align lastLine thisLine ->
     exists lastLine',
       turns boxWidth align (S (S i)) lines !! i = Some lastLine' /\
       turns boxWidth align (S (S i)) lines !! S i = Some thisLine /\
       decoration lastLine'
       = {| roundTopLeft := roundTopLeft (decoration lastLine);
            roundTopRight := roundTopRight (decoration lastLine);
            roundBottomLeft := strictNe align (lit "left");
            roundBottomRight := strictNe align (lit "right");
            forcedWidth := forcedWidth (decoration lastLine) |} /\
       applyCornerDetection boxWidth align lines !! i = Some lastLine') /\
  (forall (boxWidth : Z -> Z) (align : jsstring) (lines : list LineEl)
          (i : nat) (lastLine thisLine : LineEl),
     Forall fresh lines ->
     Binary64.reaches boxWidth align lines i lastLine thisLine ->
     exactTolerance align (borderRadius lastLine) ->
     exactTolerance align (borderRadius thisLine) ->
     (0 <= borderRadius lastLine)%Q -> (0 <= borderRadius thisLine)%Q ->
     (Z.abs (offsetWidth boxWidth lastLine) < 2 ^ 53)%Z ->
     (Z.abs (offsetWidth boxWidth thisLine) < 2 ^ 53)%Z ->
     ~ caseA boxWidth align lastLine thisLine ->
     caseB boxWidth align lastLine thisLine ->
     exists lastLine',
       Binary64.turns boxWidth align (S (S i)) lines !! i = Some lastLine' /\
       Binary64.turns boxWidth align (S (S i)) lines !! S i = Some thisLine /\
       decoration lastLine'
       = {| roundTopLeft := roundTopLeft (decoration lastLine);
            roundTopRight := roundTopRight (decoration lastLine);
            roundBottomLeft := strictNe align (lit "left");
            roundBottomRight := strictNe align (lit "right");
            forcedWidth := forcedWidth (decoration lastLine) |} /\
       Binary64.applyCornerDetection boxWidth align lines !! i
       = Some lastLine').
Proof.
  split.
  - intros boxWidth align lines i lastLine thisLine Hfresh Hr HA HB.
    destruct (reaches_fresh _ _ _ _ _ _ Hfresh Hr) as (_ & Hbl & Hbr).
    destruct (reaches_turn _ _ _ _ _ _ Hr) as [Hl Ht].
    rewrite detectPair_scenario, (scenario_caseB _ _ _ _ HA HB) in Hl, Ht.
    cbn [fst snd] in Hl, Ht.
    exists (roundBottom align lastLine).
    rewrite applyCornerDetection_lookup, decoration_roundBottom, Hbl, Hbr.
    by rewrite !orb_false_r.
  - intros boxWidth align lines i lastLine thisLine Hfresh Hr Hle Hte
      Hrl Hrt Hwl Hwt HA HB.
    destruct (binary64_reaches_fresh _ _ _ _ _ _ Hfresh Hr)
      as (_ & _ & Hbl & Hbr).
    destruct (binary64_reaches_turn _ _ _ _ _ _ Hr) as [Hl Ht].
    assert (Binary64.scenario boxWidth align lastLine thisLine = Wider) as Hs.
    { unfold Binary64.scenario.
      rewrite (binary64_caseB_not_caseA _ _ _ _ Hle Hte Hrl Hrt Hwl Hwt HA HB).
      by rewrite (binary64_caseB _ _ _ _ Hle Hte HB). }
    rewrite binary64_detectPair_scenario, Hs in Hl, Ht.
    cbn [fst snd] in Hl, Ht.
    exists (roundBottom align lastLine).
    rewrite binary64_pass_lookup, decoration_roundBottom, Hbl, Hbr.
    by rewrite !orb_false_r.
Qed.

(** C3, on the pair of equal widths and zero radii: Case B's inequality
    holds, and yet the upper line gets no bottom corner and the lower line
    is the one decorated, because Case A's inequality holds too and is
    tested first.  And on lines 104, 100 and 110 pixels wide with a radius
    of 4: by their measured widths the last two are in Case B and not in
    Case A, and yet the second line gets no bottom corner, because the loop
    reads it at the 104 pixels the first pair welded it to and welds it to
    the third. *)
Lemma caseB_alone_does_not_round_bottom :
  caseB borderBox (lit "center") (measuredLine 100 0) (measuredLine 100 0) /\
  strictNe (lit "center") (lit "left") = true /\
  map decoration
      (applyCornerDetection borderBox (lit "center")
         [measuredLine 100 0; measuredLine 100 0])
  = [noDecoration;
     {| roundTopLeft := true; roundTopRight := true;
        roundBottomLeft := false; roundBottomRight := false;
        forcedWidth := None |}] /\
  caseB borderBox (lit "left") (measuredLine 100 4) (measuredLine 110 4) /\
  ~ caseA borderBox (lit "left") (measuredLine 100 4) (measuredLine 110 4) /\
  strictNe (lit "left") (lit "right") = true /\
  reaches borderBox (lit "left")
    [measuredLine 104 4; measuredLine 100 4; measuredLine 110 4] 1
    (connect "connect-t" 104 (measuredLine 100 4)) (measuredLine 110 4) /\
  caseC borderBox (lit "left")
    (connect "connect-t" 104 (measuredLine 100 4)) (measuredLine 110 4) /\
  map decoration
      (applyCornerDetection borderBox (lit "left")
         [measuredLine 104 4; measuredLine 100 4; measuredLine 110 4])
  = [{| roundTopLeft := false; roundTopRight := false;
        roundBottomLeft := false; roundBottomRight := false;
        forcedWidth := Some 104%Z |};
     {| roundTopLeft := false; roundTopRight := false;
        roundBottomLeft := false; roundBottomRight := false;
        forcedWidth := Some 110%Z |};
     {| roundTopLeft := false; roundTopRight := false;
        roundBottomLeft := false; roundBottomRight := false;
        forcedWidth := Some 110%Z |}].
Proof.
  split; [apply widerTest_caseB; reflexivity|].
  split; [reflexivity|]. split; [reflexivity|].
  split; [apply widerTest_caseB; reflexivity|].
  split; [apply narrowerTest_false; reflexivity|].
  split; [reflexivity|]. split; [split; reflexivity|].
  split; [split; [apply narrowerTest_false|apply widerTest_false]; reflexivity|].
  reflexivity.
Qed.

Lemma wider_line_rounds_bottom_witness :
  (exists lastLine',
     turns borderBox (lit "right") 2 [measuredLine 90 4; measuredLine 100 4] !! 0%nat
       = Some lastLine' /\
     turns borderBox (lit "right") 2 [measuredLine 90 4; measuredLine 100 4] !! 1%nat
       = Some (measuredLine 100 4) /\
     decoration lastLine'
     = {| roundTopLeft := roundTopLeft (decoration (measuredLine 90 4));
          roundTopRight := roundTopRight (decoration (measuredLine 90 4));
          roundBottomLeft := strictNe (lit "right") (lit "left");
          roundBottomRight := strictNe (lit "right") (lit "right");
          forcedWidth := forcedWidth (decoration (measuredLine 90 4)) |} /\
     applyCornerDetection borderBox (lit "right")
       [measuredLine 90 4; measuredLine 100 4] !! 0%nat = Some lastLine') /\
  (exists lastLine',
     Binary64.turns borderBox (lit "center") 2
       [measuredLine 80 4; measuredLine 100 4] !! 0%nat = Some lastLine' /\
     Binary64.turns borderBox (lit "center") 2
       [measuredLine 80 4; measuredLine 100 4] !! 1%nat
       = Some (measuredLine 100 4) /\
     decoration lastLine'
     = {| roundTopLeft := roundTopLeft (decoration (measuredLine 80 4));
          roundTopRight := roundTopRight (decoration (measuredLine 80 4));
          roundBottomLeft := strictNe (lit "center") (lit "left");
          roundBottomRight := strictNe (lit "center") (lit "right");
          forcedWidth := forcedWidth (decoration (measuredLine 80 4)) |} /\
     Binary64.applyCornerDetection borderBox (lit "center")
       [measuredLine 80 4; measuredLine 100 4] !! 0%nat = Some lastLine').
Proof.
  split.
  - apply (proj1 wider_line_rounds_bottom borderBox (lit "right")
             [measuredLine 90 4; measuredLine 100 4] 0
             (measuredLine 90 4) (measuredLine 100 4)).
    + repeat constructor.
    + split; reflexivity.
    + apply narrowerTest_false. reflexivity.
    + apply widerTest_caseB. reflexivity.
  - apply (proj2 wider_line_rounds_bottom borderBox (lit "center")
             [measuredLine 80 4; measuredLine 100 4] 0
             (measuredLine 80 4) (measuredLine 100 4)).
    + repeat constructor.
    + split; reflexivity.
    + exists 8%Q. split; reflexivity.
    + exists 8%Q. split; reflexivity.
    + discriminate.
    + discriminate.
    + reflexivity.
    + reflexivity.
    + apply narrowerTest_false. reflexivity.
    + apply widerTest_caseB. reflexivity.
Defined.




(** ** The scale suffix *)

Lemma split_no_separator (sep : N) (s : jsstring) :
  sep ∉ s -> split sep s = [s].
Proof.
  induction s as [|c s IH]; intros Hnot; [done|].
  simpl. destruct (N.eqb_spec c sep) as [->|Hne].
  - exfalso. apply Hnot. left.
  - rewrite IH; [done|]. intros Hin. apply Hnot. by right.
Qed.

Lemma split_not_empty (sep : N) (s : jsstring) : split sep s <> [].
Proof.
  destruct s as [|c s]; simpl; [done|].
  destruct (N.eqb c sep); [done|]. by destruct (split sep s).
Qed.

Lemma orElse_one (x : JSNum) :
  orElse x (Num 1)
  = match x with
    | NaN => Num 1
    | Num q => if Qeq_bool q 0 then Num 1 else Num q
    | Infinity => Infinity
    | NegInfinity => NegInfinity
    end.
Proof.
  destruct x as [| | |q]; try reflexivity.
  unfold orElse, ToBoolean. by destruct (Qeq_bool q 0).
Qed.

Lemma unsignedLiteral_headNotNumeric (s : jsstring) :
  headNotNumeric s -> unsignedLiteral s = NaN.
Proof.
  destruct s as [|c s]; [reflexivity|].
  intros (Hdigit & Hdot & HI). unfold unsignedLiteral.
  assert (startsWith (lit "Infinity") (c :: s) = false) as ->.
  { change (lit "Infinity") with (73%N :: lit "nfinity").
    cbn [startsWith]. destruct (N.eqb_spec 73 c); [congruence|done]. }
  cbn [takeDigits]. rewrite Hdigit.
  destruct c as [|p]; [done|].
  do 7 (destruct p as [p|p|]; try done).
Qed.

Lemma parseFloat_nonNumeric (suffix : jsstring) :
  nonNumeric suffix -> parseFloat (Some suffix) = NaN.
Proof.
  unfold nonNumeric, parseFloat. simpl ToString.
  destruct (trimStart suffix) as [|c s].
  { intros _. reflexivity. }
  intros H.
  assert (forall t, headNotNumeric t -> negate (unsignedLiteral t) = NaN) as Hneg.
  { intros t Ht. by rewrite unsignedLiteral_headNotNumeric. }
  destruct c as [|p]; [by apply unsignedLiteral_headNotNumeric|].
  do 6 (destruct p as [p|p|];
        try (by apply unsignedLiteral_headNotNumeric);
        try (by apply Hneg)).
Qed.

(** C5, as the code has it.  Building the scale of a line is a total
    function.  The scale is 1 when the line has no delimiter, when the
    suffix has no number at its head ("Text|abc", "Text|") and when the
    number [parseFloat] finds is zero; any other number is the scale as it
    was parsed.  So a scale is never [NaN] and never zero, but a negative
    suffix gives a negative scale. *)
Theorem lineScale_default (line : jsstring) :
  lineScale line
  = match parseFloat (split pipe line !! 1%nat) with
    | NaN => Num 1
    | Num q => if Qeq_bool q 0 then Num 1 else Num q
    | Infinity => Infinity
    | NegInfinity => NegInfinity
    end /\
  (pipe ∉ line -> lineText line = Some line /\ lineScale line = Num 1) /\
  (forall suffix, split pipe line !! 1%nat = Some suffix ->
     nonNumeric suffix -> lineScale line = Num 1) /\
  (forall q, parseFloat (split pipe line !! 1%nat) = Num q ->
     q == 0 -> lineScale line = Num 1) /\
  (forall q, parseFloat (split pipe line !! 1%nat) = Num q ->
     (q < 0)%Q -> lineScale line = Num q) /\
  lineScale line <> NaN /\
  (forall q, lineScale line = Num q -> ~ q == 0) /\
  lineScale (lit "Text|abc") = Num 1 /\
  lineScale (lit "Text|") = Num 1 /\
  lineScale (lit "Text") = Num 1 /\
  lineScale (lit "Text|0") = Num 1 /\
  lineScale (lit "Text|1.5") = Num (3 # 2).
Proof.
  assert (lineScale line
          = match parseFloat (split pipe line !! 1%nat) with
            | NaN => Num 1
            | Num q => if Qeq_bool q 0 then Num 1 else Num q
            | Infinity => Infinity
            | NegInfinity => NegInfinity
            end) as Hscale by apply orElse_one.
  split; [exact Hscale|].
  split.
  { intros Hno. unfold lineText, lineScale.
    by rewrite (split_no_separator _ _ Hno). }
  split.
  { intros suffix Hs Hnon. rewrite Hscale, Hs.
    by rewrite (parseFloat_nonNumeric _ Hnon). }
  split.
  { intros q Hq Hz. rewrite Hscale, Hq.
    apply Qeq_bool_iff in Hz. by rewrite Hz. }
  split.
  { intros q Hq Hneg. rewrite Hscale, Hq.
    destruct (Qeq_bool q 0) eqn:E; [|done].
    apply Qeq_bool_iff in E. lra. }
  split.
  { rewrite Hscale.
    destruct (parseFloat (split pipe line !! 1%nat)) as [| | |q]; try done.
    by destruct (Qeq_bool q 0). }
  split.
  { intros q. rewrite Hscale.
    destruct (parseFloat (split pipe line !! 1%nat)) as [| | |q']; try done.
    - intros [= <-]. done.
    - destruct (Qeq_bool q' 0) eqn:E.
      + intros [= <-]. done.
      + intros [= <-]. intros Hz. apply Qeq_bool_iff in Hz. congruence. }
  repeat split; reflexivity.
Qed.

(** C5, on the third suffix the claim names: "Text|-2" gets the scale -2,
    not 1. *)
Lemma negative_scale_is_kept :
  lineText (lit "Text|-2") = Some (lit "Text") /\
  parseFloat (split pipe (lit "Text|-2") !! 1%nat) = Num (-2) /\
  lineScale (lit "Text|-2") = Num (-2) /\
  lineScale (lit "Text|-2") <> Num 1.
Proof. repeat split; try reflexivity. discriminate. Qed.

Lemma lineScale_default_witness :
  lineScale (lit "Text|px") = Num 1.
Proof.
  apply (proj1 (proj2 (proj2 (lineScale_default (lit "Text|px"))))
           (lit "px")).
  - reflexivity.
  - unfold nonNumeric, headNotNumeric. simpl. repeat split; discriminate.
Defined.

(** ** Tolerance and alignment *)



(** ** Welded chains *)

(** C7.  When a turn welds the pair (i, i+1), the next turn finds line i+1
    with the inline width the weld gave it: the width it reads for that line
    is the one the browser reports for the welded width, not the line's own,
    its two tests are computed from that width, and if it welds again the
    new width is the larger of that and the next line's.  With border-box
    sizing the running maximum of a welded chain moves forward (lines of
    100, 97 and 95 pixels all end at 100), and it can change the case of a
    later pair: of lines of 100, 96 and 92 pixels with a radius of 4, the
    last two alone weld, and after the first weld the third line is
    narrower instead. *)
Theorem welded_width_feeds_next_pair :
  (forall boxWidth align lines i lastLine thisLine nextLine,
     Binary64.reaches boxWidth align lines i lastLine thisLine ->
     Binary64.narrowerTest boxWidth align lastLine thisLine = false ->
     Binary64.widerTest boxWidth align lastLine thisLine = false ->
     lines !! S (S i) = Some nextLine ->
     let width :=
       Z.max (offsetWidth boxWidth lastLine) (offsetWidth boxWidth thisLine) in
     Binary64.reaches boxWidth align lines (S i)
       (connect "connect-t" width thisLine) nextLine /\
     offsetWidth boxWidth (connect "connect-t" width thisLine) = boxWidth width /\
     Binary64.narrowerTest boxWidth align
       (connect "connect-t" width thisLine) nextLine
     = Binary64.geq
         (Binary64.sub (Num (inject_Z (boxWidth width)))
            (Binary64.tolerance align (Num (borderRadius thisLine))))
         (Binary64.add (Num (inject_Z (offsetWidth boxWidth nextLine)))
            (Binary64.tolerance align (Num (borderRadius nextLine)))) /\
     Binary64.widerTest boxWidth align
       (connect "connect-t" width thisLine) nextLine
     = Binary64.leq
         (Binary64.add (Num (inject_Z (boxWidth width)))
            (Binary64.tolerance align (Num (borderRadius thisLine))))
         (Binary64.sub (Num (inject_Z (offsetWidth boxWidth nextLine)))
            (Binary64.tolerance align (Num (borderRadius nextLine)))) /\
     (Binary64.narrowerTest boxWidth align
        (connect "connect-t" width thisLine) nextLine = false ->
      Binary64.widerTest boxWidth align
        (connect "connect-t" width thisLine) nextLine = false ->
      exists thisLine' nextLine',
        Binary64.applyCornerDetection boxWidth align lines !! S i
          = Some thisLine' /\
        Binary64.turns boxWidth align (S (S (S i))) lines !! S (S i)
          = Some nextLine' /\
        forcedWidth (decoration thisLine')
        = Some (Z.max (boxWidth width) (offsetWidth boxWidth nextLine)) /\
        forcedWidth (decoration nextLine')
        = Some (Z.max (boxWidth width) (offsetWidth boxWidth nextLine)))) /\
  map (fun el => forcedWidth (decoration el))
      (Binary64.applyCornerDetection borderBox (lit "left")
         [measuredLine 96 4; measuredLine 92 4])
  = [Some 96%Z; Some 96%Z] /\
  Binary64.reaches borderBox (lit "left")
    [measuredLine 100 4; measuredLine 96 4; measuredLine 92 4] 1
    (connect "connect-t" 100 (measuredLine 96 4)) (measuredLine 92 4) /\
  Binary64.scenario borderBox (lit "left")
    (connect "connect-t" 100 (measuredLine 96 4)) (measuredLine 92 4)
  = Narrower /\
  map decoration
      (Binary64.applyCornerDetection borderBox (lit "left")
         [measuredLine 100 4; measuredLine 96 4; measuredLine 92 4])
  = [{| roundTopLeft := false; roundTopRight := false;
        roundBottomLeft := false; roundBottomRight := false;
        forcedWidth := Some 100%Z |};
     {| roundTopLeft := false; roundTopRight := false;
        roundBottomLeft := false; roundBottomRight := false;
        forcedWidth := Some 100%Z |};
     {| roundTopLeft := false; roundTopRight := true;
        roundBottomLeft := false; roundBottomRight := false;
        forcedWidth := None |}] /\
  map (fun el => forcedWidth (decoration el))
      (Binary64.applyCornerDetection borderBox (lit "left")
         [measuredLine 100 4; measuredLine 97 4; measuredLine 95 4])
  = [Some 100%Z; Some 100%Z; Some 100%Z].
Proof.
  split.
  { intros boxWidth align lines i lastLine thisLine nextLine Hr Hn Hw Hnext
      width.
    pose proof (binary64_reaches_next _ _ _ _ _ _ _ Hr Hnext) as Hr'.
    rewrite binary64_detectPair_scenario,
      (binary64_scenario_Similar _ _ _ _ Hn Hw) in Hr'.
    cbn [snd] in Hr'. fold width in Hr'.
    split; [exact Hr'|]. split; [reflexivity|].
    split; [reflexivity|]. split; [reflexivity|].
    intros Hn' Hw'.
    destruct (binary64_reaches_turn _ _ _ _ _ _ Hr') as [Hl' Ht'].
    rewrite binary64_detectPair_scenario,
      (binary64_scenario_Similar _ _ _ _ Hn' Hw') in Hl', Ht'.
    cbn [fst snd] in Hl', Ht'.
    eexists _, _. rewrite binary64_pass_lookup.
    split; [exact Hl'|]. split; [exact Ht'|].
    rewrite !decoration_connect by auto. done. }
  split; [vm_compute; reflexivity|].
  split; [split; vm_compute; reflexivity|].
  repeat split; vm_compute; reflexivity.
Qed.

Lemma welded_width_feeds_next_pair_witness :
  Binary64.reaches borderBox (lit "left")
    [measuredLine 100 4; measuredLine 97 4; measuredLine 95 4] 1
    (connect "connect-t" 100 (measuredLine 97 4)) (measuredLine 95 4) /\
  offsetWidth borderBox (connect "connect-t" 100 (measuredLine 97 4))
    = borderBox 100 /\
  Binary64.narrowerTest borderBox (lit "left")
    (connect "connect-t" 100 (measuredLine 97 4)) (measuredLine 95 4)
  = Binary64.geq
      (Binary64.sub (Num (inject_Z (borderBox 100)))
         (Binary64.tolerance (lit "left") (Num (borderRadius (measuredLine 97 4)))))
      (Binary64.add (Num (inject_Z (offsetWidth borderBox (measuredLine 95 4))))
         (Binary64.tolerance (lit "left") (Num (borderRadius (measuredLine 95 4))))) /\
  Binary64.widerTest borderBox (lit "left")
    (connect "connect-t" 100 (measuredLine 97 4)) (measuredLine 95 4)
  = Binary64.leq
      (Binary64.add (Num (inject_Z (borderBox 100)))
         (Binary64.tolerance (lit "left") (Num (borderRadius (measuredLine 97 4)))))
      (Binary64.sub (Num (inject_Z (offsetWidth borderBox (measuredLine 95 4))))
         (Binary64.tolerance (lit "left") (Num (borderRadius (measuredLine 95 4))))) /\
  (Binary64.narrowerTest borderBox (lit "left")
     (connect "connect-t" 100 (measuredLine 97 4)) (measuredLine 95 4) = false ->
   Binary64.widerTest borderBox (lit "left")
     (connect "connect-t" 100 (measuredLine 97 4)) (measuredLine 95 4) = false ->
   exists thisLine' nextLine',
     Binary64.applyCornerDetection borderBox (lit "left")
       [measuredLine 100 4; measuredLine 97 4; measuredLine 95 4] !! 1%nat
     = Some thisLine' /\
     Binary64.turns borderBox (lit "left") 3
       [measuredLine 100 4; measuredLine 97 4; measuredLine 95 4] !! 2%nat
     = Some nextLine' /\
     forcedWidth (decoration thisLine')
     = Some (Z.max (borderBox 100) (offsetWidth borderBox (measuredLine 95 4))) /\
     forcedWidth (decoration nextLine')
     = Some (Z.max (borderBox 100) (offsetWidth borderBox (measuredLine 95 4)))).
Proof.
  apply (proj1 welded_width_feeds_next_pair borderBox (lit "left")
           [measuredLine 100 4; measuredLine 97 4; measuredLine 95 4] 0
           (measuredLine 100 4) (measuredLine 97 4) (measuredLine 95 4)).
  - split; reflexivity.
  - reflexivity.
  - reflexivity.
  - reflexivity.
Defined.

(** ** What a pass leaves alone *)

Section Frame.

Variable boxWidth : Z -> Z.
Variable align : jsstring.

Lemma keeps_refl (el : LineEl) : keeps el el.
Proof. by repeat split. Qed.

Lemma keeps_trans (a b c : LineEl) : keeps a b -> keeps b c -> keeps a c.
Proof.
  intros (? & ? & ? & ? & Hab) (? & ? & ? & ? & Hbc).
  repeat split; try congruence. auto.
Qed.

Lemma keeps_classList_add (token : string) (el : LineEl) :
  keeps el (classList_add token el).
Proof.
  repeat split. simpl. intros t Ht.
  destruct (bool_decide (token ∈ classList el)); [done|].
  apply elem_of_app. by left.
Qed.

Lemma keeps_set_styleWidth (w : Z) (el : LineEl) : keeps el (set_styleWidth w el).
Proof. by repeat split. Qed.

Lemma keeps_detectPair (lastLine thisLine : LineEl) :
  keeps lastLine (fst (detectPair boxWidth align lastLine thisLine)) /\
  keeps thisLine (snd (detectPair boxWidth align lastLine thisLine)).
Proof.
  rewrite detectPair_scenario.
  destruct (scenario boxWidth align lastLine thisLine); cbn [fst snd].
  - split; [apply keeps_refl|]. unfold roundTop.
    destruct (strictNe align (lit "left")), (strictNe align (lit "right"));
      eauto using keeps_refl, keeps_trans, keeps_classList_add.
  - split; [|apply keeps_refl]. unfold roundBottom.
    destruct (strictNe align (lit "left")), (strictNe align (lit "right"));
      eauto using keeps_refl, keeps_trans, keeps_classList_add.
  - unfold connect.
    split; eauto using keeps_trans, keeps_classList_add, keeps_set_styleWidth.
Qed.

Lemma keeps_iteration (lines : list LineEl) (i k : nat) (el : LineEl) :
  lines !! k = Some el ->
  exists el', iteration boxWidth align lines i !! k = Some el' /\ keeps el el'.
Proof.
  intros Hk.
  destruct (decide (k <> i /\ S k <> i)) as [[H1 H2]|Hnot].
  { exists el. split; [by rewrite iteration_lookup_other|apply keeps_refl]. }
  destruct i as [|j].
  { exists el. split; [by rewrite iteration_0|apply keeps_refl]. }
  destruct (lines !! j) as [lastLine|] eqn:Hl; cycle 1.
  { exists el. split; [|apply keeps_refl].
    unfold iteration. simpl. rewrite Hl. by destruct (lines !! S j). }
  destruct (lines !! S j) as [thisLine|] eqn:Ht; cycle 1.
  { exists el. split; [|apply keeps_refl]. unfold iteration. by rewrite Ht. }
  destruct (iteration_pair boxWidth align lines j lastLine thisLine Hl Ht)
    as [Hi HSi].
  destruct (keeps_detectPair lastLine thisLine) as [Kl Kt].
  destruct (decide (k = j)) as [->|Hkj].
  - rewrite Hl in Hk. injection Hk as <-. eauto.
  - assert (k = S j) as -> by lia.
    rewrite Ht in Hk. injection Hk as <-. eauto.
Qed.

Lemma keeps_turns (n : nat) (lines : list LineEl) (k : nat) (el : LineEl) :
  lines !! k = Some el ->
  exists el', turns boxWidth align n lines !! k = Some el' /\ keeps el el'.
Proof.
  intros Hk. induction n as [|n (mid & Hmid & Kmid)].
  - exists el. split; [done|apply keeps_refl].
  - rewrite turns_S.
    destruct (keeps_iteration _ n k mid Hmid) as (el' & Hel' & Kel').
    exists el'. split; [done|]. by eapply keeps_trans.
Qed.

(** Two lists of lines agree under a projection when they do line by line. *)
Lemma map_ext_lookup {B : Type} (f : LineEl -> B) (l1 l2 : list LineEl) :
  length l1 = length l2 ->
  (forall k x y, l1 !! k = Some x -> l2 !! k = Some y -> f x = f y) ->
  map f l1 = map f l2.
Proof.
  revert l2. induction l1 as [|a l1 IH]; intros [|b l2] Hlen Hpt; try done.
  simpl. f_equal.
  - by apply (Hpt 0 a b).
  - apply IH; [by injection Hlen|].
    intros k x y Hx Hy. by apply (Hpt (S k)).
Qed.

(** The pass on lines stripped of their text is the pass, stripped. *)
Lemma detectPair_withoutText (lastLine thisLine : LineEl) :
  detectPair boxWidth align (withoutText lastLine) (withoutText thisLine)
  = (withoutText (fst (detectPair boxWidth align lastLine thisLine)),
     withoutText (snd (detectPair boxWidth align lastLine thisLine))).
Proof.
  unfold detectPair.
  change (narrowerTest boxWidth align (withoutText lastLine) (withoutText thisLine))
    with (narrowerTest boxWidth align lastLine thisLine).
  change (widerTest boxWidth align (withoutText lastLine) (withoutText thisLine))
    with (widerTest boxWidth align lastLine thisLine).
  destruct (narrowerTest boxWidth align lastLine thisLine).
  { by destruct (strictNe align (lit "left")), (strictNe align (lit "right")). }
  destruct (widerTest boxWidth align lastLine thisLine).
  { by destruct (strictNe align (lit "left")), (strictNe align (lit "right")). }
  reflexivity.
Qed.

Lemma iteration_withoutText (lines : list LineEl) (i : nat) :
  iteration boxWidth align (withoutText <$> lines) i
  = withoutText <$> iteration boxWidth align lines i.
Proof.
  unfold iteration. rewrite list_lookup_fmap.
  destruct (lines !! i) as [thisLine|]; simpl; [|done].
  destruct i as [|j]; simpl; [done|].
  rewrite list_lookup_fmap.
  destruct (lines !! j) as [lastLine|]; simpl; [|done].
  rewrite detectPair_withoutText.
  destruct (detectPair boxWidth align lastLine thisLine) as [l' t']. simpl.
  by rewrite !list_fmap_insert.
Qed.

Lemma turns_withoutText (n : nat) (lines : list LineEl) :
  turns boxWidth align n (withoutText <$> lines)
  = withoutText <$> turns boxWidth align n lines.
Proof.
  induction n as [|n IH]; [done|].
  by rewrite !turns_S, IH, iteration_withoutText.
Qed.

Lemma applyCornerDetection_withoutText (lines : list LineEl) :
  applyCornerDetection boxWidth align (withoutText <$> lines)
  = withoutText <$> applyCornerDetection boxWidth align lines.
Proof.
  unfold applyCornerDetection. by rewrite length_fmap, turns_withoutText.
Qed.

End Frame.

Lemma withoutText_fresh (ls1 ls2 : list LineEl) :
  Forall fresh ls1 -> Forall fresh ls2 ->
  map measurement ls1 = map measurement ls2 ->
  withoutText <$> ls1 = withoutText <$> ls2.
Proof.
  intros H1. revert ls2.
  induction H1 as [|x ls1 [Hxc Hxw] _ IH]; intros [|y ls2] H2 Hm; try done.
  inversion H2 as [|? ? [Hyc Hyw] H2']; subst.
  injection Hm as Hw Hr Hrest.
  simpl. f_equal; [|by apply IH].
  unfold withoutText. by rewrite Hxc, Hxw, Hyc, Hyw, Hw, Hr.
Qed.

Lemma removeAllChildNodes_empty (box : list LineEl) :
  removeAllChildNodes box = [].
Proof. by induction box. Qed.

Lemma createLine_fresh (measure : jsstring -> JSNum -> Z * Q) (line : jsstring) :
  fresh (createLine measure line).
Proof. by split. Qed.

(** Both scripts hand the pass fresh lines. *)
Lemma appended_lines_fresh (measure : jsstring -> JSNum -> Z * Q)
    (rawLines : list jsstring) (box : list LineEl) :
  Forall fresh box ->
  Forall fresh
    (fold_left (fun box line => appendChild box (createLine measure line))
               rawLines box).
Proof.
  revert box. induction rawLines as [|line rawLines IH]; intros box Hbox.
  - done.
  - simpl. apply IH. unfold appendChild. apply Forall_app. split; [done|].
    constructor; [apply createLine_fresh|constructor].
Qed.

Lemma createHTML_lines_fresh (measure : jsstring -> JSNum -> Z * Q)
    (text : jsstring) :
  Forall fresh (createHTML_lines measure text).
Proof.
  unfold createHTML_lines. apply Forall_forall. intros el Hin.
  apply list_elem_of_In, in_map_iff in Hin as (line & <- & _).
  apply createLine_fresh.
Qed.

(** C8.  A pass over a single line changes nothing: the one turn finds no
    previous sibling.  The line the handler builds for a text without a line
    break therefore ends with no corner flag and no forced width.  In any
    pass the first line is never rounded from above: its top flags stay as
    they came in. *)
Theorem single_line_not_decorated :
  (forall boxWidth align el,
     applyCornerDetection boxWidth align [el] = [el]) /\
  (forall measure boxWidth align line,
     map decoration
         (applyCornerDetection boxWidth align [createLine measure line])
     = [noDecoration]) /\
  (forall measure boxWidth align value box,
     newline ∉ value ->
     map decoration (onchange measure boxWidth align value box)
     = [noDecoration]) /\
  (forall boxWidth align lines el,
     lines !! 0%nat = Some el ->
     exists el',
       applyCornerDetection boxWidth align lines !! 0%nat = Some el' /\
       roundTopLeft (decoration el') = roundTopLeft (decoration el) /\
       roundTopRight (decoration el') = roundTopRight (decoration el)).
Proof.
  assert (forall boxWidth align el,
            applyCornerDetection boxWidth align [el] = [el]) as Hone.
  { intros. unfold applyCornerDetection. simpl length.
    by rewrite turns_S, iteration_0. }
  split; [exact Hone|].
  split.
  { intros. rewrite Hone. simpl.
    by rewrite (decoration_fresh _ (createLine_fresh measure line)). }
  split.
  { intros measure boxWidth align value box Hno. unfold onchange.
    rewrite removeAllChildNodes_empty, (split_no_separator _ _ Hno).
    unfold appendChild. cbn [fold_left app]. rewrite Hone. simpl.
    by rewrite (decoration_fresh _ (createLine_fresh measure value)). }
  intros boxWidth align lines el H0.
  rewrite applyCornerDetection_lookup, (turns_S _ _ 1), (turns_S _ _ 0).
  rewrite iteration_0.
  by apply iteration_next_top.
Qed.

Lemma single_line_not_decorated_witness :
  map decoration
      (onchange (fun text scale => (120%Z, 4%Q)) borderBox (lit "center")
         (lit "Only line|2") [measuredLine 50 4; measuredLine 70 4])
  = [noDecoration].
Proof.
  apply (proj1 (proj2 (proj2 single_line_not_decorated))).
  intros H. apply list_elem_of_In in H. simpl in H.
  repeat (destruct H as [H|H]; [discriminate H|]). exact H.
Defined.

(** C9, as the code has it.  The decorations a pass over fresh lines
    produces depend on nothing but the alignment and the measured widths and
    radii of the lines: two fresh sequences with the same measurements get
    the same decorations, whatever their texts and scales, on the exact
    sums and as the engine computes them.  The text change handler empties
    the box before it builds the lines, so what it leaves does not depend on
    what the box held: run again on its own result with the same text,
    alignment and layout, it leaves the same lines. *)
Theorem classification_is_a_function_of_measurements :
  (forall boxWidth align ls1 ls2,
     Forall fresh ls1 -> Forall fresh ls2 ->
     map measurement ls1 = map measurement ls2 ->
     map decoration (applyCornerDetection boxWidth align ls1)
     = map decoration (applyCornerDetection boxWidth align ls2)) /\
  (forall boxWidth align ls1 ls2,
     Forall fresh ls1 -> Forall fresh ls2 ->
     map measurement ls1 = map measurement ls2 ->
     map decoration (Binary64.applyCornerDetection boxWidth align ls1)
     = map decoration (Binary64.applyCornerDetection boxWidth align ls2)) /\
  (forall measure boxWidth align value box box',
     onchange measure boxWidth align value box
     = onchange measure boxWidth align value box') /\
  (forall measure boxWidth align value box,
     onchange measure boxWidth align value
       (onchange measure boxWidth align value box)
     = onchange measure boxWidth align value box).
Proof.
  assert (forall measure boxWidth align value box box',
            onchange measure boxWidth align value box
            = onchange measure boxWidth align value box') as Hbox.
  { intros. unfold onchange. by rewrite !removeAllChildNodes_empty. }
  split; [|split; [|split; [exact Hbox|intros; apply Hbox]]].
  - intros boxWidth align ls1 ls2 H1 H2 Hm.
    assert (forall ls, map decoration (applyCornerDetection boxWidth align ls)
                       = map decoration
                           (applyCornerDetection boxWidth align
                              (withoutText <$> ls)))
      as Hstrip.
    { intros ls. rewrite applyCornerDetection_withoutText.
      change (withoutText <$> applyCornerDetection boxWidth align ls)
        with (map withoutText (applyCornerDetection boxWidth align ls)).
      by rewrite map_map. }
    by rewrite (Hstrip ls1), (Hstrip ls2), (withoutText_fresh ls1 ls2).
  - intros boxWidth align ls1 ls2 H1 H2 Hm.
    assert (forall ls,
              map decoration (Binary64.applyCornerDetection boxWidth align ls)
              = map decoration
                  (Binary64.applyCornerDetection boxWidth align
                     (withoutText <$> ls)))
      as Hstrip.
    { intros ls. rewrite binary64_pass_withoutText.
      change (withoutText <$> Binary64.applyCornerDetection boxWidth align ls)
        with (map withoutText (Binary64.applyCornerDetection boxWidth align ls)).
      by rewrite map_map. }
    by rewrite (Hstrip ls1), (Hstrip ls2), (withoutText_fresh ls1 ls2).
Qed.

Lemma classification_is_a_function_of_measurements_witness :
  map decoration
      (applyCornerDetection borderBox (lit "left")
         [measuredLine 100 4; measuredLine 90 4])
  = map decoration
      (applyCornerDetection borderBox (lit "left")
         [createLine (fun text scale => (100%Z, 4%Q)) (lit "Other|2");
          createLine (fun text scale => (90%Z, 4%Q)) (lit "words")]).
Proof.
  apply (proj1 classification_is_a_function_of_measurements).
  - repeat constructor.
  - repeat constructor.
  - reflexivity.
Defined.

(** C9, on running the pass twice.  A pass run again on the lines an
    earlier pass has decorated, without the handler rebuilding them, reads
    the welded widths and gives other results: lines of 92, 96 and 100
    pixels end at 96, 100, 100 after one pass and at 100, 100, 100 after a
    second one. *)
Lemma second_pass_changes_forced_widths :
  map decoration
      (applyCornerDetection borderBox (lit "left")
         [measuredLine 92 4; measuredLine 96 4; measuredLine 100 4])
  = [{| roundTopLeft := false; roundTopRight := false;
        roundBottomLeft := false; roundBottomRight := false;
        forcedWidth := Some 96%Z |};
     {| roundTopLeft := false; roundTopRight := false;
        roundBottomLeft := false; roundBottomRight := false;
        forcedWidth := Some 100%Z |};
     {| roundTopLeft := false; roundTopRight := false;
        roundBottomLeft := false; roundBottomRight := false;
        forcedWidth := Some 100%Z |}] /\
  map decoration
      (applyCornerDetection borderBox (lit "left")
         (applyCornerDetection borderBox (lit "left")
            [measuredLine 92 4; measuredLine 96 4; measuredLine 100 4]))
  = [{| roundTopLeft := false; roundTopRight := false;
        roundBottomLeft := false; roundBottomRight := false;
        forcedWidth := Some 100%Z |};
     {| roundTopLeft := false; roundTopRight := false;
        roundBottomLeft := false; roundBottomRight := false;
        forcedWidth := Some 100%Z |};
     {| roundTopLeft := false; roundTopRight := false;
        roundBottomLeft := false; roundBottomRight := false;
        forcedWidth := Some 100%Z |}] /\
  map decoration
      (applyCornerDetection borderBox (lit "left")
         (applyCornerDetection borderBox (lit "left")
            [measuredLine 92 4; measuredLine 96 4; measuredLine 100 4]))
  <> map decoration
       (applyCornerDetection borderBox (lit "left")
          [measuredLine 92 4; measuredLine 96 4; measuredLine 100 4]) /\
  map (fun el => forcedWidth (decoration el))
      (Binary64.applyCornerDetection borderBox (lit "left")
         [measuredLine 92 4; measuredLine 96 4; measuredLine 100 4])
  = [Some 96%Z; Some 100%Z; Some 100%Z] /\
  map (fun el => forcedWidth (decoration el))
      (Binary64.applyCornerDetection borderBox (lit "left")
         (Binary64.applyCornerDetection borderBox (lit "left")
            [measuredLine 92 4; measuredLine 96 4; measuredLine 100 4]))
  = [Some 100%Z; Some 100%Z; Some 100%Z].
Proof.
  split; [reflexivity|]. split; [reflexivity|]. split; [discriminate|].
  split; vm_compute; reflexivity.
Qed.

(** C10.  A pass keeps the number of lines and, line by line, the text, the
    scale and the measured width and radius; it only adds classes and sets
    inline widths. *)
Theorem text_and_scale_unchanged (boxWidth : Z -> Z) (align : jsstring)
    (lines : list LineEl) :
  length (applyCornerDetection boxWidth align lines) = length lines /\
  map textContent (applyCornerDetection boxWidth align lines)
    = map textContent lines /\
  map fontScale (applyCornerDetection boxWidth align lines)
    = map fontScale lines /\
  map measurement (applyCornerDetection boxWidth align lines)
    = map measurement lines /\
  (forall k before after,
     lines !! k = Some before ->
     applyCornerDetection boxWidth align lines !! k = Some after ->
     forall token, token ∈ classList before -> token ∈ classList after).
Proof.
  assert (forall k before after,
            lines !! k = Some before ->
            applyCornerDetection boxWidth align lines !! k = Some after ->
            keeps before after) as Hkeeps.
  { intros k before after Hb Ha.
    destruct (keeps_turns boxWidth align (length lines) lines k before Hb)
      as (el' & Hel' & K).
    unfold applyCornerDetection in Ha. congruence. }
  pose proof (applyCornerDetection_length boxWidth align lines) as Hlen.
  split; [exact Hlen|].
  split; [|split; [|split]].
  - apply map_ext_lookup; [done|].
    intros k x y Hx Hy. by destruct (Hkeeps k y x Hy Hx) as (? & ? & ? & ? & ?).
  - apply map_ext_lookup; [done|].
    intros k x y Hx Hy. by destruct (Hkeeps k y x Hy Hx) as (? & ? & ? & ? & ?).
  - apply map_ext_lookup; [done|].
    intros k x y Hx Hy. destruct (Hkeeps k y x Hy Hx) as (? & ? & ? & ? & ?).
    unfold measurement. congruence.
  - intros k before after Hb Ha.
    by destruct (Hkeeps k before after Hb Ha) as (? & ? & ? & ? & ?).
Qed.

Lemma text_and_scale_unchanged_witness :
  "line"%string ∈ classList (connect "connect-t" 100 (measuredLine 96 4)).
Proof.
  apply (proj2 (proj2 (proj2 (proj2
           (text_and_scale_unchanged borderBox (lit "center")
              [measuredLine 100 4; measuredLine 96 4]))))
           1%nat (measuredLine 96 4)).
  - reflexivity.
  - reflexivity.
  - left.
Defined.

(** * More of the scripts *)

(** ** The pass as one sweep *)

Section Sweep.

Variable boxWidth : Z -> Z.
Variable align : jsstring.

(** The loop, read as one sweep from the top: the line above, as the turns
    so far have left it, is carried along, and each turn hands on the line
    below. *)
Fixpoint sweep (lastLine : LineEl) (rest : list LineEl) : list LineEl :=
  match rest with
  | [] => [lastLine]
  | thisLine :: rest' =>
      let '(lastLine', thisLine') := detectPair boxWidth align lastLine thisLine in
      lastLine' :: sweep thisLine' rest'
  end.

Definition sweepAll (lines : list LineEl) : list LineEl :=
  match lines with
  | [] => []
  | first :: rest => sweep first rest
  end.

Lemma turns_from_sweep (rest above : list LineEl) (lastLine : LineEl) :
  fold_left (iteration boxWidth align)
            (seq (S (length above)) (length rest))
            (above ++ lastLine :: rest)
  = above ++ sweep lastLine rest.
Proof.
  revert above lastLine.
  induction rest as [|thisLine rest IH]; intros above lastLine; [done|].
  cbn [length seq fold_left sweep].
  assert (iteration boxWidth align (above ++ lastLine :: thisLine :: rest)
                    (S (length above))
          = (above ++ [fst (detectPair boxWidth align lastLine thisLine)])
              ++ snd (detectPair boxWidth align lastLine thisLine) :: rest) as ->.
  { unfold iteration.
    assert ((above ++ lastLine :: thisLine :: rest) !! S (length above)
            = Some thisLine) as ->.
    { rewrite lookup_app_r by lia.
      by replace (S (length above) - length above) with 1 by lia. }
    cbn [previousElementSibling Nat.pred].
    rewrite list_lookup_middle by done.
    destruct (detectPair boxWidth align lastLine thisLine) as [l' t'].
    cbn [fst snd].
    rewrite (insert_app_r_alt above _ (length above)) by lia.
    rewrite Nat.sub_diag. cbn [insert list_insert].
    rewrite insert_app_r_alt by lia.
    replace (S (length above) - length above) with 1 by lia.
    by rewrite <- app_assoc. }
  specialize (IH (above ++ [fst (detectPair boxWidth align lastLine thisLine)])
                 (snd (detectPair boxWidth align lastLine thisLine))).
  rewrite length_app in IH. simpl in IH.
  replace (length above + 1) with (S (length above)) in IH by lia.
  rewrite IH.
  destruct (detectPair boxWidth align lastLine thisLine) as [l' t'].
  by rewrite <- app_assoc.
Qed.

Lemma applyCornerDetection_sweepAll (lines : list LineEl) :
  applyCornerDetection boxWidth align lines = sweepAll lines.
Proof.
  destruct lines as [|first rest]; [done|].
  unfold applyCornerDetection, turns. cbn [length seq fold_left sweepAll].
  rewrite iteration_0.
  apply (turns_from_sweep rest [] first).
Qed.

(** A property of single lines that the loop body keeps holds of every line
    of the result when it holds of every line of the input. *)
Lemma sweep_Forall (P : LineEl -> Prop) :
  (forall lastLine thisLine,
     P lastLine -> P thisLine ->
     P (fst (detectPair boxWidth align lastLine thisLine)) /\
     P (snd (detectPair boxWidth align lastLine thisLine))) ->
  forall rest lastLine,
    P lastLine -> Forall P rest -> Forall P (sweep lastLine rest).
Proof.
  intros Hstep rest.
  induction rest as [|thisLine rest IH]; intros lastLine Hl Hrest.
  - by constructor.
  - inversion Hrest as [|? ? Ht Hrest']; subst.
    destruct (Hstep lastLine thisLine Hl Ht) as [Hl' Ht'].
    cbn [sweep].
    destruct (detectPair boxWidth align lastLine thisLine) as [l' t'].
    constructor; [done|]. by apply IH.
Qed.

Lemma applyCornerDetection_Forall (P : LineEl -> Prop) :
  (forall lastLine thisLine,
     P lastLine -> P thisLine ->
     P (fst (detectPair boxWidth align lastLine thisLine)) /\
     P (snd (detectPair boxWidth align lastLine thisLine))) ->
  forall lines,
    Forall P lines -> Forall P (applyCornerDetection boxWidth align lines).
Proof.
  intros Hstep lines Hlines. rewrite applyCornerDetection_sweepAll.
  destruct lines as [|first rest]; [done|].
  inversion Hlines; subst. by apply sweep_Forall.
Qed.

End Sweep.

(** ** What a pass does to the edges of the lines *)

(** The marks a line carries on its top and on its bottom edge. *)
Definition roundedTop (el : LineEl) : bool :=
  hasClass "corner-tl" el || hasClass "corner-tr" el.

Definition roundedBottom (el : LineEl) : bool :=
  hasClass "corner-bl" el || hasClass "corner-br" el.

Definition weldedTop (el : LineEl) : bool := hasClass "connect-t" el.

Definition weldedBottom (el : LineEl) : bool := hasClass "connect-b" el.

Definition topMarks (el : LineEl) : bool * bool * bool :=
  (hasClass "corner-tl" el, hasClass "corner-tr" el, hasClass "connect-t" el).

Definition bottomMarks (el : LineEl) : bool * bool * bool :=
  (hasClass "corner-bl" el, hasClass "corner-br" el, hasClass "connect-b" el).

Definition noMarks : bool * bool * bool := (false, false, false).

Lemma fresh_marks (el : LineEl) :
  fresh el -> topMarks el = noMarks /\ bottomMarks el = noMarks.
Proof.
  intros [Hc _]. unfold topMarks, bottomMarks, hasClass. by rewrite Hc.
Qed.

Lemma strictNe_left_or_right (align : jsstring) :
  strictNe align (lit "left") || strictNe align (lit "right") = true.
Proof.
  unfold strictNe, strictEq.
  destruct (decide (align = lit "left")) as [->|Hne]; [reflexivity|].
  by rewrite (bool_decide_eq_false_2 (align = lit "left")) by done.
Qed.

Section Edges.

Variable boxWidth : Z -> Z.
Variable align : jsstring.

Lemma marks_roundTop (el : LineEl) :
  topMarks (roundTop align el)
  = (strictNe align (lit "left") || hasClass "corner-tl" el,
     strictNe align (lit "right") || hasClass "corner-tr" el,
     hasClass "connect-t" el) /\
  bottomMarks (roundTop align el) = bottomMarks el.
Proof.
  unfold roundTop, topMarks, bottomMarks.
  destruct (strictNe align (lit "left")), (strictNe align (lit "right"));
    rewrite ?hasClass_add; split; reflexivity.
Qed.

Lemma marks_roundBottom (el : LineEl) :
  bottomMarks (roundBottom align el)
  = (strictNe align (lit "left") || hasClass "corner-bl" el,
     strictNe align (lit "right") || hasClass "corner-br" el,
     hasClass "connect-b" el) /\
  topMarks (roundBottom align el) = topMarks el.
Proof.
  unfold roundBottom, topMarks, bottomMarks.
  destruct (strictNe align (lit "left")), (strictNe align (lit "right"));
    rewrite ?hasClass_add; split; reflexivity.
Qed.

Lemma marks_connect_b (width : Z) (el : LineEl) :
  bottomMarks (connect "connect-b" width el)
  = (hasClass "corner-bl" el, hasClass "corner-br" el, true) /\
  topMarks (connect "connect-b" width el) = topMarks el.
Proof.
  unfold connect, topMarks, bottomMarks.
  rewrite !hasClass_set_styleWidth, !hasClass_add. split; reflexivity.
Qed.

Lemma marks_connect_t (width : Z) (el : LineEl) :
  topMarks (connect "connect-t" width el)
  = (hasClass "corner-tl" el, hasClass "corner-tr" el, true) /\
  bottomMarks (connect "connect-t" width el) = bottomMarks el.
Proof.
  unfold connect, topMarks, bottomMarks.
  rewrite !hasClass_set_styleWidth, !hasClass_add. split; reflexivity.
Qed.

(** The loop body writes the bottom edge of the upper line and the top edge
    of the lower line, and no other edge. *)
Lemma detectPair_outer_marks (lastLine thisLine : LineEl) :
  topMarks (fst (detectPair boxWidth align lastLine thisLine))
    = topMarks lastLine /\
  bottomMarks (snd (detectPair boxWidth align lastLine thisLine))
    = bottomMarks thisLine.
Proof.
  rewrite detectPair_scenario.
  destruct (scenario boxWidth align lastLine thisLine); cbn [fst snd].
  - split; [done|apply marks_roundTop].
  - split; [apply marks_roundBottom|done].
  - split; [apply marks_connect_b|apply marks_connect_t].
Qed.

(** On a pair whose facing edges carry no mark yet, it leaves exactly one
    of three treatments. *)
Lemma detectPair_inner_marks (lastLine thisLine : LineEl) :
  bottomMarks lastLine = noMarks -> topMarks thisLine = noMarks ->
  (bottomMarks (fst (detectPair boxWidth align lastLine thisLine)),
   topMarks (snd (detectPair boxWidth align lastLine thisLine)))
  = match scenario boxWidth align lastLine thisLine with
    | Narrower =>
        (noMarks,
         (strictNe align (lit "left"), strictNe align (lit "right"), false))
    | Wider =>
        ((strictNe align (lit "left"), strictNe align (lit "right"), false),
         noMarks)
    | Similar => ((false, false, true), (false, false, true))
    end.
Proof.
  intros Hb Ht. rewrite detectPair_scenario.
  unfold noMarks, topMarks, bottomMarks in Hb, Ht.
  injection Hb as Hbl Hbr Hcb. injection Ht as Htl Htr Hct.
  destruct (scenario boxWidth align lastLine thisLine); cbn [fst snd].
  - rewrite (proj1 (marks_roundTop thisLine)), Htl, Htr, Hct, !orb_false_r.
    unfold bottomMarks. by rewrite Hbl, Hbr, Hcb.
  - rewrite (proj1 (marks_roundBottom lastLine)), Hbl, Hbr, Hcb, !orb_false_r.
    unfold topMarks. by rewrite Htl, Htr, Hct.
  - rewrite (proj1 (marks_connect_b _ lastLine)),
      (proj1 (marks_connect_t _ thisLine)).
    by rewrite Hbl, Hbr, Htl, Htr.
Qed.

(** The first line of a sweep keeps the top edge it came with. *)
Lemma sweep_head (lastLine : LineEl) (rest : list LineEl) :
  exists first others,
    sweep boxWidth align lastLine rest = first :: others /\
    topMarks first = topMarks lastLine /\
    (styleWidth lastLine = None \/
     exists m m', styleWidth lastLine = Some m /\ styleWidth first = Some m' /\
                  (m' = m \/ (boxWidth m <= m')%Z)).
Proof.
  destruct rest as [|thisLine rest]; cbn [sweep].
  - exists lastLine, []. split; [done|]. split; [done|].
    destruct (styleWidth lastLine) as [m|] eqn:E; [|by left].
    right. exists m, m. auto.
  - pose proof (detectPair_outer_marks lastLine thisLine) as [Htop _].
    assert (styleWidth lastLine = None \/
            exists m m', styleWidth lastLine = Some m /\
              styleWidth (fst (detectPair boxWidth align lastLine thisLine))
              = Some m' /\ (m' = m \/ (boxWidth m <= m')%Z)) as Hw.
    { destruct (styleWidth lastLine) as [m|] eqn:E; [|by left].
      right. exists m. rewrite detectPair_scenario.
      destruct (scenario boxWidth align lastLine thisLine); cbn [fst snd].
      - exists m. auto.
      - exists m. split; [done|]. split; [|by left].
        unfold roundBottom.
        by destruct (strictNe align (lit "left")),
             (strictNe align (lit "right")).
      - eexists. split; [done|]. split; [reflexivity|]. right.
        unfold offsetWidth at 1. rewrite E. lia. }
    destruct (detectPair boxWidth align lastLine thisLine) as [l' t'].
    exists l', (sweep boxWidth align t' rest). auto.
Qed.

End Edges.

(** The treatment a boundary gets in each case: the marks on the bottom edge
    of the upper line and on the top edge of the lower line. *)
Definition treatment (align : jsstring) (sc : Scenario)
  : (bool * bool * bool) * (bool * bool * bool) :=
  match sc with
  | Narrower =>
      (noMarks, (strictNe align (lit "left"), strictNe align (lit "right"), false))
  | Wider =>
      ((strictNe align (lit "left"), strictNe align (lit "right"), false), noMarks)
  | Similar => ((false, false, true), (false, false, true))
  end.

(** Every two adjacent elements of a list are related. *)
Definition chain (R : LineEl -> LineEl -> Prop) (lines : list LineEl) : Prop :=
  forall k a b, lines !! k = Some a -> lines !! S k = Some b -> R a b.



Lemma sweep_boundaries (boxWidth : Z -> Z) (align : jsstring)
    (rest : list LineEl) (lastLine : LineEl) :
  bottomMarks lastLine = noMarks -> Forall fresh rest ->
  chain (fun a b => exists sc, (bottomMarks a, topMarks b) = treatment align sc)
        (sweep boxWidth align lastLine rest).
Proof.
  revert lastLine.
  induction rest as [|thisLine rest IH]; intros lastLine Hb Hrest k a b Ha Hb'.
  { destruct k; discriminate. }
  inversion Hrest as [|? ? Hfresh Hrest']; subst.
  pose proof (detectPair_inner_marks boxWidth align lastLine thisLine Hb
                (proj1 (fresh_marks _ Hfresh))) as Hin.
  pose proof (detectPair_outer_marks boxWidth align lastLine thisLine)
    as [_ Hout].
  rewrite (proj2 (fresh_marks _ Hfresh)) in Hout.
  cbn [sweep] in Ha, Hb'.
  destruct (detectPair boxWidth align lastLine thisLine) as [l' t'].
  cbn [fst snd] in Hin, Hout.
  destruct k as [|k].
  - destruct (sweep_head boxWidth align t' rest)
      as (first & others & Hsweep & Htop & _).
    rewrite Hsweep in Hb'. simpl in Ha, Hb'.
    injection Ha as <-. injection Hb' as <-.
    exists (scenario boxWidth align lastLine thisLine).
    rewrite Htop, Hin. by destruct (scenario boxWidth align lastLine thisLine).
  - by apply (IH t' Hout Hrest' k).
Qed.

(** X1.  The pass unrolls from the top: after the turn on the first pair the
    first line is final, and the rest of the pass is the pass on the
    remaining lines, headed by the second line as that turn left it. *)
Theorem pass_unrolls (boxWidth : Z -> Z) (align : jsstring)
    (lastLine thisLine : LineEl) (rest : list LineEl) :
  applyCornerDetection boxWidth align (lastLine :: thisLine :: rest)
  = fst (detectPair boxWidth align lastLine thisLine)
      :: applyCornerDetection boxWidth align
           (snd (detectPair boxWidth align lastLine thisLine) :: rest).
Proof.
  rewrite !applyCornerDetection_sweepAll. cbn [sweepAll sweep].
  by destruct (detectPair boxWidth align lastLine thisLine).
Qed.

(** X2.  With left alignment a pass adds no [corner-tl] and no [corner-bl]:
    lines that come in without a left corner leave without one.  With
    right alignment the same holds of [corner-tr] and [corner-br]. *)
Theorem flush_side_never_rounded :
  (forall boxWidth lines,
     Forall (fun el => roundTopLeft (decoration el) = false /\
                       roundBottomLeft (decoration el) = false) lines ->
     Forall (fun el => roundTopLeft (decoration el) = false /\
                       roundBottomLeft (decoration el) = false)
            (applyCornerDetection boxWidth (lit "left") lines)) /\
  (forall boxWidth lines,
     Forall (fun el => roundTopRight (decoration el) = false /\
                       roundBottomRight (decoration el) = false) lines ->
     Forall (fun el => roundTopRight (decoration el) = false /\
                       roundBottomRight (decoration el) = false)
            (applyCornerDetection boxWidth (lit "right") lines)).
Proof.
  split; intros boxWidth lines; apply applyCornerDetection_Forall;
    intros lastLine thisLine [Hl1 Hl2] [Ht1 Ht2]; rewrite detectPair_scenario;
    destruct (scenario _ _ lastLine thisLine); cbn [fst snd];
    rewrite ?decoration_roundTop, ?decoration_roundBottom,
      ?decoration_connect by auto;
    simpl; rewrite ?Hl1, ?Hl2, ?Ht1, ?Ht2; done.
Qed.

Lemma flush_side_never_rounded_witness :
  Forall (fun el => roundTopLeft (decoration el) = false /\
                    roundBottomLeft (decoration el) = false)
         (applyCornerDetection borderBox (lit "left")
            [measuredLine 60 4; measuredLine 100 4; measuredLine 80 4]).
Proof.
  apply (proj1 flush_side_never_rounded borderBox).
  repeat constructor.
Defined.

(** X3.  After a pass over fresh lines every boundary between two adjacent
    lines has exactly one treatment: the lower line has a rounded top
    corner, or the upper line has a rounded bottom corner, or the two are
    welded; and the upper line carries [connect-b] exactly when the lower
    one carries [connect-t]. *)
Theorem every_boundary_treated_once (boxWidth : Z -> Z) (align : jsstring)
    (lines : list LineEl) (k : nat) (a b : LineEl) :
  Forall fresh lines ->
  applyCornerDetection boxWidth align lines !! k = Some a ->
  applyCornerDetection boxWidth align lines !! S k = Some b ->
  weldedBottom a = weldedTop b /\
  ((roundedTop b = true /\ roundedBottom a = false /\ weldedTop b = false) \/
   (roundedTop b = false /\ roundedBottom a = true /\ weldedTop b = false) \/
   (roundedTop b = false /\ roundedBottom a = false /\ weldedTop b = true)).
Proof.
  intros Hfresh Ha Hb. rewrite applyCornerDetection_sweepAll in Ha, Hb.
  destruct lines as [|first rest]; [discriminate|].
  inversion Hfresh as [|? ? Hf Hrest]; subst.
  destruct (sweep_boundaries boxWidth align rest first
              (proj2 (fresh_marks _ Hf)) Hrest k a b Ha Hb) as [sc Hsc].
  pose proof (strictNe_left_or_right align) as Hside.
  unfold weldedBottom, weldedTop, roundedTop, roundedBottom.
  unfold bottomMarks, topMarks in Hsc.
  destruct sc; cbn [treatment noMarks] in Hsc;
    injection Hsc as -> -> -> -> -> ->; (split; [reflexivity|]).
  - left. split; [exact Hside|done].
  - right; left. split; [done|]. split; [exact Hside|done].
  - right; right. done.
Qed.

Lemma every_boundary_treated_once_witness :
  weldedBottom (connect "connect-b" 100 (measuredLine 100 4))
  = weldedTop (connect "connect-t" 100 (measuredLine 96 4)) /\
  ((roundedTop (connect "connect-t" 100 (measuredLine 96 4)) = true /\
    roundedBottom (connect "connect-b" 100 (measuredLine 100 4)) = false /\
    weldedTop (connect "connect-t" 100 (measuredLine 96 4)) = false) \/
   (roundedTop (connect "connect-t" 100 (measuredLine 96 4)) = false /\
    roundedBottom (connect "connect-b" 100 (measuredLine 100 4)) = true /\
    weldedTop (connect "connect-t" 100 (measuredLine 96 4)) = false) \/
   (roundedTop (connect "connect-t" 100 (measuredLine 96 4)) = false /\
    roundedBottom (connect "connect-b" 100 (measuredLine 100 4)) = false /\
    weldedTop (connect "connect-t" 100 (measuredLine 96 4)) = true)).
Proof.
  apply (every_boundary_treated_once borderBox (lit "center")
           [measuredLine 100 4; measuredLine 96 4] 0).
  - repeat constructor.
  - reflexivity.
  - reflexivity.
Defined.

Lemma sweep_last_bottom (boxWidth : Z -> Z) (align : jsstring)
    (rest : list LineEl) (lastLine : LineEl) :
  exists z z',
    last (lastLine :: rest) = Some z /\
    last (sweep boxWidth align lastLine rest) = Some z' /\
    bottomMarks z' = bottomMarks z.
Proof.
  revert lastLine. induction rest as [|thisLine rest IH]; intros lastLine.
  - exists lastLine, lastLine. done.
  - destruct (detectPair_outer_marks boxWidth align lastLine thisLine)
      as [_ Hout].
    cbn [sweep].
    destruct (detectPair boxWidth align lastLine thisLine) as [l' t'].
    cbn [snd] in Hout.
    destruct (IH t') as (z & z' & Hz & Hz' & Hm).
    destruct (sweep_head boxWidth align t' rest)
      as (first & others & Hsweep & _).
    destruct rest as [|next rest].
    + simpl in Hz, Hz'. injection Hz as <-. injection Hz' as <-.
      exists thisLine, t'. simpl. by rewrite Hout.
    + exists z, z'. split; [exact Hz|]. split; [|exact Hm].
      rewrite Hsweep in *. exact Hz'.
Qed.

(** X4.  A pass leaves the outer edges of the caption alone, whatever the
    lines carry when it starts: the first line keeps the marks of its top
    edge and the last line those of its bottom edge. *)
Theorem outer_edges_untouched (boxWidth : Z -> Z) (align : jsstring)
    (lines : list LineEl) :
  (forall el el',
     lines !! 0%nat = Some el ->
     applyCornerDetection boxWidth align lines !! 0%nat = Some el' ->
     topMarks el' = topMarks el) /\
  (forall el el',
     last lines = Some el ->
     last (applyCornerDetection boxWidth align lines) = Some el' ->
     bottomMarks el' = bottomMarks el).
Proof.
  rewrite applyCornerDetection_sweepAll.
  destruct lines as [|first rest]; [split; intros; discriminate|].
  cbn [sweepAll]. split.
  - intros el el' [= <-] Hel'.
    destruct (sweep_head boxWidth align first rest)
      as (h & others & Hsweep & Htop & _).
    rewrite Hsweep in Hel'. by injection Hel' as <-.
  - intros el el' Hel Hel'.
    destruct (sweep_last_bottom boxWidth align rest first)
      as (z & z' & Hz & Hz' & Hm).
    congruence.
Qed.

Lemma outer_edges_untouched_witness :
  bottomMarks (roundTop (lit "center") (measuredLine 80 4))
  = bottomMarks (measuredLine 80 4).
Proof.
  apply (proj2 (outer_edges_untouched borderBox (lit "center")
                  [measuredLine 100 4; measuredLine 80 4]));
    reflexivity.
Defined.

(** A line that has an inline width is at least as wide as the layout made
    it. *)
Definition notNarrowed (el : LineEl) : Prop :=
  forall m, forcedWidth (decoration el) = Some m -> (fitWidth el <= m)%Z.

Lemma detectPair_notNarrowed (boxWidth : Z -> Z) (align : jsstring)
    (lastLine thisLine : LineEl) :
  (forall w, (w <= boxWidth w)%Z) ->
  notNarrowed lastLine -> notNarrowed thisLine ->
  notNarrowed (fst (detectPair boxWidth align lastLine thisLine)) /\
  notNarrowed (snd (detectPair boxWidth align lastLine thisLine)).
Proof.
  intros Hext Hl Ht.
  assert (forall el, notNarrowed el -> (fitWidth el <= offsetWidth boxWidth el)%Z)
    as Hoff.
  { intros el Hel. unfold offsetWidth.
    destruct (styleWidth el) as [m|] eqn:E; [|lia].
    specialize (Hel m E). specialize (Hext m). lia. }
  rewrite detectPair_scenario.
  destruct (scenario boxWidth align lastLine thisLine); cbn [fst snd].
  - split; [done|]. unfold roundTop.
    by destruct (strictNe align (lit "left")), (strictNe align (lit "right")).
  - split; [|done]. unfold roundBottom.
    by destruct (strictNe align (lit "left")), (strictNe align (lit "right")).
  - pose proof (Hoff _ Hl). pose proof (Hoff _ Ht).
    split; intros m [= <-]; simpl; lia.
Qed.

Lemma sweep_welds (boxWidth : Z -> Z) (align : jsstring)
    (rest : list LineEl) (lastLine : LineEl) :
  (forall w, (w <= boxWidth w)%Z) ->
  bottomMarks lastLine = noMarks -> Forall fresh rest ->
  chain (fun a b =>
           weldedBottom a = true ->
           exists m m', forcedWidth (decoration a) = Some m /\
                        forcedWidth (decoration b) = Some m' /\ (m <= m')%Z)
        (sweep boxWidth align lastLine rest).
Proof.
  intros Hext. revert lastLine.
  induction rest as [|thisLine rest IH]; intros lastLine Hb Hrest k a b Ha Hb'.
  { destruct k; discriminate. }
  inversion Hrest as [|? ? Hfresh Hrest']; subst.
  pose proof (detectPair_inner_marks boxWidth align lastLine thisLine Hb
                (proj1 (fresh_marks _ Hfresh))) as Hin.
  pose proof (detectPair_outer_marks boxWidth align lastLine thisLine)
    as [_ Hout].
  rewrite (proj2 (fresh_marks _ Hfresh)) in Hout.
  pose proof (detectPair_scenario boxWidth align lastLine thisLine) as Hdp.
  cbn [sweep] in Ha, Hb'.
  destruct (detectPair boxWidth align lastLine thisLine) as [l' t'].
  cbn [fst snd] in Hin, Hout.
  destruct k as [|k]; [|by apply (IH t' Hout Hrest' k)].
  destruct (sweep_head boxWidth align t' rest)
    as (first & others & Hsweep & _ & Hwidth).
  rewrite Hsweep in Hb'. simpl in Ha, Hb'.
  injection Ha as <-. injection Hb' as <-.
  intros Hwelded. unfold weldedBottom in Hwelded.
  unfold bottomMarks in Hin.
  destruct (scenario boxWidth align lastLine thisLine);
    cbn [treatment noMarks] in Hin; injection Hin as _ _ Hcb _ _ _;
    try congruence.
  injection Hdp as -> ->.
  destruct Hwidth as [Hnone|(m & m' & Hm & Hm' & Hle)]; [discriminate|].
  exists m, m'. simpl in Hm. injection Hm as <-.
  split; [reflexivity|]. split; [exact Hm'|].
  destruct Hle as [->|Hle]; [lia|].
  match goal with |- (?w <= _)%Z => specialize (Hext w) end. lia.
Qed.

(** X5.  When the layout of an inline width is never narrower than that
    width (as with border-box sizing), a pass over fresh lines never makes a
    line narrower than its text: a forced width is at least the line's own
    width.  Down a weld the forced widths never decrease: the lower line of
    two welded lines is at least as wide as the upper one. *)
Theorem weld_never_narrows (boxWidth : Z -> Z) (align : jsstring)
    (lines : list LineEl) :
  (forall w, (w <= boxWidth w)%Z) ->
  Forall fresh lines ->
  Forall notNarrowed (applyCornerDetection boxWidth align lines) /\
  chain (fun a b =>
           weldedBottom a = true ->
           exists m m', forcedWidth (decoration a) = Some m /\
                        forcedWidth (decoration b) = Some m' /\ (m <= m')%Z)
        (applyCornerDetection boxWidth align lines).
Proof.
  intros Hext Hfresh. split.
  - apply applyCornerDetection_Forall.
    + intros l t. by apply detectPair_notNarrowed.
    + eapply Forall_impl; [exact Hfresh|].
      intros el [_ Hw] m. simpl. congruence.
  - rewrite applyCornerDetection_sweepAll.
    destruct lines as [|first rest]; [by intros [|?] ? ? ?|].
    inversion Hfresh as [|? ? Hf Hrest]; subst.
    apply sweep_welds; [done| |done]. by apply fresh_marks.
Qed.

Lemma weld_never_narrows_witness :
  Forall notNarrowed
    (applyCornerDetection borderBox (lit "left")
       [measuredLine 92 4; measuredLine 96 4; measuredLine 100 4]) /\
  chain (fun a b =>
           weldedBottom a = true ->
           exists m m', forcedWidth (decoration a) = Some m /\
                        forcedWidth (decoration b) = Some m' /\ (m <= m')%Z)
        (applyCornerDetection borderBox (lit "left")
           [measuredLine 92 4; measuredLine 96 4; measuredLine 100 4]).
Proof.
  apply (weld_never_narrows borderBox (lit "left")
           [measuredLine 92 4; measuredLine 96 4; measuredLine 100 4]).
  - intros w. unfold borderBox. lia.
  - repeat constructor.
Defined.

(** ** Captions of a known shape *)














(** ** The width tests *)









(** ** The lines of the box *)

(** [pieces.join(sep)] for a separator of one code unit. *)
Fixpoint join (sep : N) (pieces : list jsstring) : jsstring :=
  match pieces with
  | [] => []
  | [piece] => piece
  | piece :: rest => piece ++ sep :: join sep rest
  end.

(** The part of a string before the first [sep]. *)
Fixpoint upTo (sep : N) (s : jsstring) : jsstring :=
  match s with
  | [] => []
  | c :: s' => if N.eqb c sep then [] else c :: upTo sep s'
  end.

(** How often [sep] occurs in a string. *)
Definition occurrences (sep : N) (s : list N) : nat :=
  length (filter (fun c => c = sep) s).

Lemma split_head (sep : N) (s : jsstring) :
  split sep s !! 0%nat = Some (upTo sep s).
Proof.
  induction s as [|c s IH]; [done|].
  simpl. destruct (N.eqb c sep); [done|].
  destruct (split sep s) as [|piece rest]; [discriminate|].
  simpl in *. congruence.
Qed.

Lemma occurrences_cons (sep c : N) (s : jsstring) :
  occurrences sep (c :: s)
  = if N.eqb c sep then S (occurrences sep s) else occurrences sep s.
Proof.
  unfold occurrences. rewrite filter_cons.
  destruct (N.eqb_spec c sep) as [->|Hne].
  - by rewrite decide_True.
  - by rewrite decide_False.
Qed.

Lemma split_length (sep : N) (s : jsstring) :
  length (split sep s) = S (occurrences sep s).
Proof.
  induction s as [|c s IH]; [done|].
  rewrite occurrences_cons. cbn [split].
  destruct (N.eqb c sep).
  - cbn [length]. by rewrite IH.
  - destruct (split sep s) as [|piece rest]; [discriminate|]. exact IH.
Qed.

Lemma split_pieces (sep : N) (s : jsstring) :
  Forall (fun piece => sep ∉ piece) (split sep s).
Proof.
  induction s as [|c s IH]; simpl.
  - constructor; [|constructor]. apply not_elem_of_nil.
  - destruct (N.eqb_spec c sep) as [->|Hne].
    + constructor; [apply not_elem_of_nil|done].
    + destruct (split sep s) as [|piece rest] eqn:E;
        [by apply split_not_empty in E|].
      inversion IH; subst. constructor; [|done].
      intros Hin. apply elem_of_cons in Hin as [->|Hin]; done.
Qed.

Lemma join_split (sep : N) (s : jsstring) : join sep (split sep s) = s.
Proof.
  induction s as [|c s IH]; [done|].
  cbn [split].
  destruct (split sep s) as [|piece rest] eqn:E;
    [by apply split_not_empty in E|].
  destruct (N.eqb_spec c sep) as [->|Hne];
    destruct rest as [|next rest]; simpl in *; congruence.
Qed.

Lemma split_sublists (P : N -> Prop) (sep : N) (s : jsstring) :
  Forall P s -> Forall (Forall P) (split sep s).
Proof.
  induction 1 as [|c s Hc Hs IH]; simpl.
  - by repeat constructor.
  - destruct (N.eqb c sep); [by constructor|].
    destruct (split sep s) as [|piece rest]; [by repeat constructor|].
    inversion IH; subst. constructor; [by constructor|done].
Qed.

Lemma upTo_elem (sep x : N) (s : jsstring) : x ∈ upTo sep s -> x ∈ s.
Proof.
  induction s as [|c s IH]; simpl; [done|].
  destruct (N.eqb c sep); [by intros ?%elem_of_nil|].
  intros [Heq|Hin]%elem_of_cons.
  - rewrite Heq. left.
  - right. by apply IH.
Qed.

Lemma upTo_no_sep (sep : N) (s : jsstring) : sep ∉ upTo sep s.
Proof.
  induction s as [|c s IH]; simpl; [apply not_elem_of_nil|].
  destruct (N.eqb_spec c sep) as [Heq|Hne]; [apply not_elem_of_nil|].
  intros [Heq|Hin]%elem_of_cons; [congruence|done].
Qed.

Lemma upTo_id (sep : N) (s : jsstring) : sep ∉ s -> upTo sep s = s.
Proof.
  induction s as [|c s IH]; [done|].
  intros Hno. simpl. destruct (N.eqb_spec c sep) as [Heq|Hne].
  - exfalso. apply Hno. rewrite Heq. left.
  - f_equal. apply IH. intros H. apply Hno. by right.
Qed.

Lemma appendChild_fold (measure : jsstring -> JSNum -> Z * Q)
    (rawLines : list jsstring) (box : list LineEl) :
  fold_left (fun box line => appendChild box (createLine measure line))
            rawLines box
  = box ++ map (createLine measure) rawLines.
Proof.
  revert box. induction rawLines as [|line rawLines IH]; intros box; simpl.
  - by rewrite app_nil_r.
  - rewrite IH. unfold appendChild. by rewrite <- app_assoc.
Qed.

Lemma onchange_built (measure : jsstring -> JSNum -> Z * Q)
    (boxWidth : Z -> Z) (align value : jsstring) (box : list LineEl) :
  onchange measure boxWidth align value box
  = applyCornerDetection boxWidth align
      (map (createLine measure) (split newline value)).
Proof.
  unfold onchange. by rewrite removeAllChildNodes_empty, appendChild_fold.
Qed.

Lemma map_keeps {B : Type} (f : LineEl -> B) (boxWidth : Z -> Z)
    (align : jsstring) (lines : list LineEl) :
  (forall before after, keeps before after -> f after = f before) ->
  map f (applyCornerDetection boxWidth align lines) = map f lines.
Proof.
  intros Hf. apply map_ext_lookup; [apply applyCornerDetection_length|].
  intros k x y Hx Hy.
  destruct (keeps_turns boxWidth align (length lines) lines k y Hy)
    as (el' & Hel' & K).
  unfold applyCornerDetection in Hx. rewrite Hx in Hel'.
  injection Hel' as <-. by apply Hf.
Qed.

(** X11.  The text change handler puts one line in the box for every record
    of the text, empty records included: one more than the text has line
    breaks, whatever the box held before.  An empty text gives one line. *)
Theorem one_line_per_record (measure : jsstring -> JSNum -> Z * Q)
    (boxWidth : Z -> Z) (align value : jsstring) (box : list LineEl) :
  length (onchange measure boxWidth align value box)
  = S (occurrences newline value).
Proof.
  rewrite onchange_built, applyCornerDetection_length, length_map.
  apply split_length.
Qed.

(** X12.  After the handler the box shows, line by line, the part of each
    record before its first ["|"], with the scale read from what follows; no
    line's text holds a ["|"] or a line break.  For a text without ["|"] the
    texts of the lines, joined by line breaks, are the text as typed. *)
Theorem box_shows_the_text (measure : jsstring -> JSNum -> Z * Q)
    (boxWidth : Z -> Z) (align value : jsstring) (box : list LineEl) :
  map textContent (onchange measure boxWidth align value box)
    = map (upTo pipe) (split newline value) /\
  map fontScale (onchange measure boxWidth align value box)
    = map lineScale (split newline value) /\
  Forall (fun el => (pipe ∉ textContent el) /\ (newline ∉ textContent el))
         (onchange measure boxWidth align value box) /\
  (pipe ∉ value ->
   join newline (map textContent (onchange measure boxWidth align value box))
   = value).
Proof.
  assert (map textContent (onchange measure boxWidth align value box)
          = map (upTo pipe) (split newline value)) as Htext.
  { rewrite onchange_built, map_keeps by (intros ? ? (? & _); done).
    rewrite map_map. apply map_ext. intros line.
    unfold createLine, lineText. simpl. by rewrite split_head. }
  split; [exact Htext|]. split.
  { rewrite onchange_built, map_keeps by (intros ? ? (_ & ? & _); done).
    by rewrite map_map. }
  split.
  { apply Forall_forall. intros el Hel.
    apply (list_elem_of_fmap_2 textContent) in Hel.
    change (textContent <$> onchange measure boxWidth align value box)
      with (map textContent (onchange measure boxWidth align value box)) in Hel.
    rewrite Htext in Hel.
    apply list_elem_of_In, in_map_iff in Hel as (line & <- & Hline).
    split; [apply upTo_no_sep|].
    intros Hin%upTo_elem.
    pose proof (split_pieces newline value) as Hpieces.
    rewrite Forall_forall in Hpieces.
    by apply (Hpieces line); [apply list_elem_of_In|]. }
  intros Hno. rewrite Htext.
  assert (map (upTo pipe) (split newline value) = split newline value) as ->.
  { assert (Forall (fun line : jsstring => pipe ∉ line) (split newline value))
      as Hall.
    { assert (Forall (fun c => c <> pipe) value) as Hval.
      { apply Forall_forall. intros c Hc Heq. apply Hno. by rewrite <- Heq. }
      apply (split_sublists _ newline) in Hval.
      eapply Forall_impl; [exact Hval|]. intros line Hline Hin.
      rewrite Forall_forall in Hline. by apply (Hline pipe). }
    clear -Hall. induction Hall as [|line lines Hline _ IH]; [done|].
    simpl. f_equal; [by apply upTo_id|exact IH]. }
  apply join_split.
Qed.

Lemma box_shows_the_text_witness :
  join newline
       (map textContent
            (onchange (fun text scale => (100%Z, 4%Q)) borderBox (lit "left")
               (lit "ab") []))
  = lit "ab".
Proof.
  apply (proj2 (proj2 (proj2
           (box_shows_the_text (fun text scale => (100%Z, 4%Q)) borderBox
              (lit "left") (lit "ab") [])))).
  intros H. apply list_elem_of_In in H. simpl in H.
  repeat (destruct H as [H|H]; [discriminate H|]). exact H.
Defined.

(** ** The lines of the generated page *)

(** A record that holds nothing but white space. *)
Definition blank (line : list N) : Prop :=
  Forall (fun c => isStrWhiteSpaceChar c = true) line.

Lemma trimStart_nil_iff (s : jsstring) : trimStart s = [] <-> blank s.
Proof.
  unfold blank. induction s as [|c s IH]; simpl.
  - split; [constructor|done].
  - destruct (isStrWhiteSpaceChar c) eqn:E.
    + rewrite IH. split; intros H; [by constructor|].
      inversion H; assumption.
    + split; [done|]. intros H. inversion H; congruence.
Qed.

Lemma trimStart_head (s : jsstring) (c : N) (s' : jsstring) :
  trimStart s = c :: s' -> isStrWhiteSpaceChar c = false.
Proof.
  induction s as [|x s IH]; simpl; [done|].
  destruct (isStrWhiteSpaceChar x) eqn:E; [done|]. by intros [= <- _].
Qed.

Lemma trim_nil_iff (s : jsstring) : trim s = [] <-> blank s.
Proof.
  rewrite <- trimStart_nil_iff. unfold trim. split.
  - intros H. apply (f_equal (@rev N)) in H. rewrite rev_involutive in H.
    simpl in H. apply trimStart_nil_iff in H.
    destruct (trimStart s) as [|c s'] eqn:E; [done|].
    apply trimStart_head in E. unfold blank in H.
    apply Forall_rev in H. rewrite rev_involutive in H.
    inversion H; congruence.
  - intros ->. reflexivity.
Qed.

Lemma filter_trim (lines : list jsstring) :
  filter (fun line : jsstring => line <> []) (map trim lines)
  = map trim (filter (fun line => ~ blank line) lines).
Proof.
  induction lines as [|line lines IH]; [done|].
  cbn [map]. rewrite !filter_cons, IH.
  destruct (decide (trim line <> [])) as [Hne|Heq];
    destruct (decide (~ blank line)) as [Hnb|Hb]; try done.
  - exfalso. apply Hne. apply trim_nil_iff.
    by destruct (decide (blank line)).
  - exfalso. apply Hnb. apply trim_nil_iff.
    by destruct (decide (trim line = [])).
Qed.

Lemma createHTML_lines_filter (measure : jsstring -> JSNum -> Z * Q)
    (text : jsstring) :
  createHTML_lines measure text
  = map (fun line => createLine measure (trim line))
        (filter (fun line => ~ blank line) (split newline text)).
Proof.
  unfold createHTML_lines.
  change (filter (λ line : list N, line ≠ []) (map trim (split newline text)))
    with (filter (fun line : jsstring => line <> [])
                 (map trim (split newline text))).
  by rewrite filter_trim, map_map.
Qed.

(** X13.  [createHTML] writes one line per record of the text that holds
    something other than white space, built from the record trimmed; blank
    records give no line.  So a text of white space only gives an empty box,
    and the page never has more lines than the text has records. *)
Theorem page_drops_blank_records (measure : jsstring -> JSNum -> Z * Q)
    (text : jsstring) :
  createHTML_lines measure text
  = map (fun line => createLine measure (trim line))
        (filter (fun line => ~ blank line) (split newline text)) /\
  (blank text -> createHTML_lines measure text = []) /\
  (length (createHTML_lines measure text) <= S (occurrences newline text))%nat.
Proof.
  split; [apply createHTML_lines_filter|]. split.
  - intros Hblank. rewrite createHTML_lines_filter.
    apply (split_sublists _ newline) in Hblank.
    induction Hblank as [|line lines Hline _ IH]; [done|].
    rewrite filter_cons. by destruct (decide (~ blank line)).
  - rewrite createHTML_lines_filter, length_map, <- split_length.
    apply length_filter.
Qed.

Lemma page_drops_blank_records_witness :
  createHTML_lines (fun text scale => (100%Z, 4%Q)) [32%N; 10%N; 9%N] = [].
Proof.
  apply (proj1 (proj2 (page_drops_blank_records
                         (fun text scale => (100%Z, 4%Q)) [32%N; 10%N; 9%N]))).
  repeat constructor.
Defined.

(** ** Escaping the text of a line *)

(** [s.replace(/c/g, by)] for a pattern of one literal character and a
    replacement without [$]. *)
Fixpoint replaceAll (c : N) (replacement : jsstring) (s : jsstring)
  : jsstring :=
  match s with
  | [] => []
  | x :: s' =>
      (if N.eqb x c then replacement else [x]) ++ replaceAll c replacement s'
  end.

(** [escapeHTML] of [playwright-example.js]: five replacements in a row, of
    the ampersand, the two angle brackets, the double and the single
    quote (code units 38, 60, 62, 34 and 39). *)
Definition escapeHTML (text : jsstring) : jsstring :=
  replaceAll 39 (lit "&#039;")
    (replaceAll 34 (lit "&quot;")
       (replaceAll 62 (lit "&gt;")
          (replaceAll 60 (lit "&lt;")
             (replaceAll 38 (lit "&amp;") text)))).

(** What becomes of one code unit. *)
Definition escapeUnit (c : N) : jsstring :=
  if N.eqb c 38 then lit "&amp;"
  else if N.eqb c 60 then lit "&lt;"
  else if N.eqb c 62 then lit "&gt;"
  else if N.eqb c 34 then lit "&quot;"
  else if N.eqb c 39 then lit "&#039;"
  else [c].

(** The reading an HTML parser gives to the five character references. *)
Fixpoint unescapeHTML (s : jsstring) : jsstring :=
  match s with
  | [] => []
  | c :: s' =>
      if N.eqb c 38 then
        match s' with
        | 97%N :: 109%N :: 112%N :: 59%N :: s'' => 38%N :: unescapeHTML s''
        | 108%N :: 116%N :: 59%N :: s'' => 60%N :: unescapeHTML s''
        | 103%N :: 116%N :: 59%N :: s'' => 62%N :: unescapeHTML s''
        | 113%N :: 117%N :: 111%N :: 116%N :: 59%N :: s'' =>
            34%N :: unescapeHTML s''
        | 35%N :: 48%N :: 51%N :: 57%N :: 59%N :: s'' =>
            39%N :: unescapeHTML s''
        | _ => c :: unescapeHTML s'
        end
      else c :: unescapeHTML s'
  end.

(** The characters [escapeHTML] is there to remove. *)
Definition markup (c : N) : Prop := c = 60%N \/ c = 62%N \/ c = 34%N \/ c = 39%N.

Lemma replaceAll_app (c : N) (replacement a b : jsstring) :
  replaceAll c replacement (a ++ b)
  = replaceAll c replacement a ++ replaceAll c replacement b.
Proof.
  induction a as [|x a IH]; [done|].
  simpl. by rewrite IH, app_assoc.
Qed.

Lemma escapeHTML_app (a b : jsstring) :
  escapeHTML (a ++ b) = escapeHTML a ++ escapeHTML b.
Proof. unfold escapeHTML. by rewrite !replaceAll_app. Qed.

Lemma escapeHTML_unit (c : N) : escapeHTML [c] = escapeUnit c.
Proof.
  unfold escapeHTML, escapeUnit. cbn [replaceAll].
  destruct (N.eqb_spec c 38) as [->|H38]; [reflexivity|].
  cbn [replaceAll app].
  destruct (N.eqb_spec c 60) as [->|H60]; [reflexivity|].
  cbn [replaceAll app].
  destruct (N.eqb_spec c 62) as [->|H62]; [reflexivity|].
  cbn [replaceAll app].
  destruct (N.eqb_spec c 34) as [->|H34]; [reflexivity|].
  cbn [replaceAll app].
  destruct (N.eqb_spec c 39) as [->|H39]; reflexivity.
Qed.

Lemma escapeHTML_cons (c : N) (text : jsstring) :
  escapeHTML (c :: text) = escapeUnit c ++ escapeHTML text.
Proof.
  change (c :: text) with ([c] ++ text).
  by rewrite escapeHTML_app, escapeHTML_unit.
Qed.

Lemma escapeUnit_plain (c : N) :
  c <> 38%N -> ~ markup c -> escapeUnit c = [c].
Proof.
  unfold markup, escapeUnit. intros H38 Hm.
  destruct (N.eqb_spec c 38); [done|].
  destruct (N.eqb_spec c 60); [tauto|].
  destruct (N.eqb_spec c 62); [tauto|].
  destruct (N.eqb_spec c 34); [tauto|].
  destruct (N.eqb_spec c 39); [tauto|]. done.
Qed.

Lemma escapeUnit_cases (c : N) :
  (c = 38%N /\ escapeUnit c = lit "&amp;") \/
  (c = 60%N /\ escapeUnit c = lit "&lt;") \/
  (c = 62%N /\ escapeUnit c = lit "&gt;") \/
  (c = 34%N /\ escapeUnit c = lit "&quot;") \/
  (c = 39%N /\ escapeUnit c = lit "&#039;") \/
  (c <> 38%N /\ ~ markup c /\ escapeUnit c = [c]).
Proof.
  unfold markup, escapeUnit.
  destruct (N.eqb_spec c 38); [by left|]. right.
  destruct (N.eqb_spec c 60); [by left|]. right.
  destruct (N.eqb_spec c 62); [by left|]. right.
  destruct (N.eqb_spec c 34); [by left|]. right.
  destruct (N.eqb_spec c 39); [by left|]. right.
  repeat split; [done|tauto].
Qed.

(** X15.  [escapeHTML] escapes every character once and on its own: the
    five replacements in a row amount to one pass that maps each character
    by [escapeUnit], so no entity an earlier replacement wrote is escaped
    again by a later one.  It follows that escaping distributes over
    concatenation, that a text without the five characters is unchanged,
    and that no text gets shorter. *)
Theorem escapeHTML_one_pass (text : jsstring) :
  escapeHTML text = flat_map escapeUnit text /\
  (forall a b, escapeHTML (a ++ b) = escapeHTML a ++ escapeHTML b) /\
  (Forall (fun c => c <> 38%N /\ ~ markup c) text -> escapeHTML text = text) /\
  (length text <= length (escapeHTML text))%nat.
Proof.
  assert (forall t, escapeHTML t = flat_map escapeUnit t) as Hflat.
  { induction t as [|c t IH]; [done|].
    by rewrite escapeHTML_cons, IH. }
  split; [apply Hflat|]. split; [apply escapeHTML_app|]. split.
  - induction 1 as [|c t [H38 Hm] _ IH]; [done|].
    by rewrite escapeHTML_cons, IH, escapeUnit_plain.
  - induction text as [|c t IH]; [done|].
    rewrite escapeHTML_cons, length_app. simpl.
    assert (1 <= length (escapeUnit c))%nat; [|lia].
    destruct (escapeUnit_cases c)
      as [[_ ->]|[[_ ->]|[[_ ->]|[[_ ->]|[[_ ->]|(_ & _ & ->)]]]]];
      simpl; lia.
Qed.

Lemma escapeHTML_one_pass_witness : escapeHTML (lit "plain") = lit "plain".
Proof.
  apply (proj1 (proj2 (proj2 (escapeHTML_one_pass (lit "plain"))))).
  unfold markup. repeat constructor; try discriminate;
    intros [H|[H|[H|H]]]; discriminate H.
Defined.

(** X16.  The escaped text holds no angle bracket and no quote, whatever
    the text. *)
Theorem escapeHTML_removes_markup (text : jsstring) :
  Forall (fun c => ~ markup c) (escapeHTML text).
Proof.
  induction text as [|c t IH]; [constructor|].
  rewrite escapeHTML_cons. apply Forall_app. split; [|exact IH].
  unfold markup.
  destruct (escapeUnit_cases c)
    as [[_ ->]|[[_ ->]|[[_ ->]|[[_ ->]|[[_ ->]|(_ & Hm & ->)]]]]];
    repeat constructor; try exact Hm;
    intros [H|[H|[H|H]]]; discriminate H.
Qed.

(** X17.  Escaping loses nothing: reading the five character references
    back gives the text, so two different texts never have the same
    escape. *)
Theorem escapeHTML_round_trip :
  (forall text, unescapeHTML (escapeHTML text) = text) /\
  (forall a b, escapeHTML a = escapeHTML b -> a = b).
Proof.
  assert (forall text, unescapeHTML (escapeHTML text) = text) as Hback.
  { induction text as [|c t IH]; [done|].
    rewrite escapeHTML_cons.
    destruct (escapeUnit_cases c)
      as [[-> ->]|[[-> ->]|[[-> ->]|[[-> ->]|[[-> ->]|(H38 & _ & ->)]]]]];
      try (simpl; by rewrite IH).
    cbn [app unescapeHTML].
    destruct (N.eqb_spec c 38); [done|]. by rewrite IH. }
  split; [exact Hback|].
  intros a b Heq. by rewrite <- (Hback a), <- (Hback b), Heq.
Qed.

Lemma escapeHTML_round_trip_witness : lit "a<b" = lit "a<b".
Proof.
  apply (proj2 escapeHTML_round_trip (lit "a<b") (lit "a<b")).
  reflexivity.
Defined.

(** ** The colour controls *)

Module Colors.

Record Color : Type := mkColor {
  name : string;
  bg : string;
  fg : string;
  fgIfTransparent : option string
}.

Definition COLORS : list Color := [
  mkColor "white" "#ffffff" "#000000" (Some "#ffffff"%string);
  mkColor "black" "#000000" "#ffffff" None;
  mkColor "red" "#ea403f" "#ffffff" None;
  mkColor "orange" "#ff933d" "#ffffff" None;
  mkColor "yellow" "#f2cd46" "#000000" None;
  mkColor "lime-green" "#78c25e" "#ffffff" None;
  mkColor "teal" "#77c8a6" "#ffffff" None;
  mkColor "light-blue" "#3496f0" "#ffffff" None;
  mkColor "dark-blue" "#2344b2" "#ffffff" None;
  mkColor "violet" "#5756d4" "#ffffff" None;
  mkColor "pink" "#f7d7e9" "#000000" None;
  mkColor "brown" "#a3895b" "#ffffff" None;
  mkColor "dark-green" "#32523b" "#ffffff" None;
  mkColor "blue-gray" "#2f688c" "#ffffff" None;
  mkColor "light-gray" "#92979e" "#000000" None;
  mkColor "dark-gray" "#333333" "#ffffff" None
]%string.

(** A swatch: a radio input with its [dataset]. *)
Record Radio : Type := mkRadio {
  checked : bool;
  bgColor : string;
  fgColor : string;
  fgColorIfTransparent : string
}.

(** The body of [COLORS.forEach((color, i) => ...)]:
    [color.fgIfTransparent ?? color.fg] for the last field. *)
Definition createRadio (i : nat) (color : Color) : Radio :=
  {| checked := Nat.eqb i 0;
     bgColor := bg color;
     fgColor := fg color;
     fgColorIfTransparent := default (fg color) (fgIfTransparent color) |}.

(** The controls and the two style properties of the box they write. *)
Record Panel : Type := mkPanel {
  radios : list Radio;
  transparentBackground : bool;
  bgVar : string;
  fgVar : string;
  customBg : string;
  customFg : string
}.

(** What an [<input type="color">] keeps of a value assigned to it: a valid
    simple colour in lower case, and ["#000000"] for anything else. *)
Definition isLowerHex (a : ascii) : bool :=
  let n := nat_of_ascii a in
  (Nat.leb 48 n && Nat.leb n 57) || (Nat.leb 97 n && Nat.leb n 102).

Definition isUpperHex (a : ascii) : bool :=
  let n := nat_of_ascii a in Nat.leb 65 n && Nat.leb n 70.

Definition lowerHex (a : ascii) : ascii :=
  if isUpperHex a then ascii_of_nat (nat_of_ascii a + 32) else a.

Fixpoint mapString (f : ascii -> ascii) (s : string) : string :=
  match s with
  | EmptyString => EmptyString
  | String a s' => String (f a) (mapString f s')
  end.

Fixpoint allString (p : ascii -> bool) (s : string) : bool :=
  match s with
  | EmptyString => true
  | String a s' => p a && allString p s'
  end.

Definition validSimpleColor (s : string) : bool :=
  match s with
  | String "#" digits =>
      Nat.eqb (String.length digits) 6
      && allString (fun a => isLowerHex a || isUpperHex a) digits
  | _ => false
  end.

Definition colorValue (v : string) : string :=
  if validSimpleColor v then mapString lowerHex v else "#000000".

Definition alpha (isTransparent : bool) : string :=
  if isTransparent then "c0" else "".

(** [applyColors(bgColor, fgColor)]. *)
Definition applyColors (bgColor fgColor : string) (p : Panel) : Panel :=
  let isTransparent := transparentBackground p in
  {| radios := radios p;
     transparentBackground := transparentBackground p;
     bgVar := String.append bgColor (alpha isTransparent);
     fgVar := fgColor;
     customBg := colorValue bgColor;
     customFg := colorValue fgColor |}.

(** The [onchange] of a swatch, with the swatch as [evt.target]. *)
Definition swatchChange (target : Radio) (p : Panel) : Panel :=
  let fg := if transparentBackground p then fgColorIfTransparent target
            else fgColor target in
  applyColors (bgColor target) fg p.

Definition uncheck (el : Radio) : Radio :=
  {| checked := false; bgColor := bgColor el; fgColor := fgColor el;
     fgColorIfTransparent := fgColorIfTransparent el |}.

(** [customBgColorEl.oninput] and [customFgColorEl.oninput]. *)
Definition customBgInput (p : Panel) : Panel :=
  {| radios := map uncheck (radios p);
     transparentBackground := transparentBackground p;
     bgVar := String.append (customBg p) (alpha (transparentBackground p));
     fgVar := fgVar p;
     customBg := customBg p;
     customFg := customFg p |}.

Definition customFgInput (p : Panel) : Panel :=
  {| radios := map uncheck (radios p);
     transparentBackground := transparentBackground p;
     bgVar := bgVar p;
     fgVar := customFg p;
     customBg := customBg p;
     customFg := customFg p |}.

(** [querySelector('input[type=radio]:checked')]: the first checked one. *)
Definition firstChecked (els : list Radio) : option Radio :=
  List.find checked els.

(** [transparentBackgroundCheckboxEl.onchange]. *)
Definition transparentChange (p : Panel) : Panel :=
  match firstChecked (radios p) with
  | Some el => swatchChange el p
  | None => customBgInput p
  end.

(** What the user does, and what the browser does before the handler runs:
    a click on swatch [i] checks it and unchecks the others of its group (no
    event when it is checked already or is not there); a pick in a colour
    well sets its value; a click on the check box flips it. *)
Inductive Action : Type :=
| ClickSwatch (i : nat)
| PickBg (value : string)
| PickFg (value : string)
| ClickTransparent.

Definition checkOnly (i : nat) (els : list Radio) : list Radio :=
  imap (fun j el => {| checked := Nat.eqb j i; bgColor := bgColor el;
                       fgColor := fgColor el;
                       fgColorIfTransparent := fgColorIfTransparent el |}) els.

Definition withRadios (els : list Radio) (p : Panel) : Panel :=
  {| radios := els; transparentBackground := transparentBackground p;
     bgVar := bgVar p; fgVar := fgVar p;
     customBg := customBg p; customFg := customFg p |}.

Definition act (p : Panel) (a : Action) : Panel :=
  match a with
  | ClickSwatch i =>
      match radios p !! i with
      | Some el =>
          if checked el then p
          else
            let p := withRadios (checkOnly i (radios p)) p in
            match radios p !! i with
            | Some target => swatchChange target p
            | None => p
            end
      | None => p
      end
  | PickBg value =>
      customBgInput
        {| radios := radios p; transparentBackground := transparentBackground p;
           bgVar := bgVar p; fgVar := fgVar p;
           customBg := colorValue value; customFg := customFg p |}
  | PickFg value =>
      customFgInput
        {| radios := radios p; transparentBackground := transparentBackground p;
           bgVar := bgVar p; fgVar := fgVar p;
           customBg := customBg p; customFg := colorValue value |}
  | ClickTransparent =>
      transparentChange
        {| radios := radios p;
           transparentBackground := negb (transparentBackground p);
           bgVar := bgVar p; fgVar := fgVar p;
           customBg := customBg p; customFg := customFg p |}
  end.

(** The script as it loads: the swatches are created, the first one checked,
    and the loop that installs their handlers fires the handler of the
    checked one.  The page supplies the state of the check box and whatever
    the style properties and colour wells held. *)
Definition load (page : Panel) : Panel :=
  let p := withRadios (imap createRadio COLORS) page in
  fold_left (fun p el => if checked el then swatchChange el p else p)
            (radios p) p.

Definition run (actions : list Action) (page : Panel) : Panel :=
  fold_left act actions (load page).

(** The [dataset] of a swatch. *)
Definition data (el : Radio) : string * string * string :=
  (bgColor el, fgColor el, fgColorIfTransparent el).

(** The colours of a swatch are values a colour well keeps as they are. *)
Definition wellFormed (d : string * string * string) : Prop :=
  let '(b, f, ft) := d in
  colorValue b = b /\ colorValue f = f /\ colorValue ft = ft.

(** What the handlers keep true of the panel. *)
Record Shown (p : Panel) : Prop := {
  shown_table : map data (radios p) = map data (imap createRadio COLORS);
  shown_one :
    forall i j a b, radios p !! i = Some a -> radios p !! j = Some b ->
                    checked a = true -> checked b = true -> i = j;
  shown_bg :
    bgVar p = String.append (customBg p) (alpha (transparentBackground p));
  shown_fg : fgVar p = customFg p;
  shown_bg_value : colorValue (customBg p) = customBg p;
  shown_fg_value : colorValue (customFg p) = customFg p;
  shown_swatch :
    forall el, firstChecked (radios p) = Some el ->
               customBg p = bgColor el /\
               customFg p = (if transparentBackground p
                             then fgColorIfTransparent el else fgColor el)
}.

Lemma lowerHex_spec (a : ascii) :
  isLowerHex a || isUpperHex a = true ->
  isLowerHex (lowerHex a) = true /\ lowerHex (lowerHex a) = lowerHex a.
Proof.
  destruct a as [[] [] [] [] [] [] [] []]; vm_compute; intros H;
    first [discriminate H | split; reflexivity].
Qed.

Lemma colorValue_idempotent (v : string) :
  colorValue (colorValue v) = colorValue v.
Proof.
  assert (colorValue v = if validSimpleColor v then mapString lowerHex v
                         else "#000000"%string) as Hcv by reflexivity.
  destruct (validSimpleColor v) eqn:Hv; rewrite Hcv; [|reflexivity].
  clear Hcv. destruct v as [|a digits]; [discriminate|].
  unfold validSimpleColor in Hv.
  destruct (Ascii.eqb_spec a "#") as [->|Hne]; cycle 1.
  { destruct a as [[] [] [] [] [] [] [] []]; try discriminate Hv.
    by contradiction Hne. }
  apply andb_true_iff in Hv as [Hlen Hall].
  assert (forall d, allString (fun a => isLowerHex a || isUpperHex a) d = true ->
            allString (fun a => isLowerHex a || isUpperHex a)
                      (mapString lowerHex d) = true /\
            String.length (mapString lowerHex d) = String.length d /\
            mapString lowerHex (mapString lowerHex d) = mapString lowerHex d)
    as Hmap.
  { induction d as [|x d IH]; [done|]. simpl.
    intros [Hx Hd]%andb_true_iff.
    destruct (lowerHex_spec x Hx) as [Hlow Hidem].
    destruct (IH Hd) as (IH1 & IH2 & IH3).
    by rewrite Hlow, IH1, IH2, IH3, Hidem. }
  destruct (Hmap digits Hall) as (H1 & H2 & H3).
  unfold colorValue. cbn [mapString validSimpleColor].
  change (lowerHex "#") with "#"%char. cbn [validSimpleColor].
  by rewrite H1, H2, Hlen, H3.
Qed.

Lemma table_wellFormed :
  Forall wellFormed (map data (imap createRadio COLORS)).
Proof. repeat constructor. Qed.

Lemma radio_wellFormed (p : Panel) (el : Radio) :
  map data (radios p) = map data (imap createRadio COLORS) ->
  el ∈ radios p -> wellFormed (data el).
Proof.
  intros Htable Hel.
  pose proof table_wellFormed as Hall. rewrite <- Htable in Hall.
  rewrite Forall_forall in Hall. apply Hall.
  apply list_elem_of_In, in_map, list_elem_of_In. exact Hel.
Qed.

Lemma firstChecked_elem (els : list Radio) (el : Radio) :
  firstChecked els = Some el -> el ∈ els /\ checked el = true.
Proof.
  unfold firstChecked. intros H. apply find_some in H as [Hin Hc].
  split; [by apply list_elem_of_In|done].
Qed.

Lemma firstChecked_None (els : list Radio) :
  firstChecked els = None -> map uncheck els = els.
Proof.
  unfold firstChecked. induction els as [|el els IH]; [done|].
  simpl. destruct (checked el) eqn:E; [done|].
  intros H. rewrite (IH H). f_equal. destruct el; simpl in *. by subst.
Qed.

Lemma firstChecked_uncheck (els : list Radio) :
  firstChecked (map uncheck els) = None.
Proof. unfold firstChecked. by induction els. Qed.

Lemma data_uncheck (els : list Radio) : map data (map uncheck els) = map data els.
Proof. rewrite map_map. by apply map_ext. Qed.

Lemma uncheck_none (els : list Radio) (i : nat) (a : Radio) :
  map uncheck els !! i = Some a -> checked a = false.
Proof.
  change (map uncheck els) with (uncheck <$> els).
  rewrite list_lookup_fmap. by destruct (els !! i); intros [= <-].
Qed.

Lemma checkOnly_lookup (i j : nat) (els : list Radio) (a : Radio) :
  checkOnly i els !! j = Some a ->
  exists el, els !! j = Some el /\ data a = data el /\
             checked a = Nat.eqb j i.
Proof.
  unfold checkOnly. rewrite list_lookup_imap.
  destruct (els !! j) as [el|]; [|done]. simpl. intros [= <-]. by exists el.
Qed.

Lemma data_checkOnly (i : nat) (els : list Radio) :
  map data (checkOnly i els) = map data els.
Proof.
  apply list_eq. intros j.
  change (map data (checkOnly i els)) with (data <$> checkOnly i els).
  change (map data els) with (data <$> els).
  rewrite !list_lookup_fmap. unfold checkOnly. rewrite list_lookup_imap.
  by destruct (els !! j).
Qed.

Lemma firstChecked_checkOnly (i : nat) (els : list Radio) (el : Radio) :
  firstChecked (checkOnly i els) = Some el -> checkOnly i els !! i = Some el.
Proof.
  intros [Hin Hc]%firstChecked_elem.
  apply list_elem_of_lookup in Hin as [j Hj].
  destruct (checkOnly_lookup _ _ _ _ Hj) as (el' & _ & _ & Hchk).
  rewrite Hc in Hchk. symmetry in Hchk. apply Nat.eqb_eq in Hchk. by subst.
Qed.

Lemma swatchChange_Shown (p : Panel) (el : Radio) :
  map data (radios p) = map data (imap createRadio COLORS) ->
  (forall i j a b, radios p !! i = Some a -> radios p !! j = Some b ->
                   checked a = true -> checked b = true -> i = j) ->
  el ∈ radios p ->
  (forall el', firstChecked (radios p) = Some el' -> el' = el) ->
  Shown (swatchChange el p).
Proof.
  intros Htable Hone Hel Hfirst.
  pose proof (radio_wellFormed p el Htable Hel) as Hwf.
  unfold wellFormed, data in Hwf. destruct Hwf as (Hb & Hf & Hft).
  unfold swatchChange, applyColors.
  constructor; simpl; try done.
  - by rewrite Hb.
  - by destruct (transparentBackground p); rewrite ?Hf, ?Hft.
  - by rewrite colorValue_idempotent.
  - by rewrite colorValue_idempotent.
  - intros el' ->%Hfirst. rewrite Hb.
    by destruct (transparentBackground p); rewrite ?Hf, ?Hft.
Qed.

Lemma load_Shown (page : Panel) : Shown (load page).
Proof.
  unfold load. cbn [radios withRadios].
  set (first := createRadio 0 (mkColor "white" "#ffffff" "#000000"
                                 (Some "#ffffff"%string))).
  assert (fold_left (fun p el => if checked el then swatchChange el p else p)
                    (imap createRadio COLORS)
                    (withRadios (imap createRadio COLORS) page)
          = swatchChange first (withRadios (imap createRadio COLORS) page))
    as -> by reflexivity.
  apply swatchChange_Shown; cbn [radios withRadios].
  - reflexivity.
  - intros i j a b Ha Hb Hca Hcb.
    rewrite list_lookup_imap in Ha, Hb.
    destruct (COLORS !! i) eqn:Ei; [|done].
    destruct (COLORS !! j) eqn:Ej; [|done].
    cbn [fmap option_fmap option_map] in Ha, Hb.
    injection Ha as <-. injection Hb as <-.
    cbn [checked createRadio] in Hca, Hcb.
    apply Nat.eqb_eq in Hca, Hcb. congruence.
  - apply list_elem_of_lookup. by exists 0%nat.
  - intros el' H. vm_compute in H. by injection H as <-.
Qed.

Lemma act_Shown (p : Panel) (a : Action) : Shown p -> Shown (act p a).
Proof.
  intros [Htable Hone Hbg Hfg Hbgv Hfgv Hsw].
  destruct a as [i|value|value|]; cbn [act].
  - destruct (radios p !! i) as [el|] eqn:Ei; [|by constructor].
    destruct (checked el) eqn:Ec; [by constructor|].
    cbn [radios withRadios].
    destruct (checkOnly i (radios p) !! i) as [target|] eqn:Et; cycle 1.
    { unfold checkOnly in Et. rewrite list_lookup_imap, Ei in Et. done. }
    apply swatchChange_Shown; cbn [radios withRadios].
    + by rewrite data_checkOnly.
    + intros j k a b Ha Hb Hca Hcb.
      destruct (checkOnly_lookup _ _ _ _ Ha) as (_ & _ & _ & Hja).
      destruct (checkOnly_lookup _ _ _ _ Hb) as (_ & _ & _ & Hkb).
      rewrite Hca in Hja. rewrite Hcb in Hkb.
      symmetry in Hja, Hkb. apply Nat.eqb_eq in Hja, Hkb. congruence.
    + apply list_elem_of_lookup. by exists i.
    + intros el' H%firstChecked_checkOnly. congruence.
  - unfold customBgInput. constructor; simpl; try done.
    + by rewrite data_uncheck.
    + intros i j a b Ha _ Hca _. apply uncheck_none in Ha. congruence.
    + apply colorValue_idempotent.
    + intros el. by rewrite firstChecked_uncheck.
  - unfold customFgInput. constructor; simpl; try done.
    + by rewrite data_uncheck.
    + intros i j a b Ha _ Hca _. apply uncheck_none in Ha. congruence.
    + apply colorValue_idempotent.
    + intros el. by rewrite firstChecked_uncheck.
  - unfold transparentChange. cbn [radios].
    destruct (firstChecked (radios p)) as [el|] eqn:Efirst.
    + apply swatchChange_Shown; simpl; try done.
      * by apply firstChecked_elem in Efirst as [? _].
      * intros el' H. congruence.
    + unfold customBgInput. constructor; simpl; try done.
      * by rewrite data_uncheck.
      * intros i j a b Ha _ Hca _. apply uncheck_none in Ha. congruence.
      * intros el. by rewrite firstChecked_uncheck.
Qed.

Lemma run_Shown (actions : list Action) (page : Panel) :
  Shown (run actions page).
Proof.
  unfold run. generalize (load_Shown page). generalize (load page).
  induction actions as [|a actions IH]; intros p Hp; [done|].
  simpl. apply IH. by apply act_Shown.
Qed.

Lemma colorValue_fixed_valid (v : string) :
  colorValue v = v -> validSimpleColor v = true.
Proof.
  intros H. destruct (validSimpleColor v) eqn:E; [done|].
  unfold colorValue in H. rewrite E in H. by subst.
Qed.

Lemma length_append (a b : string) :
  String.length (String.append a b) = String.length a + String.length b.
Proof. induction a as [|x a IH]; [done|]. simpl. by rewrite IH. Qed.

Lemma valid_length (v : string) :
  validSimpleColor v = true -> String.length v = 7.
Proof.
  destruct v as [|a digits]; [done|]. unfold validSimpleColor.
  destruct a as [[] [] [] [] [] [] [] []]; try done.
  intros [Hlen _]%andb_true_iff. apply Nat.eqb_eq in Hlen. simpl. lia.
Qed.

Lemma firstChecked_exists (els : list Radio) (el : Radio) :
  el ∈ els -> checked el = true -> exists el', firstChecked els = Some el'.
Proof.
  intros Hin Hc. unfold firstChecked.
  destruct (find checked els) as [el'|] eqn:E; [by exists el'|].
  apply list_elem_of_In in Hin.
  pose proof (find_none _ _ E _ Hin). congruence.
Qed.

(** X18.  Whatever the user does with the colour controls, the box shows
    what the colour wells hold: [--bg-color] is the value of the background
    well, followed by the alpha [c0] exactly when the transparent check box
    is checked, and [--fg-color] is the value of the foreground well.  Both
    wells hold valid simple colours, so [--bg-color] is always a hash with
    six or eight hexadecimal digits. *)
Theorem box_shows_the_wells (actions : list Action) (page : Panel) :
  bgVar (run actions page)
  = String.append (customBg (run actions page))
                  (alpha (transparentBackground (run actions page))) /\
  fgVar (run actions page) = customFg (run actions page) /\
  validSimpleColor (customBg (run actions page)) = true /\
  validSimpleColor (customFg (run actions page)) = true /\
  String.length (bgVar (run actions page))
  = (if transparentBackground (run actions page) then 9 else 7)%nat.
Proof.
  destruct (run_Shown actions page) as [_ _ Hbg Hfg Hbgv Hfgv _].
  apply colorValue_fixed_valid in Hbgv, Hfgv.
  repeat split; try done.
  rewrite Hbg, length_append, (valid_length _ Hbgv).
  by destruct (transparentBackground (run actions page)).
Qed.

(** X19.  At most one swatch is checked at any time, and while swatch [i]
    is checked the box shows the colours of [COLORS[i]]: its background,
    with the alpha when transparent, and its foreground, which is the
    [fgIfTransparent] of the entry when the background is transparent and
    the entry has one. *)
Theorem checked_swatch_is_shown (actions : list Action) (page : Panel)
    (i : nat) (el : Radio) :
  radios (run actions page) !! i = Some el ->
  checked el = true ->
  (forall j el', radios (run actions page) !! j = Some el' ->
                 checked el' = true -> j = i) /\
  exists color,
    COLORS !! i = Some color /\
    bgVar (run actions page)
    = String.append (bg color)
                    (alpha (transparentBackground (run actions page))) /\
    fgVar (run actions page)
    = (if transparentBackground (run actions page)
       then default (fg color) (fgIfTransparent color) else fg color).
Proof.
  intros Hi Hc.
  destruct (run_Shown actions page) as [Htable Hone Hbg Hfg _ _ Hsw].
  split.
  { intros j el' Hj Hc'. by apply (Hone j i el' el). }
  assert (el ∈ radios (run actions page)) as Hin
    by (apply list_elem_of_lookup; by exists i).
  destruct (firstChecked_exists _ _ Hin Hc) as [el' Hfirst].
  destruct (firstChecked_elem _ _ Hfirst) as [Hin' Hc'].
  apply list_elem_of_lookup in Hin' as [j Hj].
  assert (j = i) as -> by by apply (Hone j i el' el).
  assert (el' = el) as -> by congruence.
  destruct (Hsw el Hfirst) as [Hcb Hcf].
  assert (map data (radios (run actions page)) !! i = Some (data el)) as Hd.
  { change (map data (radios (run actions page)))
      with (data <$> radios (run actions page)).
    by rewrite list_lookup_fmap, Hi. }
  rewrite Htable in Hd.
  change (map data (imap createRadio COLORS))
    with (data <$> imap createRadio COLORS) in Hd.
  rewrite list_lookup_fmap, list_lookup_imap in Hd.
  destruct (COLORS !! i) as [color|] eqn:Ecolor; [|done].
  exists color. split; [done|].
  cbn [fmap option_fmap option_map] in Hd. injection Hd as Hb Hf Hft.
  rewrite Hbg, Hfg, Hcb, Hcf. cbn [bgColor fgColor fgColorIfTransparent
    createRadio] in Hb, Hf, Hft.
  by rewrite <- Hb, <- Hf, <- Hft.
Qed.

Lemma checked_swatch_is_shown_witness :
  (forall j el',
     radios (run [ClickTransparent; ClickSwatch 2] (mkPanel [] false "" "" "" ""))
       !! j = Some el' ->
     checked el' = true -> j = 2%nat) /\
  exists color,
    COLORS !! 2%nat = Some color /\
    bgVar (run [ClickTransparent; ClickSwatch 2] (mkPanel [] false "" "" "" ""))
    = String.append (bg color)
        (alpha (transparentBackground
                  (run [ClickTransparent; ClickSwatch 2]
                       (mkPanel [] false "" "" "" "")))) /\
    fgVar (run [ClickTransparent; ClickSwatch 2] (mkPanel [] false "" "" "" ""))
    = (if transparentBackground
            (run [ClickTransparent; ClickSwatch 2]
                 (mkPanel [] false "" "" "" ""))
       then default (fg color) (fgIfTransparent color) else fg color).
Proof.
  apply (checked_swatch_is_shown [ClickTransparent; ClickSwatch 2]
           (mkPanel [] false "" "" "" "") 2
           (mkRadio true "#ea403f" "#ffffff" "#ffffff"));
    reflexivity.
Defined.

(** X20.  Clicking the transparent check box twice brings the panel back
    exactly as it was, whatever was done before: swatches, colour wells and
    both style properties. *)
Theorem transparent_twice (actions : list Action) (page : Panel) :
  act (act (run actions page) ClickTransparent) ClickTransparent
  = run actions page.
Proof.
  destruct (run_Shown actions page) as [Htable Hone Hbg Hfg Hbgv Hfgv Hsw].
  destruct (run actions page) as [els t bgv fgv cb cf] eqn:Ep.
  cbn [radios transparentBackground bgVar fgVar customBg customFg] in *.
  cbn [act]. unfold transparentChange.
  cbn [radios transparentBackground bgVar fgVar customBg customFg].
  destruct (firstChecked els) as [el|] eqn:Efirst.
  - unfold swatchChange, applyColors.
    cbn [radios transparentBackground bgVar fgVar customBg customFg].
    rewrite Efirst.
    cbn [radios transparentBackground bgVar fgVar customBg customFg].
    destruct (Hsw el eq_refl) as [Hcb Hcf].
    destruct (firstChecked_elem _ _ Efirst) as [Hin _].
    assert (wellFormed (data el)) as (Hb & Hf & Hft).
    { apply (radio_wellFormed (mkPanel els t bgv fgv cb cf)); done. }
    rewrite negb_involutive. subst bgv fgv cb.
    f_equal; try done.
    rewrite Hcf. by destruct t.
  - unfold customBgInput.
    cbn [radios transparentBackground bgVar fgVar customBg customFg].
    rewrite (firstChecked_None _ Efirst), Efirst.
    cbn [radios transparentBackground bgVar fgVar customBg customFg].
    rewrite (firstChecked_None _ Efirst), negb_involutive.
    by subst bgv.
Qed.

End Colors.

(** ** Alignment and text together *)

Module Caption.

(** The state the alignment and text handlers of [script.js] share: the
    [data-align] of the box, the value of the text area and the lines of the
    box.  (The alignment handler also copies the alignment to the text
    area's own [text-align], which nothing here reads.) *)
Record State : Type := mkState {
  align : jsstring;
  value : jsstring;
  box : list LineEl
}.

Section Handlers.

Variable measure : jsstring -> JSNum -> Z * Q.
Variable boxWidth : Z -> Z.

(** [textEl.onchange], with the text area as [evt.target]; [onkeyup] is the
    same function. *)
Definition textChange (s : State) : State :=
  {| align := align s;
     value := value s;
     box := onchange measure boxWidth (align s) (value s) (box s) |}.

(** The [onchange] of an alignment radio whose value is [v]. *)
Definition alignChange (v : jsstring) (s : State) : State :=
  textChange {| align := v; value := value s; box := box s |}.

(** What the user does: picks an alignment, or edits the text (the browser
    updates the value of the text area, then the handler runs). *)
Inductive Edit : Type :=
| PickAlign (v : jsstring)
| EditText (v : jsstring).

Definition edit (s : State) (e : Edit) : State :=
  match e with
  | PickAlign v => alignChange v s
  | EditText v => textChange {| align := align s; value := v; box := box s |}
  end.

(** The script as it loads.  The alignment loop runs before the text
    handler is installed: the radio that is checked, if any, sets the
    alignment, and the change event it sends to the text area finds no
    handler.  The last statement but the export sends the text area the
    change event of the first render. *)
Definition load (checkedAlign : option jsstring) (page : State) : State :=
  let s := match checkedAlign with
           | Some v => {| align := v; value := value page; box := box page |}
           | None => page
           end in
  textChange s.

Definition run (checkedAlign : option jsstring) (edits : list Edit)
    (page : State) : State :=
  fold_left edit edits (load checkedAlign page).

(** The box holds the lines of the current text, classified under the
    current alignment. *)
Definition upToDate (s : State) : Prop :=
  box s
  = applyCornerDetection boxWidth (align s)
      (map (createLine measure) (split newline (value s))).

Lemma textChange_upToDate (s : State) : upToDate (textChange s).
Proof. unfold upToDate, textChange. simpl. apply onchange_built. Qed.

(** X21.  The box is never stale.  After the script has loaded and after
    every edit, the box holds exactly the lines of the text now in the text
    area, classified under the alignment now set; in particular a change of
    alignment reclassifies the lines under the new alignment, and leaves
    their number and their texts as they were. *)
Theorem box_never_stale (checkedAlign : option jsstring) (edits : list Edit)
    (page : State) :
  upToDate (run checkedAlign edits page) /\
  (forall v,
     upToDate (edit (run checkedAlign edits page) (PickAlign v)) /\
     align (edit (run checkedAlign edits page) (PickAlign v)) = v /\
     map textContent (box (edit (run checkedAlign edits page) (PickAlign v)))
     = map textContent (box (run checkedAlign edits page))).
Proof.
  assert (upToDate (run checkedAlign edits page)) as Hrun.
  { unfold run.
    assert (upToDate (load checkedAlign page)) as Hload
      by apply textChange_upToDate.
    revert Hload. generalize (load checkedAlign page).
    induction edits as [|e edits IH]; intros s Hs; [done|].
    simpl. apply IH. destruct e; apply textChange_upToDate. }
  split; [exact Hrun|]. intros v.
  split; [apply textChange_upToDate|]. split; [reflexivity|].
  cbn [edit alignChange textChange box align value].
  rewrite Hrun, onchange_built.
  rewrite !map_keeps by (intros ? ? (? & _); done). reflexivity.
Qed.

End Handlers.

End Caption.

(** ** Fields of a record *)

Lemma split_field (sep : N) (a rest : jsstring) :
  sep ∉ a -> split sep (a ++ sep :: rest) = a :: split sep rest.
Proof.
  induction a as [|c a IH]; intros Hno.
  - simpl. by rewrite N.eqb_refl.
  - cbn [app split]. destruct (N.eqb_spec c sep) as [Heq|Hne].
    + exfalso. apply Hno. rewrite Heq. left.
    + rewrite IH; [done|]. intros H. apply Hno. by right.
Qed.

(** X22.  Only the first two fields of a record count: the text of the line
    is what stands before the first ["|"], the scale is read from what
    stands between the first and the second, and whatever follows a second
    ["|"] is dropped. *)
Theorem later_fields_dropped (a b c : jsstring) :
  pipe ∉ a -> pipe ∉ b ->
  lineText (a ++ pipe :: b ++ pipe :: c) = Some a /\
  lineScale (a ++ pipe :: b ++ pipe :: c) = lineScale (a ++ pipe :: b) /\
  lineScale (a ++ pipe :: b) = orElse (parseFloat (Some b)) (Num 1).
Proof.
  intros Ha Hb. unfold lineText, lineScale.
  rewrite !(split_field pipe a) by done.
  rewrite (split_field pipe b) by done.
  by rewrite (split_no_separator pipe b).
Qed.

Lemma later_fields_dropped_witness :
  lineText (lit "Big" ++ pipe :: lit "2" ++ pipe :: lit "x") = Some (lit "Big") /\
  lineScale (lit "Big" ++ pipe :: lit "2" ++ pipe :: lit "x")
  = lineScale (lit "Big" ++ pipe :: lit "2") /\
  lineScale (lit "Big" ++ pipe :: lit "2") = orElse (parseFloat (Some (lit "2"))) (Num 1).
Proof.
  apply (later_fields_dropped (lit "Big") (lit "2") (lit "x"));
    intros H; apply list_elem_of_In in H; simpl in H;
    repeat (destruct H as [H|H]; [discriminate H|]); exact H.
Defined.
